(** * sveltekit-websockets: the endpoint controller of [src/lib/server/index.ts]

    A shallow embedding of [WebSocketEndpointController] and of the route
    table [WebSockets], with the properties of the connection lifecycle
    stated and proved over it.

    Conventions of the embedding.
    - JavaScript numbers that the code uses as counters, limits and
      timestamps are integers of [Z]; [undefined] is [None].
    - A JavaScript [Map] whose iteration order the code observes
      ([pendingKeys], [sockets]) is an insertion-ordered list; a [Map] used
      only through [get]/[set]/[has]/[delete] ([rateLimitMap],
      [allowed_routes]) is a [gmap].
    - [Date.now()] is an argument [now] of the method that reads it; one
      synchronous method call sees one clock reading.
    - Random bytes ([randomBytes], [randomUUID]) are arguments; the [ref] of
      a socket identifies the socket object.
    - The transport (the [ws] library) is the environment: [readyState] is a
      field the environment owns, whether its [send] throws is an argument,
      and every call the controller makes on a socket ([close],
      [terminate], [send]), every event it emits and every callback it
      invokes is appended to a log of actions.
    - The listeners that users attach to the controller are outside the
      embedding: [emit] records the event, and callbacks do not throw. The
      one thing kept of them is how many listen to ['error'], since the
      [emit('error')] of Node's [EventEmitter] throws when none does. *)

From Stdlib Require Import ZArith List String Ascii Bool Lia.
From stdpp Require Import base gmap strings list pretty.

Open Scope Z_scope.

(** ** Insertion-ordered maps with string keys (JavaScript [Map]) *)

Module JsMap.
Section Ops.
Context {V : Type}.

Definition t := list (string * V).

Definition empty : t := [].

Fixpoint get (k : string) (m : t) : option V :=
  match m with
  | [] => None
  | (k', v) :: m' => if String.eqb k' k then Some v else get k m'
  end.

Definition has (k : string) (m : t) : bool :=
  match get k m with Some _ => true | None => false end.

(** [Map.prototype.set]: an existing key keeps its position, a new key goes
    to the end. *)
Fixpoint set (k : string) (v : V) (m : t) : t :=
  match m with
  | [] => [(k, v)]
  | (k', v') :: m' =>
      if String.eqb k' k then (k, v) :: m' else (k', v') :: set k v m'
  end.

Definition delete (k : string) (m : t) : t :=
  List.filter (fun e => negb (String.eqb (fst e) k)) m.

Definition size (m : t) : Z := Z.of_nat (List.length m).


Definition values (m : t) : list V := List.map snd m.

End Ops.
Arguments t : clear implicits.
End JsMap.

(** ** Close codes

    [enum WebSocketError] (lines 65-72), and the literal [1011] that the
    [catch] of [add] sends. *)

Inductive WebSocketError :=
| TOO_MANY_CONNECTIONS
| INVALID_KEY
| MISSING_PARAM
| AUTH_FAILED
| TIMEOUT
| RATE_LIMITED.

Definition WebSocketError_value (e : WebSocketError) : Z :=
  match e with
  | TOO_MANY_CONNECTIONS => 1013
  | INVALID_KEY => 1008
  | MISSING_PARAM => 1008
  | AUTH_FAILED => 1008
  | TIMEOUT => 1001
  | RATE_LIMITED => 1013
  end.

Definition INTERNAL_ERROR_CODE : Z := 1011.

(** The seven causes for which the controller closes a connection itself. *)
Inductive RejectionCause :=
| CauseTooManyConnections
| CauseInvalidKey
| CauseMissingParam
| CauseAuthFailed
| CauseTimeout
| CauseRateLimited
| CauseInternalError.

(** The code passed to [ws.close] for each cause, as written at the call
    sites of [add] and [setupSocketTimeout]. *)
Definition close_code (c : RejectionCause) : Z :=
  match c with
  | CauseTooManyConnections => WebSocketError_value TOO_MANY_CONNECTIONS
  | CauseInvalidKey => WebSocketError_value INVALID_KEY
  | CauseMissingParam => WebSocketError_value MISSING_PARAM
  | CauseAuthFailed => WebSocketError_value AUTH_FAILED
  | CauseTimeout => WebSocketError_value TIMEOUT
  | CauseRateLimited => WebSocketError_value RATE_LIMITED
  | CauseInternalError => INTERNAL_ERROR_CODE
  end.

(** The reason text passed along with the code; [param] is the parameter
    named by a missing-parameter rejection. *)
Definition close_reason (c : RejectionCause) (param : string) : string :=
  match c with
  | CauseTooManyConnections => "Too many connections"
  | CauseInvalidKey => "Invalid or expired connection key"
  | CauseMissingParam => "Missing required parameter: " +:+ param
  | CauseAuthFailed => "Authentication failed"
  | CauseTimeout => "Connection timeout due to inactivity"
  | CauseRateLimited => "Rate limit exceeded"
  | CauseInternalError => "Internal server error"
  end.

(** The groups of causes that share one numeric code. *)
Inductive CodeClass := TryAgainLater | PolicyViolation | GoingAway | ServerError.

Definition code_class (c : RejectionCause) : CodeClass :=
  match c with
  | CauseTooManyConnections | CauseRateLimited => TryAgainLater
  | CauseInvalidKey | CauseMissingParam | CauseAuthFailed => PolicyViolation
  | CauseTimeout => GoingAway
  | CauseInternalError => ServerError
  end.

(** ** JavaScript truthiness of the values the code tests *)

(** [x || d] on an optional string: [undefined] and [''] both give [d]. *)
Definition or_string (x : option string) (d : string) : string :=
  match x with
  | Some s => if String.eqb s "" then d else s
  | None => d
  end.

(** [x || d] on an optional number: [undefined] and [0] both give [d]. *)
Definition or_number (x : option Z) (d : Z) : Z :=
  match x with
  | Some n => if n =? 0 then d else n
  | None => d
  end.

(** Truthiness of an optional number: set and not [0]. *)
Definition truthy_number (x : option Z) : bool :=
  match x with
  | Some n => negb (n =? 0)
  | None => false
  end.

(** ** Encoding of random bytes

    [randomBytes(n).toString('base64url')] and [.toString('hex')]. *)

Definition base64url_alphabet : string :=
  "ABCDEFGHIJKLMNOPQRSTUVWXYZabcdefghijklmnopqrstuvwxyz0123456789-_".

Definition base64url_digit (n : N) : ascii :=
  match String.get (N.to_nat n) base64url_alphabet with
  | Some c => c
  | None => "A"%char
  end.

Fixpoint base64url (bs : list Byte.byte) : string :=
  match bs with
  | [] => ""
  | a :: [] =>
      let x := Byte.to_N a in
      String (base64url_digit (x / 4))
        (String (base64url_digit ((x mod 4) * 16)) "")
  | a :: b :: [] =>
      let x := Byte.to_N a in
      let y := Byte.to_N b in
      String (base64url_digit (x / 4))
        (String (base64url_digit ((x mod 4) * 16 + y / 16))
           (String (base64url_digit ((y mod 16) * 4)) ""))
  | a :: b :: c :: rest =>
      let x := Byte.to_N a in
      let y := Byte.to_N b in
      let z := Byte.to_N c in
      String (base64url_digit (x / 4))
        (String (base64url_digit ((x mod 4) * 16 + y / 16))
           (String (base64url_digit ((y mod 16) * 4 + z / 64))
              (String (base64url_digit (z mod 64)) (base64url rest))))
  end%N.

Definition hex_digit (n : N) : ascii :=
  match String.get (N.to_nat n) "0123456789abcdef" with
  | Some c => c
  | None => "0"%char
  end.

Fixpoint hex (bs : list Byte.byte) : string :=
  match bs with
  | [] => ""
  | a :: rest =>
      let x := Byte.to_N a in
      String (hex_digit (x / 16)) (String (hex_digit (x mod 16)) (hex rest))
  end%N.

(** ** Requests, configuration and the records the controller stores *)

(** What [add] reads of an [IncomingMessage]: the two fields of
    [getClientId] and the query of [parseUrl(req)]; [searchParams] is [None]
    when [new URL] throws. *)
Record IncomingMessage := {
  remoteAddress : option string;
  userAgent : option string;
  searchParams : option (list (string * string))
}.

(** [URLSearchParams.get] (first value of the name) and [.has]. *)
Definition params_get (name : string) (ps : list (string * string)) : option string :=
  JsMap.get name ps.

Definition params_has (name : string) (ps : list (string * string)) : bool :=
  JsMap.has name ps.

(** [Object.fromEntries(params.entries())]: a later pair of the same name
    overwrites an earlier one. *)
Definition fromEntries (ps : list (string * string)) : gmap string string :=
  fold_left (fun m e => <[fst e := snd e]> m) ps ∅.

Definition Error := string.

(** What awaiting [authHandler(req)] gives: a (truthy or falsy) value, or an
    exception or rejected promise. *)
Inductive HandlerResult :=
| Returns (b : bool)
| Throws (e : Error).

Module RateLimit.
Record t := { max : Z; window : Z }.
End RateLimit.

(** [disposer] tells whether a disposer callback is configured; what the
    callback of a route-table controller does is [allowed_routes.delete]. *)
Record WebSocketEndpointConfig := {
  authHandler : option (IncomingMessage -> HandlerResult);
  limit : option Z;
  useConnectionKeys : option bool;
  pendingKeyExpiration : option Z;
  requiredParams : option (list string);
  timeout : option Z;
  rateLimit : option RateLimit.t;
  disposer : bool
}.

Record PendingKey := {
  key : string;
  createdAt : Z;
  expiresAt : Z
}.

Record RateLimitEntry := {
  count : Z;
  resetTime : Z
}.

Inductive ReadyState := CONNECTING | OPEN | CLOSING | CLOSED.

Definition is_open (s : ReadyState) : bool :=
  match s with OPEN => true | _ => false end.

(** A [ReferencedWebSocket] object. [readyState] belongs to the transport.
    The three counters record the listeners that [add] installs on the
    object: [once('close')], [on('error')], and the activity handler on
    [message]/[ping]/[pong]. *)
Record ReferencedWebSocket := {
  ref : string;
  connectedAt : Z;
  params : option (gmap string string);
  timeoutTimer : option nat;
  lastActivity : option Z;
  readyState : ReadyState;
  closeListeners : nat;
  errorListeners : nat;
  activityListeners : nat
}.

Definition BufferLike := string.

(** The checks of the admission routine, for the log. *)
Inductive AdmissionCheck :=
| CheckRateLimit
| CheckCapacity
| CheckKey
| CheckRequiredParams
| CheckAuth.

Inductive Emitted :=
| EvConnect (ws : string)
| EvDisconnect (ws : string) (code : Z) (reason : string)
| EvDestroy
| EvError (e : Error) (ws : option string)
| EvRateLimit (req : IncomingMessage).

(** What the controller does to the outside, in the order it does it.
    [Evaluated] is a ghost action: it marks that [add] has evaluated the
    condition of one of its checks. [Uncaught] is an exception that leaves
    the running method or listener; for [add], an [async] method, it is the
    rejection of the promise returned. *)
Inductive Action :=
| WsClose (ws : string) (code : Z) (reason : string)
| WsTerminate (ws : string)
| WsSend (ws : string) (data : BufferLike)
| Emit (e : Emitted)
| SetTimeout (handle : nat) (delay : Z)
| ClearTimeout (handle : nat)
| Evaluated (c : AdmissionCheck)
| SendCallback (err : option Error)
| BroadcastCallback (errors : list Error)
| Disposer
| Uncaught (e : Error).

(** The controller together with the objects it shares with its
    environment.
    - [heap]: the socket objects the transport has created, by [ref]
      ([randomUUID], taken as unique); [sockets] is the controller's
      [Map<string, ReferencedWebSocket>], holding references into [heap] in
      insertion order.
    - [timers]: the idle-timeout timers the runtime has pending, handle to
      owning socket; [nextTimer] is the next handle [setTimeout] returns.
    - [errorHandlers]: the listeners of the controller's own ['error']
      event. The controller extends Node's [EventEmitter], whose
      [emit('error', e)] throws [e] when there is no such listener. *)
Record World := {
  config : WebSocketEndpointConfig;
  heap : gmap string ReferencedWebSocket;
  sockets : list string;
  pendingKeys : JsMap.t PendingKey;
  rateLimitMap : gmap string RateLimitEntry;
  timers : gmap nat string;
  nextTimer : nat;
  log : list Action;
  errorHandlers : nat
}.

Definition set_heap (h : gmap string ReferencedWebSocket) (w : World) : World :=
  {| config := config w; heap := h; sockets := sockets w;
     pendingKeys := pendingKeys w; rateLimitMap := rateLimitMap w;
     timers := timers w; nextTimer := nextTimer w; log := log w;
     errorHandlers := errorHandlers w |}.

Definition set_sockets (s : list string) (w : World) : World :=
  {| config := config w; heap := heap w; sockets := s;
     pendingKeys := pendingKeys w; rateLimitMap := rateLimitMap w;
     timers := timers w; nextTimer := nextTimer w; log := log w;
     errorHandlers := errorHandlers w |}.

Definition set_pendingKeys (p : JsMap.t PendingKey) (w : World) : World :=
  {| config := config w; heap := heap w; sockets := sockets w;
     pendingKeys := p; rateLimitMap := rateLimitMap w;
     timers := timers w; nextTimer := nextTimer w; log := log w;
     errorHandlers := errorHandlers w |}.

Definition set_rateLimitMap (r : gmap string RateLimitEntry) (w : World) : World :=
  {| config := config w; heap := heap w; sockets := sockets w;
     pendingKeys := pendingKeys w; rateLimitMap := r;
     timers := timers w; nextTimer := nextTimer w; log := log w;
     errorHandlers := errorHandlers w |}.

Definition set_timers (t : gmap nat string) (n : nat) (w : World) : World :=
  {| config := config w; heap := heap w; sockets := sockets w;
     pendingKeys := pendingKeys w; rateLimitMap := rateLimitMap w;
     timers := t; nextTimer := n; log := log w;
     errorHandlers := errorHandlers w |}.

Definition set_errorHandlers (n : nat) (w : World) : World :=
  {| config := config w; heap := heap w; sockets := sockets w;
     pendingKeys := pendingKeys w; rateLimitMap := rateLimitMap w;
     timers := timers w; nextTimer := nextTimer w; log := log w;
     errorHandlers := n |}.

Definition act (a : Action) (w : World) : World :=
  {| config := config w; heap := heap w; sockets := sockets w;
     pendingKeys := pendingKeys w; rateLimitMap := rateLimitMap w;
     timers := timers w; nextTimer := nextTimer w; log := log w ++ [a];
     errorHandlers := errorHandlers w |}.

(** The constructor: [useConnectionKeys] defaults to [true]. *)
Definition construct_config (c : WebSocketEndpointConfig) : WebSocketEndpointConfig :=
  {| authHandler := authHandler c; limit := limit c;
     useConnectionKeys :=
       match useConnectionKeys c with Some b => Some b | None => Some true end;
     pendingKeyExpiration := pendingKeyExpiration c;
     requiredParams := requiredParams c; timeout := timeout c;
     rateLimit := rateLimit c; disposer := disposer c |}.

Definition new_controller (c : WebSocketEndpointConfig) : World :=
  {| config := construct_config c; heap := ∅; sockets := [];
     pendingKeys := JsMap.empty; rateLimitMap := ∅;
     timers := ∅; nextTimer := O; log := []; errorHandlers := O |}.

(** The socket objects of [this.sockets.values()], in insertion order. *)
Definition socket_values (w : World) : list ReferencedWebSocket :=
  omap (fun r => heap w !! r) (sockets w).

(** [this.sockets.set(ws.ref, ws)] and [this.sockets.delete(ref)]. *)
Definition sockets_set (r : string) (s : list string) : list string :=
  if bool_decide (r ∈ s) then s else s ++ [r].

Definition sockets_delete (r : string) (s : list string) : list string :=
  List.filter (fun r' => negb (String.eqb r' r)) s.

(** [this.sockets.get(ref)]. *)
Definition sockets_get (r : string) (w : World) : option ReferencedWebSocket :=
  if bool_decide (r ∈ sockets w) then heap w !! r else None.

(** The [readyState] of the object behind a reference. *)
Definition state_of (r : string) (w : World) : option ReadyState :=
  readyState <$> heap w !! r.

Definition open_in (w : World) (r : string) : bool :=
  match state_of r w with Some OPEN => true | _ => false end.

(** ** PendingKeyAuthority: [generatePendingConnectionKey], [validateConnectionKey] *)

(** [generateConnectionKey]: [randomBytes(32).toString('base64url')]. *)
Definition generateConnectionKey (entropy : list Byte.byte) : string :=
  base64url entropy.

(** The identifier under which a key is stored:
    [`pending_${Date.now()}_${randomBytes(8).toString('hex')}`]. *)
Definition pending_id (now : Z) (idEntropy : list Byte.byte) : string :=
  "pending_" +:+ pretty now +:+ "_" +:+ hex idEntropy.

Definition expiry_of (cfg : WebSocketEndpointConfig) (now : Z) : Z :=
  now + or_number (pendingKeyExpiration cfg) (2 * 60 * 1000).

Definition generatePendingConnectionKey
    (entropy idEntropy : list Byte.byte) (now : Z) (w : World) : string * World :=
  let k := generateConnectionKey entropy in
  let id := pending_id now idEntropy in
  let expiresAt := expiry_of (config w) now in
  (k, set_pendingKeys
        (JsMap.set id {| key := k; createdAt := now; expiresAt := expiresAt |}
           (pendingKeys w)) w).

(** The loop of [validateConnectionKey]: the identifier of the first stored
    entry, in insertion order, whose key matches and has not expired. *)
Fixpoint find_pending (providedKey : string) (now : Z)
    (entries : list (string * PendingKey)) : option string :=
  match entries with
  | [] => None
  | (id, pendingKey) :: rest =>
      if String.eqb (key pendingKey) providedKey && (now <=? expiresAt pendingKey)
      then Some id
      else find_pending providedKey now rest
  end.

Definition validateConnectionKey (providedKey : string) (now : Z) (w : World)
    : bool * World :=
  if String.eqb providedKey "" then (false, w)
  else
    match find_pending providedKey now (pendingKeys w) with
    | Some id => (true, set_pendingKeys (JsMap.delete id (pendingKeys w)) w)
    | None => (false, w)
    end.

(** [cleanupExpiredKeys], run by the interval of the constructor. *)
Definition cleanupExpiredKeys (now : Z) (w : World) : World :=
  set_pendingKeys
    (List.filter (fun e => negb (now >? expiresAt (snd e))) (pendingKeys w)) w.

(** [get new]: the connection URL, with a fresh key when keys are in use. *)
Definition new_url (path : string) (entropy idEntropy : list Byte.byte) (now : Z)
    (w : World) : string * World :=
  match useConnectionKeys (config w) with
  | Some true =>
      let '(k, w') := generatePendingConnectionKey entropy idEntropy now w in
      (path +:+ "?key=" +:+ k, w')
  | _ => (path, w)
  end.

(** ** RateLimiter: [getClientId], [checkRateLimit] *)

Definition getClientId (req : IncomingMessage) : string :=
  let ip := or_string (remoteAddress req) "unknown" in
  let agent := or_string (userAgent req) "unknown" in
  ip +:+ ":" +:+ agent.

Definition checkRateLimit (req : IncomingMessage) (now : Z) (w : World)
    : bool * World :=
  match rateLimit (config w) with
  | None => (true, w)
  | Some rl =>
      let clientId := getClientId req in
      let fresh :=
        set_rateLimitMap
          (<[clientId := {| count := 1; resetTime := now + RateLimit.window rl |}]>
             (rateLimitMap w)) w in
      match rateLimitMap w !! clientId with
      | None => (true, fresh)
      | Some lim =>
          if now >? resetTime lim then (true, fresh)
          else if count lim >=? RateLimit.max rl
          then (false, act (Emit (EvRateLimit req)) w)
          else
            (true,
             set_rateLimitMap
               (<[clientId := {| count := count lim + 1; resetTime := resetTime lim |}]>
                  (rateLimitMap w)) w)
      end
  end.

(** ** Idle-timeout watchdog: [setupSocketTimeout], [resetSocketTimeout] *)

Definition with_timeoutTimer (h : option nat) (s : ReferencedWebSocket)
    : ReferencedWebSocket :=
  {| ref := ref s; connectedAt := connectedAt s; params := params s;
     timeoutTimer := h; lastActivity := lastActivity s;
     readyState := readyState s; closeListeners := closeListeners s;
     errorListeners := errorListeners s;
     activityListeners := activityListeners s |}.

Definition with_lastActivity (t : Z) (s : ReferencedWebSocket)
    : ReferencedWebSocket :=
  {| ref := ref s; connectedAt := connectedAt s; params := params s;
     timeoutTimer := timeoutTimer s; lastActivity := Some t;
     readyState := readyState s; closeListeners := closeListeners s;
     errorListeners := errorListeners s;
     activityListeners := activityListeners s |}.

Definition with_params (p : gmap string string) (s : ReferencedWebSocket)
    : ReferencedWebSocket :=
  {| ref := ref s; connectedAt := connectedAt s; params := Some p;
     timeoutTimer := timeoutTimer s; lastActivity := lastActivity s;
     readyState := readyState s; closeListeners := closeListeners s;
     errorListeners := errorListeners s;
     activityListeners := activityListeners s |}.

Definition with_readyState (r : ReadyState) (s : ReferencedWebSocket)
    : ReferencedWebSocket :=
  {| ref := ref s; connectedAt := connectedAt s; params := params s;
     timeoutTimer := timeoutTimer s; lastActivity := lastActivity s;
     readyState := r; closeListeners := closeListeners s;
     errorListeners := errorListeners s;
     activityListeners := activityListeners s |}.

Definition with_listeners (c e a : nat) (s : ReferencedWebSocket)
    : ReferencedWebSocket :=
  {| ref := ref s; connectedAt := connectedAt s; params := params s;
     timeoutTimer := timeoutTimer s; lastActivity := lastActivity s;
     readyState := readyState s; closeListeners := c;
     errorListeners := e; activityListeners := a |}.

(** A field update on the object behind a reference. *)
Definition update_socket (r : string) (f : ReferencedWebSocket -> ReferencedWebSocket)
    (w : World) : World :=
  set_heap (alter f r (heap w)) w.

(** [clearTimeout(handle)]: the runtime forgets the timer; clearing a timer
    that has fired or was cleared before does nothing. *)
Definition clearTimeout (h : nat) (w : World) : World :=
  act (ClearTimeout h) (set_timers (delete h (timers w)) (nextTimer w) w).

(** [setTimeout(..., delay)] for the idle timer of socket [r]. *)
Definition setTimeout (r : string) (delay : Z) (w : World) : nat * World :=
  let h := nextTimer w in
  (h, act (SetTimeout h delay) (set_timers (<[h := r]> (timers w)) (S h) w)).

(** [if (ws.timeoutTimer) clearTimeout(ws.timeoutTimer)]. *)
Definition clear_timer_of (r : string) (w : World) : World :=
  match heap w !! r with
  | Some s =>
      match timeoutTimer s with
      | Some h => clearTimeout h w
      | None => w
      end
  | None => w
  end.

Definition setupSocketTimeout (r : string) (now : Z) (w : World) : World :=
  if truthy_number (timeout (config w)) then
    let w1 := clear_timer_of r w in
    let '(h, w2) := setTimeout r (or_number (timeout (config w)) 0) w1 in
    update_socket r (fun s => with_lastActivity now (with_timeoutTimer (Some h) s)) w2
  else w.

Definition resetSocketTimeout (r : string) (now : Z) (w : World) : World :=
  setupSocketTimeout r now (update_socket r (with_lastActivity now) w).

(** The callback of the idle timer, when the runtime fires timer [h]. *)
Definition timer_fired (h : nat) (w : World) : World :=
  match timers w !! h with
  | None => w
  | Some r =>
      let w1 := set_timers (delete h (timers w)) (nextTimer w) w in
      if open_in w1 r
      then act (WsClose r (WebSocketError_value TIMEOUT)
                  "Connection timeout due to inactivity") w1
      else w1
  end.

(** ** ConnectionRegistry: the admission routine [add] *)

(** The loop over [requiredParams]: the first listed parameter that the
    query does not have. *)
Fixpoint first_missing (required : list string) (ps : list (string * string))
    : option string :=
  match required with
  | [] => None
  | param :: rest =>
      if params_has param ps then first_missing rest ps else Some param
  end.

(** The [catch] block of [add]: [this.emit('error', error, ws)], then
    [ws.close(1011, ...)]. On a controller without an ['error'] listener the
    [emit] throws, the [close] is not reached and the exception leaves
    [add]. *)
Definition add_catch (e : Error) (ws : string) (w : World) : World :=
  let w1 := act (Emit (EvError e (Some ws))) w in
  if Nat.eqb (errorHandlers w) 0 then act (Uncaught e) w1
  else act (WsClose ws 1011 "Internal server error") w1.

(** [this.config.timeout && this.config.timeout > 0]. *)
Definition timeout_enabled (cfg : WebSocketEndpointConfig) : bool :=
  match timeout cfg with
  | Some t => t >? 0
  | None => false
  end.

(** The tail of [add] after every check has passed (lines 238-269);
    [resumed] is the clock after the [await]. *)
Definition add_register (ws : string) (ps : list (string * string))
    (resumed : Z) (w : World) : World :=
  let w1 := update_socket ws (with_params (fromEntries ps)) w in
  let w2 := set_sockets (sockets_set ws (sockets w1)) w1 in
  let timed := timeout_enabled (config w) in
  let w3 := if timed then setupSocketTimeout ws resumed w2 else w2 in
  let w4 :=
    update_socket ws
      (fun s =>
         with_listeners (S (closeListeners s)) (S (errorListeners s))
           (if timed then S (activityListeners s) else activityListeners s) s)
      w3 in
  act (Emit (EvConnect ws)) w4.

Definition add_auth (ws : string) (req : IncomingMessage)
    (ps : list (string * string)) (resumed : Z) (w : World) : World :=
  let w0 := act (Evaluated CheckAuth) w in
  let handler :=
    match authHandler (config w) with
    | Some h => h
    | None => fun _ => Returns true
    end in
  match handler req with
  | Throws e => add_catch e ws w0
  | Returns false =>
      act (WsClose ws (WebSocketError_value AUTH_FAILED) "Authentication failed") w0
  | Returns true => add_register ws ps resumed w0
  end.

Definition add_params (ws : string) (req : IncomingMessage)
    (ps : list (string * string)) (resumed : Z) (w : World) : World :=
  match requiredParams (config w) with
  | Some required =>
      let w0 := act (Evaluated CheckRequiredParams) w in
      match first_missing required ps with
      | Some param =>
          act (WsClose ws (WebSocketError_value MISSING_PARAM)
                 ("Missing required parameter: " +:+ param)) w0
      | None => add_auth ws req ps resumed w0
      end
  | None => add_auth ws req ps resumed w
  end.

Definition add_key (ws : string) (req : IncomingMessage)
    (ps : list (string * string)) (now resumed : Z) (w : World) : World :=
  match useConnectionKeys (config w) with
  | Some true =>
      let w0 := act (Evaluated CheckKey) w in
      let providedKey := params_get "key" ps in
      let '(ok, w1) := validateConnectionKey (or_string providedKey "") now w0 in
      if ok then add_params ws req ps resumed w1
      else
        act (WsClose ws (WebSocketError_value INVALID_KEY)
               "Invalid or expired connection key") w1
  | _ => add_params ws req ps resumed w
  end.

Definition at_capacity (w : World) : bool :=
  truthy_number (limit (config w))
  && (Z.of_nat (List.length (sockets w)) >=? or_number (limit (config w)) 0).

Definition add (ws : string) (req : IncomingMessage) (now resumed : Z) (w : World)
    : World :=
  let w0 := act (Evaluated CheckRateLimit) w in
  let '(allowed, w1) := checkRateLimit req now w0 in
  if negb allowed then
    act (WsClose ws (WebSocketError_value RATE_LIMITED) "Rate limit exceeded") w1
  else
    let w2 := act (Evaluated CheckCapacity) w1 in
    if at_capacity w2 then
      act (WsClose ws (WebSocketError_value TOO_MANY_CONNECTIONS)
             "Too many connections") w2
    else
      match searchParams req with
      | None => add_catch "Invalid URL" ws w2
      | Some ps => add_key ws req ps now resumed w2
      end.

(** ** The listeners that [add] installs on a socket *)

(** The [once('close')] listener (lines 248-255). *)
Definition close_handler (ws : string) (code : Z) (reason : string) (w : World)
    : World :=
  let w1 := set_sockets (sockets_delete ws (sockets w)) w in
  let w2 :=
    match heap w1 !! ws with
    | Some s =>
        match timeoutTimer s with
        | Some h => update_socket ws (with_timeoutTimer None) (clearTimeout h w1)
        | None => w1
        end
    | None => w1
    end in
  act (Emit (EvDisconnect ws code reason)) w2.

(** The transport emits ['close'] on a socket: every installed [once]
    listener is removed and run. *)
Definition on_close (ws : string) (code : Z) (reason : string) (w : World) : World :=
  match heap w !! ws with
  | Some s =>
      let w0 :=
        update_socket ws
          (fun s => with_listeners O (errorListeners s) (activityListeners s) s) w in
      Nat.iter (closeListeners s) (close_handler ws code reason) w0
  | None => w
  end.

(** The transport emits ['error'] on a socket: every [on('error')] listener
    of [add] re-emits it on the controller. On a controller without an
    ['error'] listener the first re-emit throws, which ends the dispatch. *)
Definition on_error (ws : string) (e : Error) (w : World) : World :=
  match heap w !! ws with
  | Some s =>
      if Nat.eqb (errorHandlers w) 0 then
        match errorListeners s with
        | O => w
        | S _ => act (Uncaught e) (act (Emit (EvError e (Some ws))) w)
        end
      else Nat.iter (errorListeners s) (act (Emit (EvError e (Some ws)))) w
  | None => w
  end.

(** The transport emits ['message'], ['ping'] or ['pong'] on a socket. *)
Definition on_activity (ws : string) (now : Z) (w : World) : World :=
  match heap w !! ws with
  | Some s => Nat.iter (activityListeners s) (resetSocketTimeout ws now) w
  | None => w
  end.

(** ** Messaging: [broadcast] and [send] *)

(** The state that the closures of one [broadcast] call share. *)
Record Broadcast := {
  errors : list Error;
  completed : Z;
  total : Z;
  cb : bool
}.

(** [completed++; if (completed === total && cb) cb(errors)]. *)
Definition complete_one (b : Broadcast) (w : World) : Broadcast * World :=
  let b' := {| errors := errors b; completed := completed b + 1;
               total := total b; cb := cb b |} in
  (b', if (completed b' =? total b') && cb b'
       then act (BroadcastCallback (errors b')) w else w).

(** The [for] loop of [broadcast] over the selected sockets. [throws] says
    for which sockets the transport's [send] throws synchronously; such an
    exception leaves the loop and the method. *)
Fixpoint broadcast_loop (data : BufferLike) (throws : string -> option Error)
    (selected : list ReferencedWebSocket) (b : Broadcast) (w : World)
    : Broadcast * World * option Error :=
  match selected with
  | [] => (b, w, None)
  | socket :: rest =>
      if is_open (readyState socket) then
        match throws (ref socket) with
        | Some e => (b, w, Some e)
        | None =>
            broadcast_loop data throws rest b (act (WsSend (ref socket) data) w)
        end
      else
        let '(b', w') := complete_one b w in
        broadcast_loop data throws rest b' w'
  end.

Definition broadcast (data : BufferLike)
    (filter : option (ReferencedWebSocket -> bool)) (cb : bool)
    (throws : string -> option Error) (w : World)
    : Broadcast * World * option Error :=
  let selected :=
    match filter with
    | Some f => List.filter f (socket_values w)
    | None => socket_values w
    end in
  let b := {| errors := []; completed := 0;
              total := Z.of_nat (List.length selected); cb := cb |} in
  if total b =? 0 then
    (b, if cb then act (BroadcastCallback []) w else w, None)
  else broadcast_loop data throws selected b w.

(** The callback that [broadcast] hands to the transport with each [send],
    when the transport calls it. *)
Definition send_completed (err : option Error) (b : Broadcast) (w : World)
    : Broadcast * World :=
  let b1 :=
    match err with
    | Some e => {| errors := errors b ++ [e]; completed := completed b;
                   total := total b; cb := cb b |}
    | None => b
    end in
  complete_one b1 w.

Definition show_state (s : ReadyState) : string :=
  match s with
  | CONNECTING => "0"
  | OPEN => "1"
  | CLOSING => "2"
  | CLOSED => "3"
  end.

(** [send]: the result is the returned boolean and, when the method lets an
    exception escape, that exception. *)
Definition send (r : string) (data : BufferLike) (cb : bool)
    (throws : string -> option Error) (w : World)
    : bool * World * option Error :=
  match sockets_get r w with
  | None =>
      (false,
       if cb then act (SendCallback (Some ("Socket not found: " +:+ r))) w else w,
       None)
  | Some socket =>
      if negb (is_open (readyState socket)) then
        (false,
         if cb
         then act (SendCallback
                     (Some ("Socket not ready: " +:+ show_state (readyState socket)))) w
         else w,
         None)
      else
        match throws r with
        | Some e => (false, if cb then act (SendCallback (Some e)) w else w, None)
        | None => (true, act (WsSend r data) w, None)
        end
  end.

(** ** Shutdown, termination and the remaining operations *)

(** The state that the closures of one [gracefulShutdown] call share:
    [snapshot] is the array [sockets] of the method, [resolved] whether
    [resolve()] has been called, [forceTimeout] whether the timer of the
    forced termination is pending, [listening] the sockets that still carry
    the [once('close', closeHandler)] listener. *)
Record Shutdown := {
  snapshot : list string;
  closedCount : Z;
  resolved : bool;
  forceTimeout : bool;
  listening : list string
}.

(** [closeHandler] of [gracefulShutdown]. *)
Definition closeHandler (g : Shutdown) : Shutdown :=
  let n := closedCount g + 1 in
  {| snapshot := snapshot g; closedCount := n;
     resolved := if n =? Z.of_nat (List.length (snapshot g)) then true else resolved g;
     forceTimeout := forceTimeout g; listening := listening g |}.

Definition listen_on (r : string) (g : Shutdown) : Shutdown :=
  {| snapshot := snapshot g; closedCount := closedCount g;
     resolved := resolved g; forceTimeout := forceTimeout g;
     listening := listening g ++ [r] |}.

(** The loop "gracefully close all connections". *)
Fixpoint shutdown_loop (todo : list ReferencedWebSocket) (g : Shutdown) (w : World)
    : Shutdown * World :=
  match todo with
  | [] => (g, w)
  | socket :: rest =>
      let g1 := listen_on (ref socket) g in
      if is_open (readyState socket) then
        shutdown_loop rest g1 (act (WsClose (ref socket) 1001 "Server shutting down") w)
      else shutdown_loop rest (closeHandler g1) w
  end.

(** [gracefulShutdown(timeout)] up to the return of the promise executor.
    The delay of the force timer is its argument ([5000] by default); when
    the runtime fires it is an event of its own, [shutdown_timeout]. *)
Definition gracefulShutdown (w : World) : Shutdown * World :=
  let socks := socket_values w in
  if Z.of_nat (List.length socks) =? 0 then
    ({| snapshot := []; closedCount := 0; resolved := true;
        forceTimeout := false; listening := [] |}, w)
  else
    let g0 := {| snapshot := List.map ref socks; closedCount := 0;
                 resolved := false; forceTimeout := true; listening := [] |} in
    let '(g1, w1) := shutdown_loop socks g0 w in
    let g2 :=
      if closedCount g1 =? Z.of_nat (List.length (snapshot g1)) then
        {| snapshot := snapshot g1; closedCount := closedCount g1;
           resolved := resolved g1; forceTimeout := false;
           listening := listening g1 |}
      else g1 in
    (g2, w1).

(** The transport emits ['close'] on socket [r] while a shutdown is under
    way: its [once] listeners of this shutdown are removed and run. *)
Definition shutdown_on_close (r : string) (g : Shutdown) : Shutdown :=
  let n := List.length (List.filter (String.eqb r) (listening g)) in
  let g0 := {| snapshot := snapshot g; closedCount := closedCount g;
               resolved := resolved g; forceTimeout := forceTimeout g;
               listening := List.filter (fun r' => negb (String.eqb r r')) (listening g) |} in
  Nat.iter n closeHandler g0.

(** The loop of the force timer over [this.sockets.values()]. *)
Fixpoint terminate_open (socks : list ReferencedWebSocket) (w : World) : World :=
  match socks with
  | [] => w
  | socket :: rest =>
      if is_open (readyState socket)
      then terminate_open rest (act (WsTerminate (ref socket)) w)
      else terminate_open rest w
  end.

(** The callback of the force timer, when the runtime fires it; a cleared
    timer does not fire. *)
Definition shutdown_timeout (g : Shutdown) (w : World) : Shutdown * World :=
  if forceTimeout g then
    ({| snapshot := snapshot g; closedCount := closedCount g; resolved := true;
        forceTimeout := false; listening := listening g |},
     terminate_open (socket_values w) w)
  else (g, w).

Definition resetTimeout (r : string) (now : Z) (w : World) : bool * World :=
  match sockets_get r w with
  | None => (false, w)
  | Some _ => (true, resetSocketTimeout r now w)
  end.

(** The loop of [terminate()] without a reference. *)
Fixpoint terminate_each (socks : list ReferencedWebSocket) (w : World) : World :=
  match socks with
  | [] => w
  | socket :: rest =>
      let w1 :=
        match timeoutTimer socket with
        | Some h => clearTimeout h w
        | None => w
        end in
      terminate_each rest (act (WsTerminate (ref socket)) w1)
  end.

Definition clear_maps (w : World) : World :=
  set_rateLimitMap ∅ (set_pendingKeys JsMap.empty (set_sockets [] w)).

(** [terminate(ref?)]: the second component is the exception the method
    throws, if any. [!ref] holds for [undefined] and for the empty string. *)
Definition terminate (r : option string) (w : World) : World * option Error :=
  if String.eqb (or_string r "") "" then
    (clear_maps (terminate_each (socket_values w) w), None)
  else
    let r' := or_string r "" in
    match sockets_get r' w with
    | None => (w, Some ("Socket not found: " +:+ r'))
    | Some socket =>
        let w1 :=
          match timeoutTimer socket with
          | Some h => clearTimeout h w
          | None => w
          end in
        (act (WsTerminate r') w1, None)
    end.

(** The loop of [destroy]. *)
Fixpoint destroy_each (socks : list ReferencedWebSocket) (w : World) : World :=
  match socks with
  | [] => w
  | socket :: rest =>
      let w1 :=
        match timeoutTimer socket with
        | Some h => clearTimeout h w
        | None => w
        end in
      destroy_each rest
        (if is_open (readyState socket) then act (WsTerminate (ref socket)) w1 else w1)
  end.

(** [destroy()]; its last statement, [removeAllListeners()], also takes
    the ['error'] listeners off the controller. *)
Definition destroy (w : World) : World :=
  let w1 := clear_maps (destroy_each (socket_values w) w) in
  set_errorHandlers O
    (act (Emit EvDestroy) (if disposer (config w) then act Disposer w1 else w1)).

(** One line of [getConnectionsInfo]. *)
Record ConnectionInfo := {
  info_ref : string;
  info_readyState : ReadyState;
  info_params : option (gmap string string);
  info_lastActivity : option Z;
  info_connectedAt : Z;
  info_uptime : Z;
  info_idleTime : option Z
}.

Definition getConnectionsInfo (now : Z) (w : World)
    : list ConnectionInfo * Z * Z * Z :=
  let connections :=
    List.map
      (fun s =>
         {| info_ref := ref s; info_readyState := readyState s;
            info_params := params s; info_lastActivity := lastActivity s;
            info_connectedAt := connectedAt s; info_uptime := now - connectedAt s;
            info_idleTime :=
              match lastActivity s with
              | Some t => if t =? 0 then None else Some (now - t)
              | None => None
              end |})
      (socket_values w) in
  (connections, Z.of_nat (List.length connections),
   JsMap.size (pendingKeys w), Z.of_nat (size (rateLimitMap w))).

(** [toJSON], without the [path] that the caller holds; [json_timeout] is
    [None] for ['none']. *)
Record ControllerJSON := {
  json_connectionCount : Z;
  json_pendingKeysCount : Z;
  json_rateLimitEntries : Z;
  json_timeout : option Z;
  json_uptime : Z
}.

Definition toJSON (now : Z) (w : World) : ControllerJSON :=
  {| json_connectionCount := Z.of_nat (List.length (sockets w));
     json_pendingKeysCount := JsMap.size (pendingKeys w);
     json_rateLimitEntries := Z.of_nat (size (rateLimitMap w));
     json_timeout :=
       if truthy_number (timeout (config w)) then timeout (config w) else None;
     json_uptime :=
       now - or_number (connectedAt <$> head (socket_values w)) now |}.

(** ** The operations of a controller, and the events of its environment *)

Inductive Operation :=
| TransportConnection (ws : string) (now : Z)
| TransportReadyState (ws : string) (s : ReadyState)
| OnClose (ws : string) (code : Z) (reason : string)
| OnError (ws : string) (e : Error)
| OnActivity (ws : string) (now : Z)
| TimerFired (h : nat)
| KeySweep (now : Z)
| ForceTimeoutFired
| CallAdd (ws : string) (req : IncomingMessage) (now resumed : Z)
| CallGeneratePendingConnectionKey (entropy idEntropy : list Byte.byte) (now : Z)
| CallBroadcast (data : BufferLike) (filter : option (ReferencedWebSocket -> bool))
    (cb : bool) (throws : string -> option Error)
| CallSend (r : string) (data : BufferLike) (cb : bool)
    (throws : string -> option Error)
| CallGetConnectionsInfo (now : Z)
| CallGracefulShutdown
| CallResetTimeout (r : string) (now : Z)
| CallTerminate (r : option string)
| CallDestroy
| GetNew (path : string) (entropy idEntropy : list Byte.byte) (now : Z)
| CallToJSON (now : Z)
| ListenError.

(** A socket object as the transport hands it over after the handshake. *)
Definition fresh_socket (r : string) (now : Z) : ReferencedWebSocket :=
  {| ref := r; connectedAt := now; params := None; timeoutTimer := None;
     lastActivity := None; readyState := OPEN; closeListeners := O;
     errorListeners := O; activityListeners := O |}.

(** One operation or event. The transport creates a socket object before
    it hands it to [add] or emits events on it, so [CallAdd] on a reference
    without an object does nothing. [ForceTimeoutFired] is the loop of the
    force timer of a [gracefulShutdown]; [ListenError] is
    [controller.on('error', listener)] of the code that uses the
    controller. *)
Definition exec (op : Operation) (w : World) : World :=
  match op with
  | TransportConnection ws now =>
      match heap w !! ws with
      | None => set_heap (<[ws := fresh_socket ws now]> (heap w)) w
      | Some _ => w
      end
  | TransportReadyState ws s => update_socket ws (with_readyState s) w
  | OnClose ws code reason => on_close ws code reason w
  | OnError ws e => on_error ws e w
  | OnActivity ws now => on_activity ws now w
  | TimerFired h => timer_fired h w
  | KeySweep now => cleanupExpiredKeys now w
  | ForceTimeoutFired => terminate_open (socket_values w) w
  | CallAdd ws req now resumed =>
      match heap w !! ws with
      | Some _ => add ws req now resumed w
      | None => w
      end
  | CallGeneratePendingConnectionKey entropy idEntropy now =>
      snd (generatePendingConnectionKey entropy idEntropy now w)
  | CallBroadcast data filter cb throws =>
      snd (fst (broadcast data filter cb throws w))
  | CallSend r data cb throws => snd (fst (send r data cb throws w))
  | CallGetConnectionsInfo _ => w
  | CallGracefulShutdown => snd (gracefulShutdown w)
  | CallResetTimeout r now => snd (resetTimeout r now w)
  | CallTerminate r => fst (terminate r w)
  | CallDestroy => destroy w
  | GetNew path entropy idEntropy now => snd (new_url path entropy idEntropy now w)
  | CallToJSON _ => w
  | ListenError => set_errorHandlers (S (errorHandlers w)) w
  end.

Definition run (ops : list Operation) (w : World) : World :=
  fold_left (fun w op => exec op w) ops w.

(** The idle timers that the runtime has pending for socket [r]. *)
Definition pending_timers (r : string) (w : World) : list nat :=
  List.map fst
    (List.filter (fun e => String.eqb (snd e) r) (map_to_list (timers w))).

(** The operations through which the registry loses entries by design. *)
Definition removes_connections (op : Operation) : bool :=
  match op with
  | OnClose _ _ _ => true
  | CallTerminate r => String.eqb (or_string r "") ""
  | CallDestroy => true
  | _ => false
  end.

(** ** RouteTable: [WebSockets.continuous] and [WebSockets.raw] *)

Inductive Route :=
| RouteString (path : string)
| RouteURL (pathname : string)
| RouteRequestEvent (pathname : string).

Definition route_path (route : Route) : string :=
  match route with
  | RouteString path => path
  | RouteURL pathname => pathname
  | RouteRequestEvent pathname => pathname
  end.

Inductive GenericWebSocketEndpointController :=
| WebSocketEndpointController (path : string) (w : World)
| WebSocketRawEndpointController (path : string).

(** [{...config, disposer: () => allowed_routes.delete(path)}]. *)
Definition with_disposer (c : WebSocketEndpointConfig) : WebSocketEndpointConfig :=
  {| authHandler := authHandler c; limit := limit c;
     useConnectionKeys := useConnectionKeys c;
     pendingKeyExpiration := pendingKeyExpiration c;
     requiredParams := requiredParams c; timeout := timeout c;
     rateLimit := rateLimit c; disposer := true |}.

Definition empty_config : WebSocketEndpointConfig :=
  {| authHandler := None; limit := None; useConnectionKeys := None;
     pendingKeyExpiration := None; requiredParams := None; timeout := None;
     rateLimit := None; disposer := false |}.

(** [WebSockets.continuous(route, config?)]: the new route table and the
    controller returned, [allowed_routes.get(path)]. *)
Definition continuous (route : Route) (cfg : option WebSocketEndpointConfig)
    (allowed_routes : gmap string GenericWebSocketEndpointController)
    : gmap string GenericWebSocketEndpointController
      * option GenericWebSocketEndpointController :=
  let path := route_path route in
  let routes :=
    if bool_decide (is_Some (allowed_routes !! path)) then allowed_routes
    else
      <[path := WebSocketEndpointController path
                  (new_controller (with_disposer (default empty_config cfg)))]>
        allowed_routes in
  (routes, routes !! path).

(** [WebSockets.raw(route, handle)]. *)
Definition raw (route : Route)
    (allowed_routes : gmap string GenericWebSocketEndpointController)
    : gmap string GenericWebSocketEndpointController :=
  let path := route_path route in
  if bool_decide (is_Some (allowed_routes !! path)) then allowed_routes
  else <[path := WebSocketRawEndpointController path]> allowed_routes.

(** Successive validations of one token, at the given clock readings. *)
Fixpoint validations (providedKey : string) (times : list Z) (w : World)
    : list bool :=
  match times with
  | [] => []
  | t :: rest =>
      let '(ok, w') := validateConnectionKey providedKey t w in
      ok :: validations providedKey rest w'
  end.

(** No stored entry carries the token. *)
Definition unknown_token (token : string) (m : JsMap.t PendingKey) : Prop :=
  Forall (fun e => key (snd e) <> token) m.


(** How many calls of a series returned [true]. *)
Definition successes (results : list bool) : nat :=
  List.length (List.filter (fun ok : bool => ok) results).


(** Successive admission-time rate checks, each with its own request and
    clock reading. *)
Fixpoint rate_limit_run (requests : list (IncomingMessage * Z)) (w : World)
    : list bool * World :=
  match requests with
  | [] => ([], w)
  | (req, now) :: rest =>
      let '(ok, w1) := checkRateLimit req now w in
      let '(oks, w2) := rate_limit_run rest w1 in
      (ok :: oks, w2)
  end.

(** How many of the first [i] requests come from client [c]. *)
Definition earlier_requests (c : string) (i : nat)
    (requests : list (IncomingMessage * Z)) : Z :=
  Z.of_nat
    (List.length
       (List.filter (fun e => String.eqb (getClientId (fst e)) c) (take i requests))).


(** ** The admission algorithm as the specification words it

    A fixed list of checks walked in order, the walk stopping at the first
    check that does not pass. This is the reference that [add] is compared
    with. *)

Inductive Outcome :=
| Registered
| Rejected (c : AdmissionCheck) (param : string)
| InternalError (e : Error).

Inductive Verdict :=
| Pass
| Fail (param : string)
| Raise (e : Error).

(** The checks that the configuration enables, in their fixed order. *)
Definition later_checks (cfg : WebSocketEndpointConfig) : list AdmissionCheck :=
  (match useConnectionKeys cfg with Some true => [CheckKey] | _ => [] end)
  ++ (match requiredParams cfg with Some _ => [CheckRequiredParams] | None => [] end)
  ++ [CheckAuth].

Definition enabled_checks (cfg : WebSocketEndpointConfig) : list AdmissionCheck :=
  [CheckRateLimit; CheckCapacity] ++ later_checks cfg.

Definition check_cause (c : AdmissionCheck) : RejectionCause :=
  match c with
  | CheckRateLimit => CauseRateLimited
  | CheckCapacity => CauseTooManyConnections
  | CheckKey => CauseInvalidKey
  | CheckRequiredParams => CauseMissingParam
  | CheckAuth => CauseAuthFailed
  end.

(** What one check says about a request with query [ps], in the state in
    which the connection arrives. *)
Definition verdict (c : AdmissionCheck) (req : IncomingMessage)
    (ps : list (string * string)) (now : Z) (w : World) : Verdict :=
  match c with
  | CheckRateLimit => if fst (checkRateLimit req now w) then Pass else Fail ""
  | CheckCapacity => if at_capacity w then Fail "" else Pass
  | CheckKey =>
      if fst (validateConnectionKey (or_string (params_get "key" ps) "") now w)
      then Pass else Fail ""
  | CheckRequiredParams =>
      match first_missing (default [] (requiredParams (config w))) ps with
      | Some param => Fail param
      | None => Pass
      end
  | CheckAuth =>
      match default (fun _ => Returns true) (authHandler (config w)) req with
      | Returns true => Pass
      | Returns false => Fail ""
      | Throws e => Raise e
      end
  end.

Fixpoint walk (checks : list AdmissionCheck) (req : IncomingMessage)
    (ps : list (string * string)) (now : Z) (w : World)
    : list AdmissionCheck * Outcome :=
  match checks with
  | [] => ([], Registered)
  | c :: rest =>
      match verdict c req ps now w with
      | Pass =>
          let '(cs, o) := walk rest req ps now w in (c :: cs, o)
      | Fail param => ([c], Rejected c param)
      | Raise e => ([c], InternalError e)
      end
  end.

(** The checks evaluated, in order, and the outcome. The query is parsed
    once the first two checks have passed; a request whose URL does not
    parse ends in the internal-error path there. *)
Definition spec_admission (req : IncomingMessage) (now : Z) (w : World)
    : list AdmissionCheck * Outcome :=
  match walk [CheckRateLimit; CheckCapacity] req [] now w with
  | (cs, Registered) =>
      match searchParams req with
      | None => (cs, InternalError "Invalid URL")
      | Some ps =>
          let '(cs', o) := walk (later_checks (config w)) req ps now w in
          (cs ++ cs', o)
      end
  | r => r
  end.

(** The checks that a stretch of the log shows as evaluated, and the
    [close] calls it shows. *)
Definition evaluated (l : list Action) : list AdmissionCheck :=
  omap (fun a => match a with Evaluated c => Some c | _ => None end) l.

Definition closes (l : list Action) : list (string * Z * string) :=
  omap (fun a => match a with
                 | WsClose ws code reason => Some (ws, code, reason)
                 | _ => None
                 end) l.

Definition expected_closes (ws : string) (o : Outcome) : list (string * Z * string) :=
  match o with
  | Registered => []
  | Rejected c param =>
      [(ws, close_code (check_cause c), close_reason (check_cause c) param)]
  | InternalError _ => [(ws, close_code CauseInternalError, close_reason CauseInternalError "")]
  end.

Definition expected_sockets (ws : string) (o : Outcome) (s : list string) : list string :=
  match o with
  | Registered => sockets_set ws s
  | _ => s
  end.

(** The exceptions that a stretch of the log shows leaving the controller. *)
Definition uncaught (l : list Action) : list Error :=
  omap (fun a => match a with Uncaught e => Some e | _ => None end) l.

(** Whether the controller has a listener for its ['error'] event. *)
Definition handles_errors (w : World) : bool := negb (Nat.eqb (errorHandlers w) 0).

(** What the code does for an outcome: the [close] calls are the expected
    ones, except that an exception on a controller without an ['error']
    listener closes nothing and leaves [add] instead. *)
Definition code_closes (handled : bool) (ws : string) (o : Outcome)
    : list (string * Z * string) :=
  match o with
  | InternalError _ => if handled then expected_closes ws o else []
  | _ => expected_closes ws o
  end.

Definition code_uncaught (handled : bool) (o : Outcome) : list Error :=
  match o with
  | InternalError e => if handled then [] else [e]
  | _ => []
  end.

(** [w'] is [w] after an admission step that evaluated the checks [cs] and
    ended in outcome [o] for socket [ws]. *)
Definition ends_as (ws : string) (w w' : World) (cs : list AdmissionCheck)
    (o : Outcome) : Prop :=
  exists d, log w' = log w ++ d /\ evaluated d = cs /\
            closes d = code_closes (handles_errors w') ws o /\
            uncaught d = code_uncaught (handles_errors w') o /\
            sockets w' = expected_sockets ws o (sockets w).

(** [w'] is [w] after steps that evaluated [cs], closed nothing and left the
    registry, the configuration and the pending keys alone. *)
Definition quiet_step (w w' : World) (cs : list AdmissionCheck) : Prop :=
  (exists d, log w' = log w ++ d /\ evaluated d = cs /\ closes d = [] /\
             uncaught d = []) /\
  sockets w' = sockets w /\ config w' = config w.


(** The transport calls back, one after the other, the callbacks that one
    [broadcast] handed to it; [outs] are the errors it reports, in the order
    of the calls. *)
Fixpoint complete_all (outs : list (option Error)) (b : Broadcast) (w : World)
    : Broadcast * World :=
  match outs with
  | [] => (b, w)
  | out :: rest =>
      let '(b1, w1) := send_completed out b w in
      complete_all rest b1 w1
  end.

(** The transport [send] calls and the completion callbacks that a stretch
    of the log shows. *)
Definition sends (l : list Action) : list (string * BufferLike) :=
  omap (fun a => match a with WsSend ws data => Some (ws, data) | _ => None end) l.

Definition callbacks (l : list Action) : list (list Error) :=
  omap (fun a => match a with BroadcastCallback errs => Some errs | _ => None end) l.

(** The sockets that [broadcast] selects, and those of them that are open. *)
Definition selected_sockets (filter : option (ReferencedWebSocket -> bool))
    (w : World) : list ReferencedWebSocket :=
  match filter with
  | Some f => List.filter f (socket_values w)
  | None => socket_values w
  end.

Definition open_sockets (l : list ReferencedWebSocket) : list ReferencedWebSocket :=
  List.filter (fun s => is_open (readyState s)) l.

(** The errors among the results that the transport reports. *)
Definition reported_errors (outs : list (option Error)) : list Error :=
  omap (fun o => o) outs.


(** ** Sample inputs of the concrete runs *)

(** A configuration without connection keys. *)
Definition open_config : WebSocketEndpointConfig :=
  {| authHandler := None; limit := None; useConnectionKeys := Some false;
     pendingKeyExpiration := None; requiredParams := None; timeout := None;
     rateLimit := None; disposer := false |}.

(** The same with an idle timeout of 30 seconds. *)
Definition timed_config : WebSocketEndpointConfig :=
  {| authHandler := None; limit := None; useConnectionKeys := Some false;
     pendingKeyExpiration := None; requiredParams := None; timeout := Some 30000;
     rateLimit := None; disposer := false |}.

(** A configuration without connection keys whose [authHandler] throws. *)
Definition throwing_config : WebSocketEndpointConfig :=
  {| authHandler := Some (fun _ => Throws "handler failed"); limit := None;
     useConnectionKeys := Some false; pendingKeyExpiration := None;
     requiredParams := None; timeout := None; rateLimit := None;
     disposer := false |}.

Definition plain_request : IncomingMessage :=
  {| remoteAddress := Some "127.0.0.1"; userAgent := Some "test";
     searchParams := Some [] |}.

(** A controller with two admitted, open connections ["a"] and ["b"]. *)
Definition two_open (cfg : WebSocketEndpointConfig) : World :=
  run [TransportConnection "a" 0; TransportConnection "b" 0;
       CallAdd "a" plain_request 0 0; CallAdd "b" plain_request 0 0]
    (new_controller cfg).

(** A transport whose [send] throws synchronously, as it does for a payload
    it cannot serialise. *)
Definition throws_always (r : string) : option Error := Some "send failed".


(** The ['close'] events of the sockets [rs], in that order, as one
    [gracefulShutdown] sees them. *)
Definition closing_events (rs : list string) (g : Shutdown) : Shutdown :=
  fold_left (fun g r => shutdown_on_close r g) rs g.

(** The [terminate] calls that a stretch of the log shows. *)
Definition terminated (l : list Action) : list string :=
  omap (fun a => match a with WsTerminate ws => Some ws | _ => None end) l.

(** The snapshotted sockets that were not open when [gracefulShutdown] was
    called. *)
Definition not_open_sockets (l : list ReferencedWebSocket) : list ReferencedWebSocket :=
  List.filter (fun s => negb (is_open (readyState s))) l.

(** What the counter of a shutdown guarantees: the promise is resolved
    exactly when the counter has reached the size of the snapshot, the
    force timer is pending as long as it is not resolved, and counter plus
    remaining listeners stay [extra] above the size of the snapshot. *)
Definition shutdown_invariant (extra : Z) (g : Shutdown) : Prop :=
  (resolved g = true <-> Z.of_nat (List.length (snapshot g)) <= closedCount g) /\
  (resolved g = true \/ forceTimeout g = true) /\
  closedCount g + Z.of_nat (List.length (listening g))
  = Z.of_nat (List.length (snapshot g)) + extra.


(** ** Invariants of the reachable states *)

(** [w'] differs from [w] at most in its log, its pending keys and its
    rate-limit entries. *)
Definition same_core (w w' : World) : Prop :=
  config w' = config w /\ heap w' = heap w /\ sockets w' = sockets w /\
  timers w' = timers w /\ nextTimer w' = nextTimer w.

(** Every pending idle timer is the one its socket object remembers in
    [timeoutTimer], and every remembered handle is older than the next one
    that [setTimeout] hands out. *)
Definition timers_owned (w : World) : Prop :=
  (forall h r, timers w !! h = Some r ->
     exists s, heap w !! r = Some s /\ timeoutTimer s = Some h) /\
  (forall r s h, heap w !! r = Some s -> timeoutTimer s = Some h ->
     (h < nextTimer w)%nat).


(** ** The alphabet of the connection keys *)

(** Membership in the alphabet of base64url: letters, digits, [-] and [_],
    the characters a URL query carries unescaped. *)
Definition base64url_char (c : ascii) : bool :=
  existsb (Ascii.eqb c) (list_ascii_of_string base64url_alphabet).

(** ** What [terminate] and [destroy] do to the transport *)

(** [if (socket.timeoutTimer) clearTimeout(socket.timeoutTimer)], as the log
    shows it. *)
Definition clear_actions (s : ReferencedWebSocket) : list Action :=
  match timeoutTimer s with
  | Some h => [ClearTimeout h]
  | None => []
  end.

(** The log of the loop of [terminate()] without a reference, and of the
    loop of [destroy]. *)
Definition terminate_actions (socks : list ReferencedWebSocket) : list Action :=
  flat_map (fun s => clear_actions s ++ [WsTerminate (ref s)]) socks.

Definition destroy_actions (socks : list ReferencedWebSocket) : list Action :=
  flat_map
    (fun s => clear_actions s
              ++ (if is_open (readyState s) then [WsTerminate (ref s)] else []))
    socks.

(** The timer handles that the socket objects remember. *)
Definition held_timers (socks : list ReferencedWebSocket) : list nat :=
  omap timeoutTimer socks.

(** ** Bookkeeping of keys and rate limits *)

(** [w'] holds the pending keys and the rate-limit entries of [w]. *)
Definition same_books (w w' : World) : Prop :=
  pendingKeys w' = pendingKeys w /\ rateLimitMap w' = rateLimitMap w.

(** The handler that [add] awaits: [config.authHandler ?? (() => true)]. *)
Definition auth_of (cfg : WebSocketEndpointConfig) : IncomingMessage -> HandlerResult :=
  match authHandler cfg with
  | Some h => h
  | None => fun _ => Returns true
  end.

(** The socket object [s] as the tail of [add] leaves it: parameters stored,
    watchdog armed with timer [h] at clock reading [resumed] when [timed],
    listeners installed. *)
Definition registered_socket (ps : list (string * string)) (timed : bool)
    (h : nat) (resumed : Z) (s : ReferencedWebSocket) : ReferencedWebSocket :=
  {| ref := ref s; connectedAt := connectedAt s;
     params := Some (fromEntries ps);
     timeoutTimer := if timed then Some h else timeoutTimer s;
     lastActivity := if timed then Some resumed else lastActivity s;
     readyState := readyState s;
     closeListeners := S (closeListeners s);
     errorListeners := S (errorListeners s);
     activityListeners :=
       if timed then S (activityListeners s) else activityListeners s |}.


(** The operations that empty the maps of the controller: [terminate()]
    without a reference, and [destroy()]. *)
Definition clears_maps (op : Operation) : bool :=
  match op with
  | CallTerminate r => String.eqb (or_string r "") ""
  | CallDestroy => true
  | _ => false
  end.

(** ** Pending keys over time *)






(** ** [add] on both sides of its [await]

    [add] is an [async] method with one suspension point,
    [await this.authHandler(req)] (line 233): the checks before it and the
    call of the handler run at once, the rest runs when the promise of the
    handler has settled. [add_begin] is the first part, [add_resume] the
    second; [add] above is the two run back to back. *)

(** What a suspended [add] remembers: the socket, the parsed query, and the
    result that the handler's promise settles to. *)
Record Suspended := {
  suspended_ws : string;
  suspended_params : list (string * string);
  suspended_result : HandlerResult
}.

(** Lines 232-233 up to the [await]. *)
Definition auth_begin (ws : string) (req : IncomingMessage)
    (ps : list (string * string)) (w : World) : World * option Suspended :=
  let w0 := act (Evaluated CheckAuth) w in
  let handler :=
    match authHandler (config w) with
    | Some h => h
    | None => fun _ => Returns true
    end in
  (w0, Some {| suspended_ws := ws; suspended_params := ps;
               suspended_result := handler req |}).

(** Lines 222-230, then the handler. *)
Definition params_begin (ws : string) (req : IncomingMessage)
    (ps : list (string * string)) (w : World) : World * option Suspended :=
  match requiredParams (config w) with
  | Some required =>
      let w0 := act (Evaluated CheckRequiredParams) w in
      match first_missing required ps with
      | Some param =>
          (act (WsClose ws (WebSocketError_value MISSING_PARAM)
                  ("Missing required parameter: " +:+ param)) w0, None)
      | None => auth_begin ws req ps w0
      end
  | None => auth_begin ws req ps w
  end.

(** Lines 213-220, then the rest. *)
Definition key_begin (ws : string) (req : IncomingMessage)
    (ps : list (string * string)) (now : Z) (w : World) : World * option Suspended :=
  match useConnectionKeys (config w) with
  | Some true =>
      let w0 := act (Evaluated CheckKey) w in
      let providedKey := params_get "key" ps in
      let '(ok, w1) := validateConnectionKey (or_string providedKey "") now w0 in
      if ok then params_begin ws req ps w1
      else
        (act (WsClose ws (WebSocketError_value INVALID_KEY)
                "Invalid or expired connection key") w1, None)
  | _ => params_begin ws req ps w
  end.

(** [add] from its first line to the [await], or to its end when a check
    rejects the connection before. *)
Definition add_begin (ws : string) (req : IncomingMessage) (now : Z) (w : World)
    : World * option Suspended :=
  let w0 := act (Evaluated CheckRateLimit) w in
  let '(allowed, w1) := checkRateLimit req now w0 in
  if negb allowed then
    (act (WsClose ws (WebSocketError_value RATE_LIMITED) "Rate limit exceeded") w1, None)
  else
    let w2 := act (Evaluated CheckCapacity) w1 in
    if at_capacity w2 then
      (act (WsClose ws (WebSocketError_value TOO_MANY_CONNECTIONS)
              "Too many connections") w2, None)
    else
      match searchParams req with
      | None => (add_catch "Invalid URL" ws w2, None)
      | Some ps => key_begin ws req ps now w2
      end.

(** [add] from the [await] on, at clock reading [resumed]. *)
Definition add_resume (k : Suspended) (resumed : Z) (w : World) : World :=
  match suspended_result k with
  | Throws e => add_catch e (suspended_ws k) w
  | Returns false =>
      act (WsClose (suspended_ws k) (WebSocketError_value AUTH_FAILED)
             "Authentication failed") w
  | Returns true => add_register (suspended_ws k) (suspended_params k) resumed w
  end.

(** An [add] that nothing interrupts. *)
Definition add_at_once (ws : string) (req : IncomingMessage) (now resumed : Z)
    (w : World) : World :=
  match add_begin ws req now w with
  | (w1, Some k) => add_resume k resumed w1
  | (w1, None) => w1
  end.

(** The callbacks of [send] that a stretch of the log shows. *)
Definition send_callbacks (l : list Action) : list (option Error) :=
  omap (fun a => match a with SendCallback err => Some err | _ => None end) l.

(** The connection map refers to socket objects that exist, each of them
    once, and every socket object is known by its own [ref]. *)
Definition registry_backed (w : World) : Prop :=
  NoDup (sockets w) /\
  (forall r, r ∈ sockets w -> is_Some (heap w !! r)) /\
  (forall r s, heap w !! r = Some s -> ref s = r).

(** [w'] has the socket objects of [w], under the same references. *)
Definition same_refs (w w' : World) : Prop :=
  forall r, (ref <$> heap w' !! r) = (ref <$> heap w !! r).

(** ** RouteTable: [WebSockets.use], [WebSockets.clear], and the disposer *)

(** [{...config, limit: 1, disposer: () => allowed_routes.delete(path)}]. *)
Definition single_use (c : WebSocketEndpointConfig) : WebSocketEndpointConfig :=
  {| authHandler := authHandler c; limit := Some 1;
     useConnectionKeys := useConnectionKeys c;
     pendingKeyExpiration := pendingKeyExpiration c;
     requiredParams := requiredParams c; timeout := timeout c;
     rateLimit := rateLimit c; disposer := true |}.

(** [controller.new] on what the table holds: the getter issues a key and
    so changes the controller; a raw controller has no [new], and reading
    it gives [undefined]. *)
Definition controller_new (c : GenericWebSocketEndpointController)
    (entropy idEntropy : list Byte.byte) (now : Z)
    : GenericWebSocketEndpointController * option string :=
  match c with
  | WebSocketEndpointController path w =>
      let '(url, w') := new_url path entropy idEntropy now w in
      (WebSocketEndpointController path w', Some url)
  | WebSocketRawEndpointController _ => (c, None)
  end.

(** [WebSockets.use(route, connectionHandler, config?)]: the new route
    table, the URL returned, and whether the call created a controller, on
    which it then installs its [once('connect')] listener. *)
Definition use (route : Route) (cfg : option WebSocketEndpointConfig)
    (entropy idEntropy : list Byte.byte) (now : Z)
    (allowed_routes : gmap string GenericWebSocketEndpointController)
    : gmap string GenericWebSocketEndpointController * option string * bool :=
  let path := route_path route in
  let created := negb (bool_decide (is_Some (allowed_routes !! path))) in
  let routes :=
    if created then
      <[path := WebSocketEndpointController path
                  (new_controller (single_use (default empty_config cfg)))]>
        allowed_routes
    else allowed_routes in
  match routes !! path with
  | Some c =>
      let '(c', url) := controller_new c entropy idEntropy now in
      (<[path := c']> routes, url, created)
  | None => (routes, None, created)
  end.

(** [WebSockets.clear()], its synchronous part: the controllers it goes on
    to shut down, and the emptied table. *)
Definition clear (allowed_routes : gmap string GenericWebSocketEndpointController)
    : list GenericWebSocketEndpointController
      * gmap string GenericWebSocketEndpointController :=
  (List.map snd (map_to_list allowed_routes), ∅).

(** [controller.destroy()] on a controller of the route table, with what
    its disposer does to the table: a controller made by [continuous] or
    [use] carries [() => allowed_routes.delete(path)], a controller made by
    [raw] carries no disposer. *)
Definition destroy_controller (c : GenericWebSocketEndpointController)
    (allowed_routes : gmap string GenericWebSocketEndpointController)
    : GenericWebSocketEndpointController
      * gmap string GenericWebSocketEndpointController :=
  match c with
  | WebSocketEndpointController path w =>
      (WebSocketEndpointController path (destroy w),
       if disposer (config w) then delete path allowed_routes else allowed_routes)
  | WebSocketRawEndpointController _ => (c, allowed_routes)
  end.

(** ** The lifecycle events of a connection *)

(** How often the log shows [connect], and [disconnect], emitted for socket
    [ws]. *)
Definition connects (ws : string) (l : list Action) : nat :=
  List.length
    (List.filter
       (fun a => match a with
                 | Emit (EvConnect r) => String.eqb r ws
                 | _ => false
                 end) l).

Definition disconnects (ws : string) (l : list Action) : nat :=
  List.length
    (List.filter
       (fun a => match a with
                 | Emit (EvDisconnect r _ _) => String.eqb r ws
                 | _ => false
                 end) l).

(** The [once('close')] listeners of [add] that socket [ws] carries. *)
Definition close_listeners_of (ws : string) (w : World) : nat :=
  match heap w !! ws with
  | Some s => closeListeners s
  | None => O
  end.

(** An action other than the two lifecycle events. *)
Definition not_lifecycle (a : Action) : bool :=
  match a with
  | Emit (EvConnect _) | Emit (EvDisconnect _ _ _) => false
  | _ => true
  end.

(** [w'] shows the lifecycle events of [w], its sockets carry the close
    listeners they carried, and its connection map has gained nothing. *)
Definition lifecycle_quiet (w w' : World) : Prop :=
  (forall ws, connects ws (log w') = connects ws (log w)) /\
  (forall ws, disconnects ws (log w') = disconnects ws (log w)) /\
  (forall ws, close_listeners_of ws w' = close_listeners_of ws w) /\
  (forall r, r ∈ sockets w' -> r ∈ sockets w).

(** Every [connect] of a socket is matched by a [disconnect] or by a close
    listener still waiting on the socket, and every registered connection
    carries such a listener. *)
Definition lifecycle_balanced (w : World) : Prop :=
  (forall ws, connects ws (log w)
              = (disconnects ws (log w) + close_listeners_of ws w)%nat) /\
  (forall ws, ws ∈ sockets w -> (1 <= close_listeners_of ws w)%nat).

(** * Properties *)

(** ** Encodings on known inputs *)

Example base64url_foo :
  base64url [Byte.x66; Byte.x6f; Byte.x6f] = "Zm9v" /\
  base64url [Byte.x66; Byte.x6f] = "Zm8" /\
  base64url [Byte.x66] = "Zg" /\
  base64url [Byte.xfb; Byte.xff] = "-_8".
Proof. repeat split. Qed.

Example hex_dead : hex [Byte.xde; Byte.xad; Byte.x00] = "dead00".
Proof. reflexivity. Qed.

Example pending_id_sample :
  pending_id 1700000000000 [Byte.x0a; Byte.xff] = "pending_1700000000000_0aff".
Proof. vm_compute. reflexivity. Qed.

Example getClientId_defaults :
  getClientId {| remoteAddress := Some ""; userAgent := None; searchParams := None |}
  = "unknown:unknown".
Proof. reflexivity. Qed.

(** ** Close codes *)

(** C1 (as stated, refuted): two different rejection causes, an invalid key
    and a missing parameter, are closed with the same numeric code 1008, so
    the seven codes are not pairwise distinct. *)
Lemma close_codes_not_pairwise_distinct :
  ~ (forall c1 c2 : RejectionCause, c1 <> c2 -> close_code c1 <> close_code c2).
Proof.
  intros H. apply (H CauseInvalidKey CauseMissingParam); [discriminate | reflexivity].
Qed.

(** C1 (amended): the seven causes use four numeric codes; two causes are
    closed with the same code exactly when they belong to the same group
    (1013: too many connections, rate limited; 1008: invalid key, missing
    parameter, authentication failure; 1001: timeout; 1011: internal error),
    and two different causes never send the same reason text, so code and
    reason together tell every cause apart. *)
Theorem close_codes_grouped :
  (forall c1 c2 : RejectionCause,
      close_code c1 = close_code c2 <-> code_class c1 = code_class c2) /\
  (forall c1 c2 : RejectionCause, forall p1 p2 : string,
      c1 <> c2 -> close_reason c1 p1 <> close_reason c2 p2) /\
  close_code CauseTooManyConnections = 1013 /\
  close_code CauseRateLimited = 1013 /\
  close_code CauseInvalidKey = 1008 /\
  close_code CauseMissingParam = 1008 /\
  close_code CauseAuthFailed = 1008 /\
  close_code CauseTimeout = 1001 /\
  close_code CauseInternalError = 1011.
Proof.
  split; [| split; [| repeat split]].
  - intros c1 c2; destruct c1, c2; simpl; split; intros H;
      first [reflexivity | discriminate H].
  - intros c1 c2 p1 p2 Hne; destruct c1, c2; simpl;
      first [congruence | discriminate].
Qed.

Lemma close_codes_grouped_witness :
  close_code CauseInvalidKey = close_code CauseAuthFailed /\
  close_code CauseInvalidKey <> close_code CauseRateLimited /\
  close_reason CauseInvalidKey "" <> close_reason CauseAuthFailed "".
Proof.
  destruct close_codes_grouped as (Hclass & Hreason & _).
  split; [by apply Hclass|]. split.
  - intros H. apply Hclass in H. discriminate H.
  - apply Hreason. discriminate.
Defined.

(** The two causes that [add] does not check for are closed with the codes
    of their causes too: the idle timer, when it fires on an open socket,
    and the [catch] block, when the controller has an ['error'] listener;
    without one the [catch] block closes nothing. *)
Lemma timeout_and_internal_error_codes (h : nat) (r ws : string) (e : Error)
    (w : World) :
  timers w !! h = Some r -> open_in w r = true ->
  log (timer_fired h w)
  = log w ++ [WsClose r (close_code CauseTimeout) (close_reason CauseTimeout "")] /\
  log (add_catch e ws w)
  = log w ++ [Emit (EvError e (Some ws));
              if Nat.eqb (errorHandlers w) 0 then Uncaught e
              else WsClose ws (close_code CauseInternalError)
                     (close_reason CauseInternalError "")].
Proof.
  intros Hp Hopen. split.
  - unfold timer_fired. rewrite Hp.
    change (open_in (set_timers (delete h (timers w)) (nextTimer w) w) r)
      with (open_in w r).
    rewrite Hopen. reflexivity.
  - unfold add_catch. destruct (Nat.eqb (errorHandlers w) 0); simpl;
      by rewrite <- app_assoc.
Qed.

(** ** Pending keys *)

Section PendingKeys.

Lemma base64url_nonempty (bs : list Byte.byte) :
  bs <> [] -> base64url bs <> "".
Proof.
  destruct bs as [|a [|b [|c rest]]]; simpl; intros H; [congruence | | |]; discriminate.
Qed.

Lemma generateConnectionKey_nonempty (entropy : list Byte.byte) :
  List.length entropy = 32%nat -> String.eqb (generateConnectionKey entropy) "" = false.
Proof.
  intros Hlen. apply String.eqb_neq. apply base64url_nonempty.
  intros ->. discriminate Hlen.
Qed.

Lemma find_pending_unknown (token : string) (t : Z) (m : JsMap.t PendingKey) :
  unknown_token token m -> find_pending token t m = None.
Proof.
  induction 1 as [|[id pk] m Hne _ IH]; simpl; [reflexivity|].
  simpl in Hne. apply String.eqb_neq in Hne. rewrite Hne. simpl. exact IH.
Qed.

Lemma find_pending_set (token : string) (t : Z) (id : string) (e : PendingKey)
    (m : JsMap.t PendingKey) :
  unknown_token token m -> key e = token ->
  find_pending token t (JsMap.set id e m)
  = if t <=? expiresAt e then Some id else None.
Proof.
  intros Hm He. induction Hm as [|[id' pk] m Hne Hm IH]; simpl.
  - rewrite He, String.eqb_refl. simpl. reflexivity.
  - simpl in Hne. apply String.eqb_neq in Hne.
    destruct (String.eqb id' id) eqn:Hid; simpl.
    + rewrite He, String.eqb_refl. simpl.
      destruct (t <=? expiresAt e); [reflexivity|].
      apply find_pending_unknown. exact Hm.
    + rewrite Hne. simpl. exact IH.
Qed.

Lemma unknown_token_delete (token id : string) (m : JsMap.t PendingKey) :
  unknown_token token m -> unknown_token token (JsMap.delete id m).
Proof.
  unfold unknown_token, JsMap.delete. intros H.
  induction H as [|e m He _ IH]; simpl; [constructor|].
  destruct (negb (String.eqb (fst e) id)); [constructor; assumption | assumption].
Qed.

Lemma unknown_token_delete_set (token id : string) (e : PendingKey)
    (m : JsMap.t PendingKey) :
  unknown_token token m -> unknown_token token (JsMap.delete id (JsMap.set id e m)).
Proof.
  unfold unknown_token, JsMap.delete. intros H.
  induction H as [|[id' pk] m He Hm IH]; simpl.
  - rewrite String.eqb_refl. simpl. constructor.
  - destruct (String.eqb id' id) eqn:Hid; simpl.
    + rewrite String.eqb_refl. simpl.
      apply (unknown_token_delete token id m). exact Hm.
    + rewrite Hid. simpl. constructor; [exact He | exact IH].
Qed.

Lemma get_delete_same {V : Type} (id : string) (m : JsMap.t V) :
  JsMap.get id (JsMap.delete id m) = None.
Proof.
  unfold JsMap.delete. induction m as [|[id' v] m IH]; simpl; [reflexivity|].
  destruct (String.eqb id' id) eqn:Hid; simpl; [exact IH|].
  rewrite Hid. exact IH.
Qed.

Lemma validate_unknown (token : string) (t : Z) (w : World) :
  unknown_token token (pendingKeys w) ->
  validateConnectionKey token t w = (false, w).
Proof.
  intros H. unfold validateConnectionKey.
  destruct (String.eqb token ""); [reflexivity|].
  rewrite (find_pending_unknown _ _ _ H). reflexivity.
Qed.

Lemma validations_unknown (token : string) (ts : list Z) (w : World) :
  unknown_token token (pendingKeys w) ->
  successes (validations token ts w) = O.
Proof.
  intros H. unfold successes. induction ts as [|t ts IH]; simpl; [reflexivity|].
  rewrite (validate_unknown _ _ _ H). simpl. exact IH.
Qed.

(** One validation either fails and changes nothing, or succeeds and leaves
    no entry for the token, when the token is stored once. *)
Lemma validate_issued (token : string) (t : Z) (id : string) (e : PendingKey)
    (w : World) :
  unknown_token token (pendingKeys w) -> key e = token ->
  String.eqb token "" = false ->
  let w1 := set_pendingKeys (JsMap.set id e (pendingKeys w)) w in
  validateConnectionKey token t w1
  = if t <=? expiresAt e
    then (true, set_pendingKeys (JsMap.delete id (pendingKeys w1)) w1)
    else (false, w1).
Proof.
  intros Hm He Hne w1. unfold validateConnectionKey. rewrite Hne.
  unfold w1 at 1. simpl pendingKeys at 1.
  rewrite (find_pending_set token t id e _ Hm He).
  destruct (t <=? expiresAt e); reflexivity.
Qed.

End PendingKeys.

(** Right after the issue. A key issued by [generatePendingConnectionKey]
    (32 random bytes, whose token no stored entry already carries) that is
    validated before anything else happens: a validation no later than the
    expiry returns [true] and deletes the stored entry; every validation of
    the token after that returns [false]; a validation after the expiry
    returns [false] and leaves the controller, its pending-key map included,
    as it was; and whatever the clock readings of a series of validations,
    at most one of them succeeds. *)
Lemma pending_key_validates_at_most_once
    (w : World) (entropy idEntropy : list Byte.byte) (issued : Z) :
  List.length entropy = 32%nat ->
  unknown_token (generateConnectionKey entropy) (pendingKeys w) ->
  let token := fst (generatePendingConnectionKey entropy idEntropy issued w) in
  let w1 := snd (generatePendingConnectionKey entropy idEntropy issued w) in
  let entry := pending_id issued idEntropy in
  let expires := issued + or_number (pendingKeyExpiration (config w)) 120000 in
  JsMap.get entry (pendingKeys w1)
  = Some {| key := token; createdAt := issued; expiresAt := expires |} /\
  (forall t, t <= expires ->
     let w2 := set_pendingKeys (JsMap.delete entry (pendingKeys w1)) w1 in
     validateConnectionKey token t w1 = (true, w2) /\
     JsMap.get entry (pendingKeys w2) = None /\
     unknown_token token (pendingKeys w2) /\
     forall t', validateConnectionKey token t' w2 = (false, w2)) /\
  (forall t, expires < t -> validateConnectionKey token t w1 = (false, w1)) /\
  (forall ts, (successes (validations token ts w1) <= 1)%nat).
Proof.
  intros Hlen Hfresh token w1 entry expires.
  pose proof (generateConnectionKey_nonempty entropy Hlen) as Hne.
  set (e := {| key := generateConnectionKey entropy; createdAt := issued;
               expiresAt := expiry_of (config w) issued |}).
  assert (Hval : forall t, validateConnectionKey token t w1
            = if t <=? expires
              then (true, set_pendingKeys (JsMap.delete entry (pendingKeys w1)) w1)
              else (false, w1)).
  { intros t. exact (validate_issued token t entry e w Hfresh eq_refl Hne). }
  assert (Hgone : unknown_token token
            (pendingKeys (set_pendingKeys (JsMap.delete entry (pendingKeys w1)) w1))).
  { simpl. apply unknown_token_delete_set. exact Hfresh. }
  split; [|split; [|split]].
  - subst w1 entry. simpl. clear. induction (pendingKeys w) as [|[k v] m IH]; simpl.
    + rewrite String.eqb_refl. reflexivity.
    + destruct (String.eqb k (pending_id issued idEntropy)) eqn:Hk; simpl.
      * rewrite String.eqb_refl. reflexivity.
      * rewrite Hk. exact IH.
  - intros t Ht w2. rewrite Hval.
    assert ((t <=? expires) = true) as -> by (apply Z.leb_le; exact Ht).
    split; [reflexivity|]. split; [|split].
    + simpl. apply get_delete_same.
    + exact Hgone.
    + intros t'. apply validate_unknown. exact Hgone.
  - intros t Ht. rewrite Hval.
    assert ((t <=? expires) = false) as -> by (apply Z.leb_gt; exact Ht).
    reflexivity.
  - intros ts. induction ts as [|t ts IH]; unfold successes in *; [simpl; lia|].
    change (validations token (t :: ts) w1)
      with (let '(ok, w') := validateConnectionKey token t w1 in
            ok :: validations token ts w').
    rewrite Hval. destruct (t <=? expires); cbn [List.filter List.length].
    + pose proof (validations_unknown token ts _ Hgone) as H0.
      unfold successes in H0. rewrite H0. lia.
    + exact IH.
Qed.

Lemma pending_key_validates_at_most_once_witness :
  let w := new_controller empty_config in
  let entropy := List.repeat Byte.x2a 32 in
  let token := fst (generatePendingConnectionKey entropy [] 1000 w) in
  let w1 := snd (generatePendingConnectionKey entropy [] 1000 w) in
  fst (validateConnectionKey token 121000 w1) = true /\
  validateConnectionKey token 121001 w1 = (false, w1) /\
  (successes (validations token [121001; 5000; 5001; 6000]%Z w1) <= 1)%nat.
Proof.
  intros w entropy token w1.
  destruct (pending_key_validates_at_most_once w entropy [] 1000 eq_refl
              (List.Forall_nil _)) as (_ & Hfirst & Hlate & Honce).
  split; [|split].
  - destruct (Hfirst 121000) as (Hok & _); [simpl; lia|].
    fold token w1 in Hok. rewrite Hok. reflexivity.
  - apply Hlate. simpl. lia.
  - apply Honce.
Defined.

(** ** Rate limiting *)

Section RateLimiting.

Variable rl : RateLimit.t.

Lemma checkRateLimit_config (req : IncomingMessage) (t : Z) (w : World) :
  config (snd (checkRateLimit req t w)) = config w.
Proof.
  unfold checkRateLimit. destruct (rateLimit (config w)) as [r|]; [|reflexivity].
  destruct (rateLimitMap w !! getClientId req) as [lim|]; [|reflexivity].
  destruct (t >? resetTime lim); [reflexivity|].
  destruct (count lim >=? RateLimit.max r); reflexivity.
Qed.

Lemma checkRateLimit_other (req : IncomingMessage) (t : Z) (w : World) (c : string) :
  getClientId req <> c ->
  rateLimitMap (snd (checkRateLimit req t w)) !! c = rateLimitMap w !! c.
Proof.
  intros Hne. unfold checkRateLimit. destruct (rateLimit (config w)) as [r|]; [|reflexivity].
  destruct (rateLimitMap w !! getClientId req) as [lim|]; simpl.
  - destruct (t >? resetTime lim); simpl; [by rewrite lookup_insert_ne|].
    destruct (count lim >=? RateLimit.max r); simpl; [reflexivity|].
    by rewrite lookup_insert_ne.
  - by rewrite lookup_insert_ne.
Qed.

Lemma checkRateLimit_fresh (req : IncomingMessage) (t : Z) (w : World) :
  rateLimit (config w) = Some rl ->
  (forall e, rateLimitMap w !! getClientId req = Some e -> resetTime e < t) ->
  checkRateLimit req t w
  = (true,
     set_rateLimitMap
       (<[getClientId req := {| count := 1; resetTime := t + RateLimit.window rl |}]>
          (rateLimitMap w)) w).
Proof.
  intros Hrl Hold. unfold checkRateLimit. rewrite Hrl.
  destruct (rateLimitMap w !! getClientId req) as [lim|]; [|reflexivity].
  specialize (Hold lim eq_refl).
  assert ((t >? resetTime lim) = true) as -> by lia. reflexivity.
Qed.

Lemma checkRateLimit_live (req : IncomingMessage) (t : Z) (w : World)
    (e : RateLimitEntry) :
  rateLimit (config w) = Some rl ->
  rateLimitMap w !! getClientId req = Some e ->
  t <= resetTime e ->
  checkRateLimit req t w
  = if count e >=? RateLimit.max rl
    then (false, act (Emit (EvRateLimit req)) w)
    else (true,
          set_rateLimitMap
            (<[getClientId req := {| count := count e + 1; resetTime := resetTime e |}]>
               (rateLimitMap w)) w).
Proof.
  intros Hrl He Ht. unfold checkRateLimit. rewrite Hrl, He.
  assert ((t >? resetTime e) = false) as -> by lia. reflexivity.
Qed.

(** Inside a live window of client [c] whose counter stands at [cnt]: the
    request that follows [k] further requests of [c] is allowed exactly when
    [cnt + k] is still below the maximum, and the window is still the same
    one after the run. *)
Lemma rate_limit_run_live (c : string) (rest : list (IncomingMessage * Z)) :
  forall (w : World) (cnt rt : Z),
    rateLimit (config w) = Some rl ->
    rateLimitMap w !! c = Some {| count := cnt; resetTime := rt |} ->
    (forall req t, (req, t) ∈ rest -> getClientId req = c -> t <= rt) ->
    (forall i req t, rest !! i = Some (req, t) -> getClientId req = c ->
       fst (rate_limit_run rest w) !! i
       = Some (cnt + earlier_requests c i rest <? RateLimit.max rl)) /\
    rateLimit (config (snd (rate_limit_run rest w))) = Some rl /\
    exists cnt', rateLimitMap (snd (rate_limit_run rest w)) !! c
                 = Some {| count := cnt'; resetTime := rt |}.
Proof.
  induction rest as [|[req0 t0] rest IH]; intros w cnt rt Hrl He Hin.
  - split; [intros i req t Hi; discriminate Hi|]. simpl. eauto.
  - simpl.
    destruct (checkRateLimit req0 t0 w) as [ok w1] eqn:Hstep.
    destruct (rate_limit_run rest w1) as [oks w2] eqn:Hrun.
    assert (Hrl1 : rateLimit (config w1) = Some rl).
    { pose proof (checkRateLimit_config req0 t0 w) as Hc.
      rewrite Hstep in Hc. simpl in Hc. rewrite Hc. exact Hrl. }
    assert (Hin' : forall req t, (req, t) ∈ rest -> getClientId req = c -> t <= rt).
    { intros req t Hmem. apply Hin. by apply list_elem_of_further. }
    destruct (decide (getClientId req0 = c)) as [Hc|Hc].
    + assert (Ht0 : t0 <= rt) by (apply (Hin req0 t0); [apply list_elem_of_here | exact Hc]).
      rewrite <- Hc in He.
      rewrite (checkRateLimit_live req0 t0 w _ Hrl He Ht0) in Hstep. simpl in Hstep.
      assert (Hnext : exists cnt1,
                 rateLimitMap w1 !! c = Some {| count := cnt1; resetTime := rt |} /\
                 ok = (cnt <? RateLimit.max rl) /\
                 forall k, 0 <= k ->
                   (cnt1 + k <? RateLimit.max rl) = (cnt + (k + 1) <? RateLimit.max rl)).
      { destruct (cnt >=? RateLimit.max rl) eqn:Hge; inversion Hstep; subst ok w1.
        - exists cnt. rewrite <- Hc. split; [exact He|]. split; [lia|].
          intros k Hk. lia.
        - exists (cnt + 1). rewrite <- Hc. simpl. rewrite lookup_insert_eq.
          split; [reflexivity|]. split; [lia|]. intros k Hk. lia. }
      destruct Hnext as (cnt1 & He1 & Hok & Hshift).
      destruct (IH w1 cnt1 rt Hrl1 He1 Hin') as (Hres & Hrl2 & Hfin).
      rewrite Hrun in Hres, Hrl2, Hfin. simpl in Hres, Hrl2, Hfin.
      split; [|split; assumption].
      intros [|i] req t Hi Hreq; simpl.
      * unfold earlier_requests. simpl. rewrite Hok. f_equal. f_equal. lia.
      * simpl in Hi. rewrite (Hres i req t Hi Hreq). f_equal.
        unfold earlier_requests in *. simpl.
        assert ((getClientId req0 =? c)%string = true) as -> by (by apply String.eqb_eq).
        simpl. rewrite Hshift by lia. f_equal. lia.
    + assert (He1 : rateLimitMap w1 !! c = Some {| count := cnt; resetTime := rt |}).
      { pose proof (checkRateLimit_other req0 t0 w c Hc) as Ho.
        rewrite Hstep in Ho. simpl in Ho. rewrite Ho. exact He. }
      destruct (IH w1 cnt rt Hrl1 He1 Hin') as (Hres & Hrl2 & Hfin).
      rewrite Hrun in Hres, Hrl2, Hfin. simpl in Hres, Hrl2, Hfin.
      split; [|split; assumption].
      intros [|i] req t Hi Hreq; simpl.
      * simpl in Hi. inversion Hi; subst. contradiction.
      * simpl in Hi. rewrite (Hres i req t Hi Hreq). f_equal.
        unfold earlier_requests. simpl.
        assert ((getClientId req0 =? c)%string = false) as -> by (by apply String.eqb_neq).
        reflexivity.
Qed.

End RateLimiting.

(** C5: under a configured rate limit [{max, window}], for every client
    identity: a request that finds no stored entry, or an entry whose window
    has elapsed, stores a fresh entry with count 1 and is allowed; of the
    requests that follow inside that window (whatever other clients do in
    between) the n-th of the window is allowed exactly when [n <= max]; a
    denied request emits the rate-limit event and changes nothing else; and
    a request after the window has elapsed is allowed and resets the counter
    to 1, however many requests were denied before. *)
Theorem rate_limit_window
    (w : World) (rl : RateLimit.t) (req1 : IncomingMessage) (t1 : Z)
    (rest : list (IncomingMessage * Z)) :
  rateLimit (config w) = Some rl ->
  (forall e, rateLimitMap w !! getClientId req1 = Some e -> resetTime e < t1) ->
  (forall req t, (req, t) ∈ rest -> getClientId req = getClientId req1 ->
     t <= t1 + RateLimit.window rl) ->
  let c := getClientId req1 in
  let results := fst (rate_limit_run ((req1, t1) :: rest) w) in
  let w' := snd (rate_limit_run ((req1, t1) :: rest) w) in
  checkRateLimit req1 t1 w
  = (true,
     set_rateLimitMap
       (<[c := {| count := 1; resetTime := t1 + RateLimit.window rl |}]>
          (rateLimitMap w)) w) /\
  results !! O = Some true /\
  (forall i req t, rest !! i = Some (req, t) -> getClientId req = c ->
     results !! S i = Some (earlier_requests c i rest + 2 <=? RateLimit.max rl)) /\
  (forall w0 req t, rateLimit (config w0) = Some rl ->
     (fst (checkRateLimit req t w0) = false ->
      snd (checkRateLimit req t w0) = act (Emit (EvRateLimit req)) w0) /\
     (fst (checkRateLimit req t w0) = true ->
      log (snd (checkRateLimit req t w0)) = log w0)) /\
  (forall req t, getClientId req = c -> t1 + RateLimit.window rl < t ->
     checkRateLimit req t w'
     = (true,
        set_rateLimitMap
          (<[c := {| count := 1; resetTime := t + RateLimit.window rl |}]>
             (rateLimitMap w')) w')).
Proof.
  intros Hrl Hold Hin c results w'. subst c.
  pose proof (checkRateLimit_fresh rl req1 t1 w Hrl Hold) as Hfirst.
  set (w1 := set_rateLimitMap
               (<[getClientId req1 :=
                    {| count := 1; resetTime := t1 + RateLimit.window rl |}]>
                  (rateLimitMap w)) w) in *.
  assert (He1 : rateLimitMap w1 !! getClientId req1
                = Some {| count := 1; resetTime := t1 + RateLimit.window rl |}).
  { unfold w1. simpl. apply lookup_insert_eq. }
  assert (Hrun : rate_limit_run ((req1, t1) :: rest) w
                 = (true :: fst (rate_limit_run rest w1), snd (rate_limit_run rest w1))).
  { simpl. rewrite Hfirst. destruct (rate_limit_run rest w1). reflexivity. }
  destruct (rate_limit_run_live rl (getClientId req1) rest w1 1
              (t1 + RateLimit.window rl) Hrl He1 Hin)
    as (Hres & Hrl' & cnt' & Hfin).
  subst results w'. rewrite Hrun. simpl.
  split; [exact Hfirst|]. split; [reflexivity|]. split; [|split].
  - intros i req t Hi Hreq. rewrite (Hres i req t Hi Hreq). f_equal. lia.
  - intros w0 req t Hrl0. unfold checkRateLimit. rewrite Hrl0.
    destruct (rateLimitMap w0 !! getClientId req) as [lim|]; simpl;
      [|split; [discriminate | reflexivity]].
    destruct (t >? resetTime lim); simpl; [split; [discriminate | reflexivity]|].
    destruct (count lim >=? RateLimit.max rl); simpl;
      split; first [discriminate | reflexivity].
  - intros req t Hreq Ht. rewrite <- Hreq.
    apply (checkRateLimit_fresh rl req t _ Hrl').
    rewrite Hreq, Hfin. intros e He. inversion He; subst e. simpl. lia.
Qed.

Lemma rate_limit_window_witness :
  let w := new_controller
             {| authHandler := None; limit := None; useConnectionKeys := None;
                pendingKeyExpiration := None; requiredParams := None;
                timeout := None;
                rateLimit := Some {| RateLimit.max := 3; RateLimit.window := 1000 |};
                disposer := false |} in
  let req := {| remoteAddress := Some "10.0.0.7"; userAgent := Some "probe";
                searchParams := Some [] |} in
  let run := rate_limit_run [(req, 0); (req, 10); (req, 20); (req, 30)] w in
  fst run !! 1%nat = Some true /\
  fst run !! 2%nat = Some true /\
  fst run !! 3%nat = Some false /\
  fst (checkRateLimit req 1001 (snd run)) = true.
Proof.
  intros w req run.
  assert (Hin : forall r t, (r, t) ∈ [(req, 10); (req, 20); (req, 30)] ->
                  getClientId r = getClientId req -> t <= 0 + 1000).
  { intros r t Hmem _.
    repeat (apply elem_of_cons in Hmem as [Heq|Hmem]; [inversion Heq; lia|]).
    by apply elem_of_nil in Hmem. }
  assert (Hold : forall e, rateLimitMap w !! getClientId req = Some e ->
                   resetTime e < 0).
  { intros e He. unfold w in He. simpl in He. rewrite lookup_empty in He.
    discriminate He. }
  destruct (rate_limit_window w {| RateLimit.max := 3; RateLimit.window := 1000 |}
              req 0 [(req, 10); (req, 20); (req, 30)] eq_refl
              Hold Hin) as (_ & _ & Hnth & _ & Hafter).
  fold run in Hnth, Hafter.
  split; [exact (Hnth 0%nat req 10 eq_refl eq_refl)|].
  split; [exact (Hnth 1%nat req 20 eq_refl eq_refl)|].
  split; [exact (Hnth 2%nat req 30 eq_refl eq_refl)|].
  rewrite (Hafter req 1001 eq_refl); [reflexivity | simpl; lia].
Defined.

(** ** Admission *)

Section Admission.

Lemma first_missing_spec (required : list string) (ps : list (string * string))
    (param : string) :
  first_missing required ps = Some param ->
  exists before after,
    required = before ++ param :: after /\
    params_has param ps = false /\
    Forall (fun q => params_has q ps = true) before.
Proof.
  induction required as [|q required IH]; simpl; [discriminate|].
  destruct (params_has q ps) eqn:Hq.
  - intros H. destruct (IH H) as (before & after & -> & Hno & Hall).
    exists (q :: before), after. split; [reflexivity|]. split; [exact Hno|].
    constructor; assumption.
  - intros [= <-]. exists [], required. split; [reflexivity|].
    split; [exact Hq | constructor].
Qed.

Lemma walk_prefix (cs : list AdmissionCheck) req ps now w :
  fst (walk cs req ps now w) `prefix_of` cs.
Proof.
  induction cs as [|c cs IH]; simpl; [reflexivity|].
  destruct (verdict c req ps now w).
  - destruct (walk cs req ps now w) as [cs' o]. simpl in *.
    by apply prefix_cons.
  - simpl. apply prefix_cons, prefix_nil.
  - simpl. apply prefix_cons, prefix_nil.
Qed.

Lemma walk_registered (cs : list AdmissionCheck) req ps now w :
  snd (walk cs req ps now w) = Registered -> fst (walk cs req ps now w) = cs.
Proof.
  induction cs as [|c cs IH]; simpl; [reflexivity|].
  destruct (verdict c req ps now w); simpl; try discriminate.
  destruct (walk cs req ps now w) as [cs' o]. simpl in *.
  intros H. by rewrite IH.
Qed.

Lemma walk_rejected (cs : list AdmissionCheck) req ps now w c param :
  snd (walk cs req ps now w) = Rejected c param ->
  exists before,
    fst (walk cs req ps now w) = before ++ [c] /\
    (forall b, b ∈ before -> verdict b req ps now w = Pass) /\
    verdict c req ps now w = Fail param.
Proof.
  induction cs as [|c0 cs IH]; simpl; [discriminate|].
  destruct (verdict c0 req ps now w) eqn:Hv; simpl.
  - destruct (walk cs req ps now w) as [cs' o]. simpl in *.
    intros H. destruct (IH H) as (before & -> & Hall & Hfail).
    exists (c0 :: before). split; [reflexivity|]. split; [|exact Hfail].
    intros b Hb. apply elem_of_cons in Hb as [->|Hb]; [exact Hv | by apply Hall].
  - intros [= <- <-]. exists []. split; [reflexivity|]. split; [|exact Hv].
    intros b Hb. by apply elem_of_nil in Hb.
  - discriminate.
Qed.

Lemma quiet_then_ends ws w w1 w' cs1 cs2 o :
  quiet_step w w1 cs1 -> ends_as ws w1 w' cs2 o ->
  ends_as ws w w' (cs1 ++ cs2) o.
Proof.
  intros [(d1 & Hl1 & He1 & Hc1 & Hu1) [Hs1 _]] (d2 & Hl2 & He2 & Hc2 & Hu2 & Hs2).
  exists (d1 ++ d2). unfold evaluated, closes, uncaught in *.
  rewrite Hl2, Hl1, <- app_assoc, !omap_app, He1, He2, Hc1, Hc2, Hu1, Hu2, Hs2, Hs1.
  repeat split; reflexivity.
Qed.

Lemma quiet_act_evaluated (c : AdmissionCheck) (w : World) :
  quiet_step w (act (Evaluated c) w) [c].
Proof.
  split; [|split; reflexivity]. exists [Evaluated c]. repeat split; reflexivity.
Qed.

Lemma quiet_trans w w1 w2 cs1 cs2 :
  quiet_step w w1 cs1 -> quiet_step w1 w2 cs2 -> quiet_step w w2 (cs1 ++ cs2).
Proof.
  intros [(d1 & Hl1 & He1 & Hc1 & Hu1) [Hs1 Hg1]]
         [(d2 & Hl2 & He2 & Hc2 & Hu2) [Hs2 Hg2]].
  split; [|split; congruence].
  exists (d1 ++ d2). unfold evaluated, closes, uncaught in *.
  rewrite Hl2, Hl1, <- app_assoc, !omap_app, He1, He2, Hc1, Hc2, Hu1, Hu2.
  repeat split; reflexivity.
Qed.

Lemma quiet_setupSocketTimeout (r : string) (now : Z) (w : World) :
  quiet_step w (setupSocketTimeout r now w) [].
Proof.
  unfold setupSocketTimeout.
  destruct (truthy_number (timeout (config w)));
    [|split; [exists []; rewrite app_nil_r; repeat split; reflexivity | split; reflexivity]].
  unfold clear_timer_of.
  destruct (heap w !! r) as [s|]; [destruct (timeoutTimer s) as [h|]|]; simpl.
  - split; [|split; reflexivity].
    eexists [ClearTimeout h; SetTimeout _ _]. simpl.
    rewrite <- app_assoc. repeat split; reflexivity.
  - split; [|split; reflexivity]. eexists [SetTimeout _ _]. repeat split; reflexivity.
  - split; [|split; reflexivity]. eexists [SetTimeout _ _]. repeat split; reflexivity.
Qed.

Lemma add_register_ends (ws : string) (ps : list (string * string))
    (resumed : Z) (w : World) :
  ends_as ws w (add_register ws ps resumed w) [] Registered.
Proof.
  unfold add_register.
  set (w2 := set_sockets _ _).
  assert (Hq : quiet_step w2
                 (if timeout_enabled (config w)
                  then setupSocketTimeout ws resumed w2 else w2) []).
  { destruct (timeout_enabled (config w)); [apply quiet_setupSocketTimeout|].
    split; [exists []; rewrite app_nil_r; repeat split; reflexivity | split; reflexivity]. }
  destruct Hq as [(d & Hl & He & Hc & Hu) [Hs _]].
  exists (d ++ [Emit (EvConnect ws)]). unfold evaluated, closes, uncaught in *. simpl.
  rewrite Hl, <- app_assoc, !omap_app, He, Hc, Hu, Hs. repeat split; reflexivity.
Qed.

Lemma add_catch_ends (e : Error) (ws : string) (w : World) :
  ends_as ws w (add_catch e ws w) [] (InternalError e).
Proof.
  unfold ends_as, add_catch, handles_errors.
  destruct (Nat.eqb (errorHandlers w) 0) eqn:Hno.
  - exists [Emit (EvError e (Some ws)); Uncaught e].
    simpl. rewrite Hno, <- app_assoc. repeat split; reflexivity.
  - exists [Emit (EvError e (Some ws)); WsClose ws 1011 "Internal server error"].
    simpl. rewrite Hno, <- app_assoc. repeat split; reflexivity.
Qed.

Lemma close_ends (ws : string) (c : AdmissionCheck) (param : string) (w : World) :
  ends_as ws w
    (act (WsClose ws (close_code (check_cause c)) (close_reason (check_cause c) param)) w)
    [] (Rejected c param).
Proof.
  eexists [WsClose _ _ _]. repeat split; reflexivity.
Qed.

Lemma add_auth_ends ws req ps now resumed w w0 :
  config w = config w0 ->
  ends_as ws w (add_auth ws req ps resumed w)
    (fst (walk [CheckAuth] req ps now w0)) (snd (walk [CheckAuth] req ps now w0)).
Proof.
  intros Hcfg. unfold add_auth. simpl. rewrite <- Hcfg.
  change [CheckAuth] with ([CheckAuth] ++ []).
  destruct (authHandler (config w)) as [h|]; simpl;
    [destruct (h req) as [[|]|e]; simpl|].
  - apply (quiet_then_ends ws w _ _ [CheckAuth] [] Registered
             (quiet_act_evaluated _ _)). apply add_register_ends.
  - apply (quiet_then_ends ws w _ _ [CheckAuth] [] (Rejected CheckAuth "")
             (quiet_act_evaluated _ _)). apply (close_ends ws CheckAuth "").
  - apply (quiet_then_ends ws w _ _ [CheckAuth] [] (InternalError e)
             (quiet_act_evaluated _ _)). apply add_catch_ends.
  - apply (quiet_then_ends ws w _ _ [CheckAuth] [] Registered
             (quiet_act_evaluated _ _)). apply add_register_ends.
Qed.


Lemma walk_cons_pass c cs req ps now w :
  verdict c req ps now w = Pass ->
  walk (c :: cs) req ps now w
  = (c :: fst (walk cs req ps now w), snd (walk cs req ps now w)).
Proof.
  intros H. simpl. rewrite H. destruct (walk cs req ps now w). reflexivity.
Qed.

Lemma add_params_ends ws req ps now resumed w w0 :
  config w = config w0 ->
  let cs := match requiredParams (config w0) with
            | Some _ => [CheckRequiredParams]
            | None => []
            end ++ [CheckAuth] in
  ends_as ws w (add_params ws req ps resumed w)
    (fst (walk cs req ps now w0)) (snd (walk cs req ps now w0)).
Proof.
  intros Hcfg cs. subst cs. unfold add_params. rewrite Hcfg.
  destruct (requiredParams (config w0)) as [required|] eqn:Hreq;
    [|by apply add_auth_ends].
  cbn [app].
  destruct (first_missing required ps) as [param|] eqn:Hmiss.
  - assert (Hv : verdict CheckRequiredParams req ps now w0 = Fail param).
    { simpl. rewrite Hreq. simpl. by rewrite Hmiss. }
    cbn [walk]. rewrite Hv. cbn [fst snd].
    apply (quiet_then_ends ws w _ _ [CheckRequiredParams] []
             (Rejected CheckRequiredParams param) (quiet_act_evaluated _ _)).
    apply (close_ends ws CheckRequiredParams param).
  - assert (Hv : verdict CheckRequiredParams req ps now w0 = Pass).
    { simpl. rewrite Hreq. simpl. by rewrite Hmiss. }
    rewrite (walk_cons_pass _ _ _ _ _ _ Hv). cbn [fst snd].
    apply (quiet_then_ends ws w _ _ [CheckRequiredParams] _ _
             (quiet_act_evaluated _ _)).
    by apply add_auth_ends.
Qed.

Lemma validate_fst_pending (k : string) (t : Z) (w w0 : World) :
  pendingKeys w = pendingKeys w0 ->
  fst (validateConnectionKey k t w) = fst (validateConnectionKey k t w0).
Proof.
  intros H. unfold validateConnectionKey. rewrite H.
  destruct (String.eqb k ""); [reflexivity|].
  destruct (find_pending k t (pendingKeys w0)); reflexivity.
Qed.

Lemma validate_quiet (k : string) (t : Z) (w : World) :
  quiet_step w (snd (validateConnectionKey k t w)) [].
Proof.
  unfold validateConnectionKey.
  destruct (String.eqb k "");
    [|destruct (find_pending k t (pendingKeys w))]; simpl;
    (split; [exists []; rewrite app_nil_r; repeat split; reflexivity
            | split; reflexivity]).
Qed.

Lemma add_key_ends ws req ps now resumed w w0 :
  config w = config w0 -> pendingKeys w = pendingKeys w0 ->
  ends_as ws w (add_key ws req ps now resumed w)
    (fst (walk (later_checks (config w0)) req ps now w0))
    (snd (walk (later_checks (config w0)) req ps now w0)).
Proof.
  intros Hcfg Hpk. unfold add_key, later_checks. rewrite Hcfg.
  destruct (useConnectionKeys (config w0)) as [[|]|] eqn:Hkeys;
    try (cbn [app]; by apply add_params_ends).
  cbn [app].
  set (k := or_string (params_get "key" ps) "").
  pose proof (validate_fst_pending k now (act (Evaluated CheckKey) w) w0 Hpk) as Hfst.
  pose proof (validate_quiet k now (act (Evaluated CheckKey) w)) as Hq.
  destruct (validateConnectionKey k now (act (Evaluated CheckKey) w)) as [ok w1].
  simpl in Hfst, Hq.
  pose proof (quiet_trans _ _ _ _ _ (quiet_act_evaluated CheckKey w) Hq) as Hq1.
  destruct ok.
  - assert (Hv : verdict CheckKey req ps now w0 = Pass).
    { simpl. fold k. by rewrite <- Hfst. }
    rewrite (walk_cons_pass _ _ _ _ _ _ Hv). cbn [fst snd].
    apply (quiet_then_ends ws w w1 _ _ _ _ Hq1).
    apply add_params_ends. destruct Hq1 as (_ & _ & Hc). congruence.
  - assert (Hv : verdict CheckKey req ps now w0 = Fail "").
    { simpl. fold k. by rewrite <- Hfst. }
    cbn [walk]. rewrite Hv. cbn [fst snd].
    apply (quiet_then_ends ws w w1 _ ([CheckKey] ++ []) [] _ Hq1).
    apply (close_ends ws CheckKey "").
Qed.

Lemma checkRateLimit_act (req : IncomingMessage) (t : Z) (a : Action) (w : World) :
  fst (checkRateLimit req t (act a w)) = fst (checkRateLimit req t w).
Proof.
  unfold checkRateLimit. simpl.
  destruct (rateLimit (config w)) as [r|]; [|reflexivity].
  destruct (rateLimitMap w !! getClientId req) as [lim|]; [|reflexivity].
  destruct (t >? resetTime lim); [reflexivity|].
  destruct (count lim >=? RateLimit.max r); reflexivity.
Qed.

Lemma checkRateLimit_quiet (req : IncomingMessage) (t : Z) (w : World) :
  quiet_step w (snd (checkRateLimit req t w)) [] /\
  pendingKeys (snd (checkRateLimit req t w)) = pendingKeys w.
Proof.
  unfold checkRateLimit.
  destruct (rateLimit (config w)) as [r|];
    [destruct (rateLimitMap w !! getClientId req) as [lim|];
       [destruct (t >? resetTime lim);
          [|destruct (count lim >=? RateLimit.max r)]|]|]; simpl;
    (split; [split; [|split; reflexivity] | reflexivity]);
    first [ exists []; rewrite app_nil_r; repeat split; reflexivity
          | eexists [Emit _]; repeat split; reflexivity ].
Qed.

(** [add] leaves the ['error'] listeners of the controller as they are. *)
Lemma setupSocketTimeout_handlers (r : string) (now : Z) (w : World) :
  errorHandlers (setupSocketTimeout r now w) = errorHandlers w.
Proof.
  unfold setupSocketTimeout. destruct (truthy_number (timeout (config w))); [|reflexivity].
  unfold clear_timer_of.
  destruct (heap w !! r) as [s|]; [destruct (timeoutTimer s)|]; reflexivity.
Qed.

Lemma add_register_handlers ws ps resumed (w : World) :
  errorHandlers (add_register ws ps resumed w) = errorHandlers w.
Proof.
  unfold add_register. cbn.
  destruct (timeout_enabled (config w)); [|reflexivity].
  by rewrite setupSocketTimeout_handlers.
Qed.

Lemma add_catch_handlers e ws (w : World) :
  errorHandlers (add_catch e ws w) = errorHandlers w.
Proof. unfold add_catch. by destruct (Nat.eqb (errorHandlers w) 0). Qed.

Lemma add_catch_sockets e ws (w : World) :
  sockets (add_catch e ws w) = sockets w.
Proof. unfold add_catch. by destruct (Nat.eqb (errorHandlers w) 0). Qed.

Lemma add_auth_handlers ws req ps resumed (w : World) :
  errorHandlers (add_auth ws req ps resumed w) = errorHandlers w.
Proof.
  unfold add_auth.
  match goal with |- context [match ?h req with _ => _ end] =>
    destruct (h req) as [[|]|e] end.
  - by rewrite add_register_handlers.
  - reflexivity.
  - by rewrite add_catch_handlers.
Qed.

Lemma add_params_handlers ws req ps resumed (w : World) :
  errorHandlers (add_params ws req ps resumed w) = errorHandlers w.
Proof.
  unfold add_params. destruct (requiredParams (config w)) as [required|];
    [|apply add_auth_handlers].
  destruct (first_missing required ps); [reflexivity|].
  by rewrite add_auth_handlers.
Qed.

Lemma validate_handlers (k : string) (t : Z) (w : World) :
  errorHandlers (snd (validateConnectionKey k t w)) = errorHandlers w.
Proof.
  unfold validateConnectionKey. destruct (String.eqb k ""); [reflexivity|].
  by destruct (find_pending k t (pendingKeys w)).
Qed.

Lemma checkRateLimit_handlers (req : IncomingMessage) (t : Z) (w : World) :
  errorHandlers (snd (checkRateLimit req t w)) = errorHandlers w.
Proof.
  unfold checkRateLimit. destruct (rateLimit (config w)) as [rl|]; [|reflexivity].
  destruct (rateLimitMap w !! getClientId req) as [lim|]; [|reflexivity].
  destruct (t >? resetTime lim); [reflexivity|].
  by destruct (count lim >=? RateLimit.max rl).
Qed.

Lemma add_key_handlers ws req ps now resumed (w : World) :
  errorHandlers (add_key ws req ps now resumed w) = errorHandlers w.
Proof.
  unfold add_key. destruct (useConnectionKeys (config w)) as [[|]|];
    try apply add_params_handlers.
  pose proof (validate_handlers (or_string (params_get "key" ps) "") now
                (act (Evaluated CheckKey) w)) as H.
  destruct (validateConnectionKey _ now _) as [ok w1]. cbn [snd] in H.
  destruct ok; [by rewrite add_params_handlers | exact H].
Qed.

Lemma add_handlers ws req now resumed (w : World) :
  errorHandlers (add ws req now resumed w) = errorHandlers w.
Proof.
  unfold add.
  pose proof (checkRateLimit_handlers req now (act (Evaluated CheckRateLimit) w)) as H.
  destruct (checkRateLimit req now _) as [allowed w1]. cbn [snd] in H.
  destruct allowed; cbn [negb]; [|exact H].
  destruct (at_capacity _); [exact H|].
  destruct (searchParams req) as [ps|].
  - by rewrite add_key_handlers.
  - by rewrite add_catch_handlers.
Qed.

Lemma add_ends ws req now resumed w :
  ends_as ws w (add ws req now resumed w)
    (fst (spec_admission req now w)) (snd (spec_admission req now w)).
Proof.
  unfold add, spec_admission.
  pose proof (checkRateLimit_act req now (Evaluated CheckRateLimit) w) as Hfst.
  destruct (checkRateLimit_quiet req now (act (Evaluated CheckRateLimit) w))
    as [Hq Hpk].
  destruct (checkRateLimit req now (act (Evaluated CheckRateLimit) w)) as [allowed w1].
  simpl in Hfst, Hq, Hpk.
  pose proof (quiet_trans _ _ _ _ _ (quiet_act_evaluated CheckRateLimit w) Hq) as Hq1.
  simpl app in Hq1.
  destruct allowed; simpl negb; cbv iota.
  - assert (Hv : verdict CheckRateLimit req [] now w = Pass).
    { simpl. by rewrite <- Hfst. }
    rewrite (walk_cons_pass _ _ _ _ _ _ Hv).
    pose proof (quiet_trans _ _ _ _ _ Hq1 (quiet_act_evaluated CheckCapacity w1)) as Hq2.
    simpl app in Hq2.
    assert (Hcap : at_capacity (act (Evaluated CheckCapacity) w1) = at_capacity w).
    { destruct Hq1 as (_ & Hs & Hc). unfold at_capacity. simpl. by rewrite Hs, Hc. }
    rewrite Hcap. simpl walk. destruct (at_capacity w) eqn:Hat; simpl.
    + apply (quiet_then_ends ws w _ _ ([CheckRateLimit; CheckCapacity] ++ []) [] _ Hq2).
      apply (close_ends ws CheckCapacity "").
    + destruct (searchParams req) as [ps|]; simpl.
      * destruct (walk (later_checks (config w)) req ps now w) as [cs o] eqn:Hw.
        simpl. change (CheckRateLimit :: CheckCapacity :: cs)
                 with ([CheckRateLimit; CheckCapacity] ++ cs).
        apply (quiet_then_ends ws w _ _ _ _ _ Hq2).
        pose proof (add_key_ends ws req ps now resumed
                      (act (Evaluated CheckCapacity) w1) w) as Hk.
        rewrite Hw in Hk. simpl in Hk. apply Hk.
        -- destruct Hq2 as (_ & _ & Hc). exact Hc.
        -- simpl. exact Hpk.
      * apply (quiet_then_ends ws w _ _ ([CheckRateLimit; CheckCapacity] ++ []) [] _ Hq2).
        apply add_catch_ends.
  - assert (Hv : verdict CheckRateLimit req [] now w = Fail "").
    { simpl. by rewrite <- Hfst. }
    cbn [walk]. rewrite Hv. cbn [fst snd].
    apply (quiet_then_ends ws w _ _ ([CheckRateLimit] ++ []) [] _ Hq1).
    apply (close_ends ws CheckRateLimit "").
Qed.

End Admission.

Lemma spec_admission_cases (req : IncomingMessage) (now : Z) (w : World) :
  let ps := default [] (searchParams req) in
  (spec_admission req now w = ([CheckRateLimit], Rejected CheckRateLimit "") /\
   verdict CheckRateLimit req ps now w = Fail "") \/
  (spec_admission req now w
   = ([CheckRateLimit; CheckCapacity], Rejected CheckCapacity "") /\
   verdict CheckRateLimit req ps now w = Pass /\
   verdict CheckCapacity req ps now w = Fail "") \/
  (spec_admission req now w
   = ([CheckRateLimit; CheckCapacity], InternalError "Invalid URL") /\
   searchParams req = None) \/
  (spec_admission req now w
   = ([CheckRateLimit; CheckCapacity] ++ fst (walk (later_checks (config w)) req ps now w),
      snd (walk (later_checks (config w)) req ps now w)) /\
   verdict CheckRateLimit req ps now w = Pass /\
   verdict CheckCapacity req ps now w = Pass).
Proof.
  intros ps. unfold spec_admission. cbn [walk].
  change (verdict CheckRateLimit req [] now w)
    with (verdict CheckRateLimit req ps now w).
  change (verdict CheckCapacity req [] now w)
    with (verdict CheckCapacity req ps now w).
  destruct (verdict CheckRateLimit req ps now w) as [|p1|e1] eqn:Hv1.
  - destruct (verdict CheckCapacity req ps now w) as [|p2|e2] eqn:Hv2.
    + subst ps. destruct (searchParams req) as [ps|]; simpl default in *.
      * right; right; right.
        destruct (walk (later_checks (config w)) req ps now w). auto.
      * right; right; left. auto.
    + right; left. simpl in Hv2. destruct (at_capacity w); inversion Hv2. auto.
    + simpl in Hv2. destruct (at_capacity w); discriminate Hv2.
  - left. simpl in Hv1. destruct (checkRateLimit req now w).1; inversion Hv1. auto.
  - simpl in Hv1. destruct (checkRateLimit req now w).1; discriminate Hv1.
Qed.

(** The admission routine against the walk over the list of checks. [add]
    evaluates its checks in the fixed order rate limit, capacity, pending
    key (when [useConnectionKeys] is on), required parameters (when
    configured), [authHandler], and stops at the first one that does not
    pass: the checks it evaluates are a prefix of that list, every check
    before the last one passed, a rejection closes the connection exactly
    once with the code and reason of the failed check and leaves the
    registry as it was, the connection is registered only when every check
    was evaluated, and a missing-parameter rejection names the first
    parameter of the configured list that the query lacks. An exception
    (unparsable URL, throwing [authHandler]) registers nothing; it ends in a
    close with the internal-error code when the controller has an ['error']
    listener, and otherwise closes nothing and leaves [add]. *)
Lemma admission_checks_in_order
    (ws : string) (req : IncomingMessage) (now resumed : Z) (w : World) :
  let w' := add ws req now resumed w in
  let checks := fst (spec_admission req now w) in
  let outcome := snd (spec_admission req now w) in
  let ps := default [] (searchParams req) in
  (exists d, log w' = log w ++ d /\ evaluated d = checks /\
             closes d = code_closes (handles_errors w) ws outcome /\
             uncaught d = code_uncaught (handles_errors w) outcome) /\
  sockets w' = expected_sockets ws outcome (sockets w) /\
  checks `prefix_of` enabled_checks (config w) /\
  (outcome = Registered -> checks = enabled_checks (config w)) /\
  (forall c param, outcome = Rejected c param ->
     sockets w' = sockets w /\
     exists before, checks = before ++ [c] /\
       (forall b, b ∈ before -> verdict b req ps now w = Pass) /\
       verdict c req ps now w = Fail param) /\
  (forall param, outcome = Rejected CheckRequiredParams param ->
     exists required before after,
       requiredParams (config w) = Some required /\
       required = before ++ param :: after /\
       params_has param ps = false /\
       Forall (fun q => params_has q ps = true) before).
Proof.
  intros w' checks outcome ps.
  destruct (add_ends ws req now resumed w) as (d & Hlog & Hev & Hcl & Hun & Hso).
  unfold handles_errors in Hcl, Hun. rewrite add_handlers in Hcl, Hun.
  fold (handles_errors w) in Hcl, Hun.
  fold w' checks outcome in Hlog, Hev, Hcl, Hun, Hso.
  assert (Hrej : forall c param, outcome = Rejected c param ->
            exists before, checks = before ++ [c] /\
              (forall b, b ∈ before -> verdict b req ps now w = Pass) /\
              verdict c req ps now w = Fail param).
  { intros c param Ho.
    destruct (spec_admission_cases req now w)
      as [[Hs Hv]|[(Hs & Hv1 & Hv2)|[[Hs Hp]|(Hs & Hv1 & Hv2)]]];
      fold ps in Hs; subst checks outcome; rewrite Hs in *; simpl fst; simpl snd in Ho.
    - inversion Ho; subst. exists []. split; [reflexivity|]. split; [|exact Hv].
      intros b Hb. by apply elem_of_nil in Hb.
    - inversion Ho; subst. exists [CheckRateLimit]. split; [reflexivity|].
      split; [|exact Hv2].
      intros b Hb. apply list_elem_of_singleton in Hb as ->. exact Hv1.
    - discriminate Ho.
    - destruct (walk_rejected _ _ _ _ _ _ _ Ho) as (before & Hb & Hall & Hfail).
      rewrite Hb. exists ([CheckRateLimit; CheckCapacity] ++ before).
      split; [reflexivity|]. split; [|exact Hfail].
      intros b Hin. apply elem_of_app in Hin as [Hin|Hin]; [|by apply Hall].
      apply elem_of_cons in Hin as [->|Hin]; [exact Hv1|].
      apply list_elem_of_singleton in Hin as ->. exact Hv2. }
  split; [exists d; auto|]. split; [exact Hso|]. split; [|split; [|split]].
  - destruct (spec_admission_cases req now w)
      as [[Hs Hv]|[(Hs & Hv1 & Hv2)|[[Hs Hp]|(Hs & Hv1 & Hv2)]]];
      fold ps in Hs; subst checks; rewrite Hs; unfold enabled_checks; simpl.
    + apply prefix_cons, prefix_nil.
    + do 2 apply prefix_cons. apply prefix_nil.
    + do 2 apply prefix_cons. apply prefix_nil.
    + do 2 apply prefix_cons. apply walk_prefix.
  - intros Ho.
    destruct (spec_admission_cases req now w)
      as [[Hs Hv]|[(Hs & Hv1 & Hv2)|[[Hs Hp]|(Hs & Hv1 & Hv2)]]];
      fold ps in Hs; subst checks outcome; rewrite Hs in *; simpl fst; simpl snd in Ho;
      try discriminate Ho.
    unfold enabled_checks. by rewrite (walk_registered _ _ _ _ _ Ho).
  - intros c param Ho. split; [|by apply Hrej].
    rewrite Hso, Ho. reflexivity.
  - intros param Ho. destruct (Hrej _ _ Ho) as (_ & _ & _ & Hfail).
    simpl in Hfail.
    destruct (requiredParams (config w)) as [required|]; simpl in Hfail;
      [|discriminate Hfail].
    destruct (first_missing required ps) as [p|] eqn:Hm; inversion Hfail; subst p.
    destruct (first_missing_spec _ _ _ Hm) as (before & after & Hr & Hno & Hall).
    exists required, before, after. auto.
Qed.

(** A run of [add]: keys off, [room] and [user] required, the query has
    only [user]. *)
Lemma admission_checks_in_order_witness :
  let cfg := {| authHandler := None; limit := Some 2; useConnectionKeys := Some false;
                pendingKeyExpiration := None;
                requiredParams := Some ["room"; "user"]; timeout := None;
                rateLimit := None; disposer := false |} in
  let req := {| remoteAddress := None; userAgent := None;
                searchParams := Some [("user", "ada")] |} in
  let w := new_controller cfg in
  let w' := add "ws-1" req 0 0 w in
  closes (log w') = [("ws-1", 1008, "Missing required parameter: room")] /\
  evaluated (log w') = [CheckRateLimit; CheckCapacity; CheckRequiredParams] /\
  sockets w' = [].
Proof.
  intros cfg req w w'.
  destruct (admission_checks_in_order "ws-1" req 0 0 w)
    as ((d & Hlog & Hev & Hcl & _) & Hso & _).
  fold w' in Hlog, Hso.
  assert (Hd : log w' = d) by exact Hlog. rewrite Hd.
  split; [exact Hcl|]. split; [exact Hev | exact Hso].
Defined.

(** C3 (the code at the failing input): a check that fails by throwing. An
    exception inside the admission (an [authHandler] that throws, a URL that
    does not parse) reaches the [catch] block of [add], which calls
    [this.emit('error', error, ws)] and then [ws.close(1011, ...)]. On a
    controller without an ['error'] listener, as every controller is when it
    is constructed, that [emit] throws in turn: the checks were evaluated in
    order up to the failing one and the connection is not registered, but
    nothing is closed and the exception leaves [add]. With a listener the
    same exception closes the connection once, with the internal-error
    code. *)
Theorem admission_exception_closes_nothing
    (ws : string) (req : IncomingMessage) (now resumed : Z) (w : World) (e : Error) :
  snd (spec_admission req now w) = InternalError e ->
  let w' := add ws req now resumed w in
  (forall cfg, errorHandlers (new_controller cfg) = O) /\
  exists d,
    log w' = log w ++ d /\
    evaluated d = fst (spec_admission req now w) /\
    sockets w' = sockets w /\
    errorHandlers w' = errorHandlers w /\
    (errorHandlers w = O -> closes d = [] /\ uncaught d = [e]) /\
    (errorHandlers w <> O ->
       closes d = [(ws, 1011, "Internal server error")] /\ uncaught d = []).
Proof.
  intros Ho w'. split; [reflexivity|].
  destruct (admission_checks_in_order ws req now resumed w)
    as ((d & Hlog & Hev & Hcl & Hun) & Hso & _).
  rewrite Ho in Hcl, Hun, Hso. cbn [expected_sockets] in Hso.
  exists d. split; [exact Hlog|]. split; [exact Hev|]. split; [exact Hso|].
  split; [apply add_handlers|].
  unfold handles_errors in Hcl, Hun. split.
  - intros Hnone. rewrite Hnone in Hcl, Hun. by split.
  - intros Hsome. destruct (errorHandlers w) as [|n]; [contradiction|]. by split.
Qed.

Lemma admission_exception_closes_nothing_witness :
  let w := run [TransportConnection "a" 0] (new_controller throwing_config) in
  let w' := add "a" plain_request 0 0 w in
  log w' = [Evaluated CheckRateLimit; Evaluated CheckCapacity; Evaluated CheckAuth;
            Emit (EvError "handler failed" (Some "a")); Uncaught "handler failed"] /\
  closes (log w') = [] /\
  sockets w' = [] /\
  state_of "a" w' = Some OPEN /\
  closes (log (add "a" plain_request 0 0 (exec ListenError w)))
  = [("a", 1011, "Internal server error")].
Proof.
  intros w w'.
  destruct (admission_exception_closes_nothing "a" plain_request 0 0 w "handler failed")
    as (_ & d & Hlog & _ & Hso & _ & Hnone & _); [reflexivity|].
  fold w' in Hlog, Hso. destruct (Hnone eq_refl) as [Hcl _].
  split; [vm_compute; reflexivity|].
  split; [rewrite Hlog; exact Hcl|].
  split; [rewrite Hso; reflexivity|].
  split; vm_compute; reflexivity.
Defined.

(** ** Per-identity operations: [send] and [terminate] *)

(** C10 (as stated, refuted): the empty string is a reference that is never
    in the connection map, and [terminate("")] does not throw: it takes the
    branch of [terminate()] and terminates every connection. *)
Lemma terminate_unknown_ref_may_not_throw :
  ~ (forall (r : string) (w : World),
       sockets_get r w = None -> snd (terminate (Some r) w) <> None).
Proof.
  intros H. apply (H "" (new_controller empty_config)); reflexivity.
Qed.

(** C10 (amended): [terminate(ref)] with a non-empty [ref] that is not in
    the connection map throws "Socket not found" and changes nothing (an
    empty [ref] is read as no [ref] and terminates all connections), whereas
    [send] never throws: for an unknown [ref], for a socket that is not
    open, and for a transport [send] that throws synchronously, it returns
    [false] and, when a callback was given, calls it once with the error;
    nothing is sent. *)
Theorem send_reports_terminate_throws :
  (forall (r : string) (w : World),
     r <> "" -> sockets_get r w = None ->
     terminate (Some r) w = (w, Some ("Socket not found: " +:+ r))) /\
  (forall w : World, terminate (Some "") w = terminate None w) /\
  (forall (r : string) (data : BufferLike) (cb : bool)
          (throws : string -> option Error) (w : World),
     snd (send r data cb throws w) = None) /\
  (forall (r : string) (data : BufferLike) (cb : bool)
          (throws : string -> option Error) (w : World),
     sockets_get r w = None ->
     send r data cb throws w
     = (false,
        if cb then act (SendCallback (Some ("Socket not found: " +:+ r))) w else w,
        None)) /\
  (forall (r : string) (data : BufferLike) (cb : bool)
          (throws : string -> option Error) (w : World) (s : ReferencedWebSocket),
     sockets_get r w = Some s -> readyState s <> OPEN ->
     send r data cb throws w
     = (false,
        if cb
        then act (SendCallback
                    (Some ("Socket not ready: " +:+ show_state (readyState s)))) w
        else w,
        None)) /\
  (forall (r : string) (data : BufferLike) (cb : bool)
          (throws : string -> option Error) (w : World) (s : ReferencedWebSocket)
          (e : Error),
     sockets_get r w = Some s -> readyState s = OPEN -> throws r = Some e ->
     send r data cb throws w
     = (false, if cb then act (SendCallback (Some e)) w else w, None)).
Proof.
  split; [|split; [|split; [|split; [|split]]]].
  - intros r w Hne Hget. unfold terminate.
    assert (Hr : or_string (Some r) "" = r).
    { simpl. apply String.eqb_neq in Hne. by rewrite Hne. }
    rewrite Hr. apply String.eqb_neq in Hne. rewrite Hne, Hget. reflexivity.
  - reflexivity.
  - intros r data cb throws w. unfold send.
    destruct (sockets_get r w) as [s|]; [|reflexivity].
    destruct (is_open (readyState s)); simpl; [|reflexivity].
    destruct (throws r); reflexivity.
  - intros r data cb throws w Hget. unfold send. rewrite Hget. reflexivity.
  - intros r data cb throws w s Hget Hst. unfold send. rewrite Hget.
    destruct (readyState s); try reflexivity. contradiction.
  - intros r data cb throws w s e Hget Hst Hth. unfold send.
    rewrite Hget, Hst, Hth. reflexivity.
Qed.

Lemma send_reports_terminate_throws_witness :
  let w := new_controller empty_config in
  terminate (Some "no-such-ref") w = (w, Some "Socket not found: no-such-ref") /\
  send "no-such-ref" "hello" true (fun _ => None) w
  = (false, act (SendCallback (Some "Socket not found: no-such-ref")) w, None).
Proof.
  intros w.
  destruct send_reports_terminate_throws as (Hterm & _ & _ & Hsend & _).
  split.
  - apply (Hterm "no-such-ref" w); [discriminate | reflexivity].
  - apply (Hsend "no-such-ref" "hello" true (fun _ => None) w). reflexivity.
Defined.

(** ** Route table *)

(** C9: registration by [continuous] is idempotent by path. On a free path
    it stores a new controller and returns it; on an occupied path it leaves
    the route table as it is and returns the controller stored there; so a
    second registration of the same path, whatever its route form and
    configuration, changes nothing and returns the controller of the first
    (and [raw] on the occupied path changes nothing either). *)
Theorem continuous_idempotent_by_path
    (route : Route) (cfg : option WebSocketEndpointConfig)
    (allowed_routes : gmap string GenericWebSocketEndpointController) :
  let path := route_path route in
  let routes := fst (continuous route cfg allowed_routes) in
  let controller := snd (continuous route cfg allowed_routes) in
  (allowed_routes !! path = None ->
     controller
     = Some (WebSocketEndpointController path
               (new_controller (with_disposer (default empty_config cfg)))) /\
     routes
     = <[path := WebSocketEndpointController path
                   (new_controller (with_disposer (default empty_config cfg)))]>
         allowed_routes) /\
  (forall stored, allowed_routes !! path = Some stored ->
     routes = allowed_routes /\ controller = Some stored) /\
  routes !! path = controller /\
  is_Some controller /\
  (forall p, p <> path -> routes !! p = allowed_routes !! p) /\
  (forall route' cfg', route_path route' = path ->
     continuous route' cfg' routes = (routes, controller) /\
     raw route' routes = routes).
Proof.
  intros path routes controller. subst routes controller. unfold continuous.
  fold path.
  destruct (allowed_routes !! path) as [stored|] eqn:Hlook.
  - rewrite bool_decide_eq_true_2 by eauto. simpl. rewrite Hlook.
    split; [discriminate|]. split; [intros ? [= <-]; auto|].
    split; [reflexivity|]. split; [eauto|]. split; [reflexivity|].
    intros route' cfg' Heq. unfold raw. rewrite Heq.
    rewrite !bool_decide_eq_true_2 by (rewrite Hlook; eauto).
    split; [by rewrite Hlook | reflexivity].
  - rewrite bool_decide_eq_false_2 by (intros [? ?]; discriminate). simpl.
    rewrite lookup_insert_eq.
    split; [auto|]. split; [discriminate|]. split; [reflexivity|].
    split; [eauto|]. split; [intros p Hp; by rewrite lookup_insert_ne|].
    intros route' cfg' Heq. unfold raw. rewrite Heq.
    rewrite !bool_decide_eq_true_2 by (rewrite lookup_insert_eq; eauto).
    split; [simpl; by rewrite lookup_insert_eq | reflexivity].
Qed.

Lemma continuous_idempotent_by_path_witness :
  let first := continuous (RouteString "/chat") None ∅ in
  let second :=
    continuous (RouteURL "/chat")
      (Some {| authHandler := None; limit := Some 1; useConnectionKeys := Some false;
               pendingKeyExpiration := None; requiredParams := None;
               timeout := Some 5; rateLimit := None; disposer := false |})
      (fst first) in
  snd first
  = Some (WebSocketEndpointController "/chat"
            (new_controller (with_disposer empty_config))) /\
  second = first.
Proof.
  intros first second.
  destruct (continuous_idempotent_by_path (RouteString "/chat") None ∅)
    as (Hnew & _ & _ & _ & _ & Hagain).
  split.
  - apply Hnew. apply lookup_empty.
  - subst second first. destruct (Hagain (RouteURL "/chat")
                               (Some {| authHandler := None; limit := Some 1;
                                        useConnectionKeys := Some false;
                                        pendingKeyExpiration := None;
                                        requiredParams := None;
                                        timeout := Some 5; rateLimit := None;
                                        disposer := false |}) eq_refl) as [-> _].
    destruct (continuous (RouteString "/chat") None ∅). reflexivity.
Defined.

(** ** Broadcast *)

Section Broadcasting.

Variable data : BufferLike.
Variable throws : string -> option Error.

(** The loop over the selected sockets when no transport [send] throws:
    [sent] sockets are already waiting for their callback. *)
Lemma broadcast_loop_no_throw (l : list ReferencedWebSocket) :
  forall (b : Broadcast) (w : World) (sent : nat),
    Forall (fun s => throws (ref s) = None) l ->
    total b = completed b + Z.of_nat sent + Z.of_nat (List.length l) ->
    exists b' w' d,
      broadcast_loop data throws l b w = (b', w', None) /\
      log w' = log w ++ d /\
      sends d = List.map (fun s => (ref s, data)) (open_sockets l) /\
      callbacks d
      = (if cb b && bool_decide (sent = O) && bool_decide (open_sockets l = [])
            && negb (bool_decide (l = []))
         then [errors b] else []) /\
      errors b' = errors b /\ total b' = total b /\ cb b' = cb b /\
      completed b'
      = completed b + Z.of_nat (List.length l) - Z.of_nat (List.length (open_sockets l)).
Proof.
  induction l as [|s l IH]; intros b w sent Hth Htot.
  - exists b, w, []. simpl. rewrite app_nil_r, !andb_false_r.
    repeat split; try reflexivity. lia.
  - inversion Hth as [|? ? Hs Hl]; subst. simpl broadcast_loop.
    unfold open_sockets in *. simpl List.filter.
    destruct (is_open (readyState s)) eqn:Hopen.
    + rewrite Hs.
      destruct (IH b (act (WsSend (ref s) data) w) (S sent) Hl) as
        (b' & w' & d & Hrun & Hlog & Hsends & Hcbs & He & Ht & Hc & Hcomp).
      { simpl List.length in Htot. lia. }
      exists b', w', (WsSend (ref s) data :: d).
      split; [exact Hrun|]. split; [rewrite Hlog; simpl; by rewrite <- app_assoc|].
      split; [simpl; by rewrite Hsends|].
      split.
      { change (callbacks (WsSend (ref s) data :: d)) with (callbacks d).
        rewrite Hcbs.
        rewrite (bool_decide_eq_false_2 (S sent = O)) by discriminate.
        rewrite (bool_decide_eq_false_2 (s :: _ = [])) by discriminate.
        rewrite !andb_false_r. reflexivity. }
      repeat split; try assumption. simpl List.length. lia.
    + unfold complete_one.
      set (b1 := {| errors := errors b; completed := completed b + 1;
                    total := total b; cb := cb b |}).
      set (w1 := if (completed b1 =? total b1) && cb b1
                 then act (BroadcastCallback (errors b1)) w else w).
      destruct (IH b1 w1 sent Hl) as
        (b' & w' & d & Hrun & Hlog & Hsends & Hcbs & He & Ht & Hc & Hcomp).
      { simpl in *. lia. }
      exists b', w'.
      exists ((if (completed b1 =? total b1) && cb b1
               then [BroadcastCallback (errors b1)] else []) ++ d).
      split; [exact Hrun|].
      split.
      { rewrite Hlog. unfold w1.
        destruct ((completed b1 =? total b1) && cb b1); simpl;
          [by rewrite <- app_assoc | reflexivity]. }
      split.
      { unfold sends in *. rewrite omap_app, Hsends.
        destruct ((completed b1 =? total b1) && cb b1); reflexivity. }
      split.
      { unfold callbacks in *. rewrite omap_app, Hcbs. fold callbacks.
        rewrite (bool_decide_eq_false_2 (s :: l = [])) by discriminate.
        change (cb b1) with (cb b). change (errors b1) with (errors b).
        change (completed b1) with (completed b + 1).
        change (total b1) with (total b).
        change (negb false) with true. rewrite andb_true_r.
        destruct l as [|s' l].
        - rewrite (bool_decide_eq_true_2 ([] = [])) by reflexivity.
          change (negb true) with false. rewrite andb_false_r, app_nil_r.
          change (bool_decide (List.filter _ [] = [])) with true.
          rewrite andb_true_r. simpl List.length in Htot.
          destruct (cb b); [|rewrite andb_false_r; reflexivity].
          rewrite andb_true_r, andb_true_l.
          destruct (bool_decide (sent = O)) eqn:Hsent.
          + apply bool_decide_eq_true_1 in Hsent.
            assert ((completed b + 1 =? total b) = true) as -> by lia. reflexivity.
          + apply bool_decide_eq_false_1 in Hsent.
            assert ((completed b + 1 =? total b) = false) as -> by lia. reflexivity.
        - assert ((completed b + 1 =? total b) = false) as ->
            by (simpl List.length in Htot; lia).
          rewrite (bool_decide_eq_false_2 (s' :: l = [])) by discriminate.
          change (negb false) with true. rewrite andb_true_r. reflexivity. }
      simpl in *. repeat split; try assumption. lia.
Qed.


Lemma complete_all_spec (outs : list (option Error)) :
  forall (b : Broadcast) (w : World),
    completed b + Z.of_nat (List.length outs) <= total b ->
    exists b' w' d,
      complete_all outs b w = (b', w') /\ log w' = log w ++ d /\
      sends d = [] /\
      callbacks d
      = (if cb b && (completed b + Z.of_nat (List.length outs) =? total b)
            && negb (bool_decide (outs = []))
         then [errors b ++ reported_errors outs] else []) /\
      errors b' = errors b ++ reported_errors outs.
Proof.
  induction outs as [|out outs IH]; intros b w Hle.
  - exists b, w, []. simpl. rewrite !app_nil_r, andb_false_r. auto.
  - simpl complete_all. unfold send_completed, complete_one.
    set (b0 := match out with
               | Some e => {| errors := errors b ++ [e]; completed := completed b;
                              total := total b; cb := cb b |}
               | None => b
               end).
    assert (Hb0 : errors b0 = errors b ++ reported_errors [out] /\
                  completed b0 = completed b /\ total b0 = total b /\ cb b0 = cb b).
    { unfold b0. destruct out; simpl; rewrite ?app_nil_r; auto. }
    destruct Hb0 as (He0 & Hc0 & Ht0 & Hcb0).
    set (b1 := {| errors := errors b0; completed := completed b0 + 1;
                  total := total b0; cb := cb b0 |}).
    set (w1 := if (completed b1 =? total b1) && cb b1
               then act (BroadcastCallback (errors b1)) w else w).
    destruct (IH b1 w1) as (b' & w' & d & Hrun & Hlog & Hs & Hcbs & He).
    { simpl. simpl List.length in Hle. lia. }
    exists b', w'.
    exists ((if (completed b1 =? total b1) && cb b1
             then [BroadcastCallback (errors b1)] else []) ++ d).
    split; [exact Hrun|].
    split.
    { rewrite Hlog. unfold w1.
      destruct ((completed b1 =? total b1) && cb b1); simpl;
        [by rewrite <- app_assoc | reflexivity]. }
    split.
    { unfold sends in *. rewrite omap_app, Hs.
      destruct ((completed b1 =? total b1) && cb b1); reflexivity. }
    assert (Herrs : errors b1 ++ reported_errors outs
                    = errors b ++ reported_errors (out :: outs)).
    { change (errors b1) with (errors b0). rewrite He0.
      unfold reported_errors. rewrite <- app_assoc. f_equal.
      destruct out; reflexivity. }
    split; [|by rewrite He].
    unfold callbacks in *. rewrite omap_app, Hcbs. fold callbacks.
    rewrite (bool_decide_eq_false_2 (out :: outs = [])) by discriminate.
    change (negb false) with true. rewrite andb_true_r.
    change (cb b1) with (cb b0). change (completed b1) with (completed b0 + 1).
    change (total b1) with (total b0). change (errors b1) with (errors b0).
    rewrite Hcb0, Hc0, Ht0.
    assert (Hlen : Z.of_nat (List.length (out :: outs))
                   = 1 + Z.of_nat (List.length outs)) by (simpl List.length; lia).
    rewrite Hlen in *.
    change (errors b1) with (errors b0) in Herrs.
    destruct outs as [|out' outs].
    + change (Z.of_nat (List.length (@nil (option Error)))) with 0.
      rewrite (bool_decide_eq_true_2 (@nil (option Error) = [])) by reflexivity.
      change (negb true) with false. rewrite andb_false_r, app_nil_r.
      replace (completed b + (1 + 0)) with (completed b + 1) by lia.
      rewrite (andb_comm (cb b)).
      destruct ((completed b + 1 =? total b) && cb b); [|reflexivity].
      simpl. rewrite He0. reflexivity.
    + assert ((completed b + 1 =? total b) = false) as ->
        by (simpl List.length in Hle; lia).
      rewrite andb_false_l, app_nil_l.
      rewrite (bool_decide_eq_false_2 (out' :: outs = [])) by discriminate.
      change (negb false) with true. rewrite andb_true_r.
      replace (completed b + 1 + Z.of_nat (List.length (out' :: outs)))
        with (completed b + (1 + Z.of_nat (List.length (out' :: outs)))) by lia.
      rewrite Herrs. reflexivity.
Qed.

Lemma broadcast_start
    (filter : option (ReferencedWebSocket -> bool)) (hasCb : bool) (w : World) :
  let opened := open_sockets (selected_sockets filter w) in
  Forall (fun s => throws (ref s) = None) (selected_sockets filter w) ->
  exists b0 w0 d0,
    broadcast data filter hasCb throws w = (b0, w0, None) /\
    log w0 = log w ++ d0 /\
    sends d0 = List.map (fun s => (ref s, data)) opened /\
    errors b0 = [] /\
    callbacks d0 = (if hasCb && bool_decide (opened = []) then [[]] else []) /\
    cb b0 = hasCb /\
    total b0 = completed b0 + Z.of_nat (List.length opened).
Proof.
  intros opened. subst opened. unfold broadcast. fold (selected_sockets filter w).
  generalize (selected_sockets filter w) as sel. intros sel Hth.
  destruct sel as [|s sel'].
  - eexists _, (if hasCb then act (BroadcastCallback []) w else w),
            (if hasCb then [BroadcastCallback []] else []).
    simpl. destruct hasCb; simpl; rewrite ?app_nil_r; auto 10.
  - cbn [total].
    destruct (Z.eqb_spec (Z.of_nat (List.length (s :: sel'))) 0) as [H0|_];
      [simpl List.length in H0; lia|].
    destruct (broadcast_loop_no_throw (s :: sel')
                {| errors := []; completed := 0;
                   total := Z.of_nat (List.length (s :: sel')); cb := hasCb |}
                w O Hth) as
      (b' & w' & d & Hrun & Hlog & Hs & Hcbs & He & Ht & Hc & Hcomp);
      [simpl; lia|].
    rewrite Hrun. exists b', w', d. split; [reflexivity|]. split; [exact Hlog|].
    split; [exact Hs|]. split; [by rewrite He|].
    split.
    { rewrite Hcbs. simpl cb. simpl errors.
      rewrite (bool_decide_eq_true_2 (O = O)) by reflexivity.
      rewrite (bool_decide_eq_false_2 (s :: sel' = [])) by discriminate.
      change (negb false) with true. rewrite !andb_true_r. reflexivity. }
    split; [by rewrite Hc|].
    rewrite Ht, Hcomp. cbn [total completed]. lia.
Qed.

(** Broadcast when no transport [send] throws synchronously: the payload is
    handed to the transport exactly for the open sockets among the selected
    ones, in order; a socket that is not open adds nothing to the failure
    list; the callback is called at once with an empty list when no selected
    socket is open, and otherwise once, after the last pending send has
    reported, with exactly the errors that the sends reported. *)
Lemma broadcast_without_sync_throw
    (filter : option (ReferencedWebSocket -> bool)) (hasCb : bool) (w : World)
    (outs : list (option Error)) :
  let opened := open_sockets (selected_sockets filter w) in
  Forall (fun s => throws (ref s) = None) (selected_sockets filter w) ->
  (List.length outs <= List.length opened)%nat ->
  exists b0 w0 d0 b1 w1 d1,
    broadcast data filter hasCb throws w = (b0, w0, None) /\
    log w0 = log w ++ d0 /\
    sends d0 = List.map (fun s => (ref s, data)) opened /\
    errors b0 = [] /\
    callbacks d0 = (if hasCb && bool_decide (opened = []) then [[]] else []) /\
    complete_all outs b0 w0 = (b1, w1) /\
    log w1 = log w0 ++ d1 /\
    sends d1 = [] /\
    callbacks d1
    = (if hasCb && negb (bool_decide (outs = []))
          && bool_decide (List.length outs = List.length opened)
       then [reported_errors outs] else []).
Proof.
  intros opened Hth Hlen.
  destruct (broadcast_start filter hasCb w Hth)
    as (b0 & w0 & d0 & Hrun & Hlog & Hs & He & Hcbs & Hcb & Htot).
  fold opened in Hs, Hcbs, Htot.
  destruct (complete_all_spec outs b0 w0) as (b1 & w1 & d1 & Hrun1 & Hlog1 & Hs1 & Hcbs1 & He1);
    [lia|].
  exists b0, w0, d0, b1, w1, d1. repeat (split; [assumption|]).
  rewrite Hcbs1, Hcb, He. simpl app.
  destruct hasCb; [|reflexivity]. rewrite !andb_true_l.
  destruct (bool_decide (outs = [])); simpl; [by rewrite andb_false_r|].
  rewrite andb_true_r.
  destruct (bool_decide (List.length outs = List.length opened)) eqn:Hd.
  - apply bool_decide_eq_true_1 in Hd.
    assert ((completed b0 + Z.of_nat (List.length outs) =? total b0) = true) as -> by lia.
    reflexivity.
  - apply bool_decide_eq_false_1 in Hd.
    assert ((completed b0 + Z.of_nat (List.length outs) =? total b0) = false) as -> by lia.
    reflexivity.
Qed.

End Broadcasting.

(** C6 (the code at the failing input): two open connections are selected
    and the transport's [send] throws synchronously. The exception of the
    first [send] leaves [broadcast]: the second connection is never tried,
    no failure list is built and the completion callback is never called;
    [send], the sibling method, catches the same exception and reports it
    through its callback. *)
Theorem broadcast_sync_throw_escapes :
  let w := two_open open_config in
  List.map ref (open_sockets (selected_sockets None w)) = ["a"; "b"] /\
  broadcast "payload" None true throws_always w
  = ({| errors := []; completed := 0; total := 2; cb := true |}, w, Some "send failed") /\
  send "a" "payload" true throws_always w
  = (false, act (SendCallback (Some "send failed")) w, None).
Proof.
  intros w. subst w. split; [|split]; vm_compute; reflexivity.
Qed.

(** ** Graceful shutdown *)

Section GracefulShutdown.

Lemma closeHandler_resolved (g : Shutdown) :
  (resolved g = true <-> Z.of_nat (List.length (snapshot g)) <= closedCount g) ->
  (resolved (closeHandler g) = true
   <-> Z.of_nat (List.length (snapshot (closeHandler g))) <= closedCount (closeHandler g)).
Proof.
  intros H. unfold closeHandler. cbn [resolved snapshot closedCount].
  destruct (Z.eqb_spec (closedCount g + 1) (Z.of_nat (List.length (snapshot g))))
    as [He|Hne].
  - split; [lia | reflexivity].
  - rewrite H. lia.
Qed.

Lemma closeHandler_fields (g : Shutdown) :
  snapshot (closeHandler g) = snapshot g /\
  listening (closeHandler g) = listening g /\
  forceTimeout (closeHandler g) = forceTimeout g /\
  closedCount (closeHandler g) = closedCount g + 1 /\
  (resolved g = true -> resolved (closeHandler g) = true).
Proof.
  unfold closeHandler. cbn [snapshot listening forceTimeout closedCount resolved].
  repeat split. intros ->. destruct (_ =? _); reflexivity.
Qed.

Lemma closeHandler_iter (n : nat) (g : Shutdown) :
  (resolved g = true <-> Z.of_nat (List.length (snapshot g)) <= closedCount g) ->
  (resolved (Nat.iter n closeHandler g) = true
   <-> Z.of_nat (List.length (snapshot (Nat.iter n closeHandler g)))
       <= closedCount (Nat.iter n closeHandler g)) /\
  snapshot (Nat.iter n closeHandler g) = snapshot g /\
  listening (Nat.iter n closeHandler g) = listening g /\
  forceTimeout (Nat.iter n closeHandler g) = forceTimeout g /\
  closedCount (Nat.iter n closeHandler g) = closedCount g + Z.of_nat n /\
  (resolved g = true -> resolved (Nat.iter n closeHandler g) = true).
Proof.
  intros H. induction n as [|n IH].
  - simpl. repeat split; try tauto. lia.
  - change (Nat.iter (S n) closeHandler g)
      with (closeHandler (Nat.iter n closeHandler g)).
    destruct IH as (Hr & Hs & Hl & Hf & Hc & Hmono).
    destruct (closeHandler_fields (Nat.iter n closeHandler g))
      as (Hs1 & Hl1 & Hf1 & Hc1 & Hm1).
    split; [by apply closeHandler_resolved|].
    rewrite Hs1, Hl1, Hf1, Hc1.
    repeat split; try assumption; [lia|].
    intros Hg. apply Hm1, Hmono, Hg.
Qed.

Lemma shutdown_on_close_invariant (extra : Z) (r : string) (g : Shutdown) :
  shutdown_invariant extra g ->
  shutdown_invariant extra (shutdown_on_close r g) /\
  snapshot (shutdown_on_close r g) = snapshot g /\
  listening (shutdown_on_close r g)
  = List.filter (fun r' => negb (String.eqb r r')) (listening g).
Proof.
  intros (Hres & Harm & Hsum). unfold shutdown_on_close.
  set (n := List.length (List.filter (String.eqb r) (listening g))).
  set (g0 := {| snapshot := snapshot g; closedCount := closedCount g;
                resolved := resolved g; forceTimeout := forceTimeout g;
                listening := List.filter (fun r' => negb (String.eqb r r')) (listening g) |}).
  destruct (closeHandler_iter n g0 Hres) as (Hr & Hs & Hl & Hf & Hc & Hmono).
  split; [|split; [exact Hs | exact Hl]].
  split; [exact Hr|]. split.
  - destruct Harm as [Hdone|Harmed]; [left; by apply Hmono | right; by rewrite Hf].
  - rewrite Hc, Hl, Hs. unfold g0. cbn [closedCount listening snapshot].
    assert (Hsplit : (List.length (listening g)
                      = n + List.length (List.filter (fun r' => negb (String.eqb r r'))
                                           (listening g)))%nat).
    { unfold n. clear. induction (listening g) as [|x l IH]; simpl; [reflexivity|].
      destruct (String.eqb r x); simpl; lia. }
    lia.
Qed.

Lemma closing_events_invariant (extra : Z) (rs : list string) :
  forall g, shutdown_invariant extra g ->
    shutdown_invariant extra (closing_events rs g) /\
    snapshot (closing_events rs g) = snapshot g /\
    listening (closing_events rs g)
    = List.filter (fun r' => negb (bool_decide (r' ∈ rs))) (listening g).
Proof.
  induction rs as [|r rs IH]; intros g Hg.
  - simpl. split; [exact Hg|]. split; [reflexivity|].
    induction (listening g) as [|x l IHl]; simpl; [reflexivity|].
    by rewrite <- IHl.
  - simpl. destruct (shutdown_on_close_invariant extra r g Hg) as (Hg1 & Hs1 & Hl1).
    destruct (IH _ Hg1) as (Hg2 & Hs2 & Hl2).
    split; [exact Hg2|]. split; [congruence|].
    rewrite Hl2, Hl1. clear.
    induction (listening g) as [|x l IHl]; simpl; [reflexivity|].
    destruct (String.eqb_spec r x) as [->|Hne]; simpl.
    + rewrite (bool_decide_eq_true_2 (x ∈ x :: rs)) by (apply list_elem_of_here).
      simpl. exact IHl.
    + destruct (decide (x ∈ rs)) as [Hin|Hnin].
      * rewrite !bool_decide_eq_true_2; [simpl; exact IHl | | exact Hin].
        by apply list_elem_of_further.
      * rewrite !bool_decide_eq_false_2; [simpl; by rewrite IHl | | exact Hnin].
        intros Hin. apply elem_of_cons in Hin as [?|?]; [congruence | contradiction].
Qed.


Lemma shutdown_loop_spec (todo : list ReferencedWebSocket) :
  forall (g : Shutdown) (w : World),
    (resolved g = true <-> Z.of_nat (List.length (snapshot g)) <= closedCount g) ->
    let g' := fst (shutdown_loop todo g w) in
    let w' := snd (shutdown_loop todo g w) in
    (resolved g' = true <-> Z.of_nat (List.length (snapshot g')) <= closedCount g') /\
    snapshot g' = snapshot g /\ forceTimeout g' = forceTimeout g /\
    listening g' = listening g ++ List.map ref todo /\
    closedCount g' = closedCount g + Z.of_nat (List.length (not_open_sockets todo)) /\
    log w' = log w ++ List.map (fun s => WsClose (ref s) 1001 "Server shutting down")
                        (open_sockets todo).
Proof.
  induction todo as [|s todo IH]; intros g w Hres.
  - simpl. rewrite !app_nil_r. repeat split; try tauto. lia.
  - cbn [shutdown_loop]. unfold open_sockets, not_open_sockets in *.
    cbn [List.filter List.map].
    destruct (is_open (readyState s)); cbn [negb].
    + destruct (IH (listen_on (ref s) g) (act (WsClose (ref s) 1001 "Server shutting down") w))
        as (Hr & Hs & Hf & Hl & Hc & Hlog); [exact Hres|].
      split; [exact Hr|]. split; [exact Hs|]. split; [exact Hf|].
      split; [rewrite Hl; cbn [listen_on listening]; by rewrite <- app_assoc|].
      split; [exact Hc|]. rewrite Hlog. cbn [act log]. by rewrite <- app_assoc.
    + destruct (closeHandler_fields (listen_on (ref s) g)) as (Hs1 & Hl1 & Hf1 & Hc1 & _).
      destruct (IH (closeHandler (listen_on (ref s) g)) w)
        as (Hr & Hs & Hf & Hl & Hc & Hlog);
        [apply (closeHandler_resolved (listen_on (ref s) g)); exact Hres|].
      split; [exact Hr|]. split; [by rewrite Hs, Hs1|]. split; [by rewrite Hf, Hf1|].
      split; [rewrite Hl, Hl1; cbn [listen_on listening]; by rewrite <- app_assoc|].
      split; [|exact Hlog].
      rewrite Hc, Hc1. cbn [listen_on closedCount List.length]. lia.
Qed.

Lemma terminate_open_log (socks : list ReferencedWebSocket) :
  forall w : World,
    log (terminate_open socks w)
    = log w ++ List.map (fun s => WsTerminate (ref s)) (open_sockets socks).
Proof.
  induction socks as [|s socks IH]; intros w; simpl; [by rewrite app_nil_r|].
  unfold open_sockets in *. simpl.
  destruct (is_open (readyState s)); [|apply IH].
  rewrite IH. simpl. by rewrite <- app_assoc.
Qed.

Lemma gracefulShutdown_spec (w : World) :
  shutdown_invariant
    (Z.of_nat (List.length (not_open_sockets (socket_values w))))
    (fst (gracefulShutdown w)) /\
  snapshot (fst (gracefulShutdown w)) = List.map ref (socket_values w) /\
  listening (fst (gracefulShutdown w)) = List.map ref (socket_values w) /\
  log (snd (gracefulShutdown w))
  = log w ++ List.map (fun s => WsClose (ref s) 1001 "Server shutting down")
               (open_sockets (socket_values w)).
Proof.
  unfold gracefulShutdown.
  destruct (socket_values w) as [|s socks] eqn:Hsocks.
  - simpl. rewrite app_nil_r. repeat split; simpl; auto; lia.
  - destruct (Z.eqb_spec (Z.of_nat (List.length (s :: socks))) 0) as [H0|_];
      [simpl List.length in H0; lia|].
    set (g0 := {| snapshot := List.map ref (s :: socks); closedCount := 0;
                  resolved := false; forceTimeout := true; listening := [] |}).
    destruct (shutdown_loop_spec (s :: socks) g0 w)
      as (Hr & Hs & Hf & Hl & Hc & Hlog).
    { unfold g0. cbn [resolved snapshot closedCount]. rewrite length_map.
      simpl List.length. split; [discriminate | lia]. }
    destruct (shutdown_loop (s :: socks) g0 w) as [g1 w1].
    cbn [fst snd] in *. cbn [g0 snapshot forceTimeout listening closedCount] in Hs, Hf, Hl, Hc.
    assert (Hlen : List.length (snapshot g1) = List.length (s :: socks))
      by (rewrite Hs; apply length_map).
    assert (Hll : List.length (listening g1) = List.length (s :: socks))
      by (rewrite Hl; change ([] ++ List.map ref (s :: socks))
            with (List.map ref (s :: socks)); apply length_map).
    assert (Hl' : listening g1 = List.map ref (s :: socks)) by exact Hl.
    destruct (Z.eqb_spec (closedCount g1) (Z.of_nat (List.length (snapshot g1))))
      as [Hall|Hsome]; cbn [fst snd].
    + split; [|auto]. unfold shutdown_invariant.
      cbn [resolved snapshot closedCount forceTimeout listening].
      split; [exact Hr|]. split; [left; apply Hr; lia|].
      rewrite Hll, Hc, Hlen. lia.
    + split; [|auto]. unfold shutdown_invariant.
      split; [exact Hr|]. split; [right; exact Hf|].
      rewrite Hll, Hc, Hlen. lia.
Qed.

End GracefulShutdown.

(** The resolution of [gracefulShutdown(T)]. With no connection it
    resolves at once and does nothing. Otherwise it calls [close(1001)] on
    exactly the snapshotted connections that are open; whatever ['close']
    events arrive, the promise is resolved or the force timer is still
    pending; once every snapshotted connection has closed the promise is
    resolved; and when the timer fires after [T], the promise is resolved
    and the registered connections whose state is then [OPEN], and only
    they, are terminated. The promise resolves as soon as the number of
    snapshotted connections still to close is at most the number that were
    not open at the call. *)
Lemma graceful_shutdown_always_resolves (w : World) :
  let snap := socket_values w in
  let g := fst (gracefulShutdown w) in
  let w1 := snd (gracefulShutdown w) in
  (snap = [] -> resolved g = true /\ w1 = w) /\
  log w1 = log w ++ List.map (fun s => WsClose (ref s) 1001 "Server shutting down")
                      (open_sockets snap) /\
  (forall evs,
     resolved (closing_events evs g) = true \/
     forceTimeout (closing_events evs g) = true) /\
  (forall evs, (forall s, s ∈ snap -> ref s ∈ evs) ->
     resolved (closing_events evs g) = true) /\
  (forall evs,
     resolved (closing_events evs g) = true <->
     (List.length (List.filter (fun s => negb (bool_decide (ref s ∈ evs))) snap)
      <= List.length (not_open_sockets snap))%nat) /\
  (forall evs w2,
     resolved (fst (shutdown_timeout (closing_events evs g) w2)) = true /\
     (forceTimeout (closing_events evs g) = true ->
      log (snd (shutdown_timeout (closing_events evs g) w2))
      = log w2 ++ List.map (fun s => WsTerminate (ref s))
                    (open_sockets (socket_values w2)))).
Proof.
  intros snap g w1.
  destruct (gracefulShutdown_spec w) as (Hinv & Hsnap & Hlis & Hlog).
  fold g snap in Hinv, Hsnap, Hlis. fold w1 snap in Hlog.
  assert (Hexact : forall evs,
            resolved (closing_events evs g) = true <->
            (List.length (List.filter (fun s => negb (bool_decide (ref s ∈ evs))) snap)
             <= List.length (not_open_sockets snap))%nat).
  { intros evs.
    destruct (closing_events_invariant _ evs g Hinv) as ((Hr & _ & Hsum) & Hs & Hl).
    rewrite Hr. rewrite Hs, Hsnap in *. rewrite Hl, Hlis in Hsum.
    assert (Hmap : List.length
                     (List.filter (fun r' => negb (bool_decide (r' ∈ evs)))
                        (List.map ref snap))
                   = List.length
                       (List.filter (fun s => negb (bool_decide (ref s ∈ evs))) snap)).
    { clear. induction snap as [|s l IH]; simpl; [reflexivity|].
      destruct (negb (bool_decide (ref s ∈ evs))); simpl; by rewrite IH. }
    rewrite Hmap in Hsum. lia. }
  split; [|split; [exact Hlog|split; [|split; [|split; [exact Hexact|]]]]].
  - intros Hempty. subst g w1. unfold gracefulShutdown. fold snap. rewrite Hempty.
    simpl. auto.
  - intros evs. destruct (closing_events_invariant _ evs g Hinv) as ((_ & Harm & _) & _).
    exact Harm.
  - intros evs Hall. apply Hexact.
    assert (Hnil : List.filter (fun s => negb (bool_decide (ref s ∈ evs))) snap = []).
    { clear -Hall. induction snap as [|s l IH]; simpl; [reflexivity|].
      rewrite bool_decide_eq_true_2 by (apply Hall, list_elem_of_here).
      simpl. apply IH. intros s' Hs'. apply Hall. by apply list_elem_of_further. }
    rewrite Hnil. simpl. lia.
  - intros evs w2.
    destruct (closing_events_invariant _ evs g Hinv) as ((_ & Harm & _) & _).
    unfold shutdown_timeout.
    destruct (forceTimeout (closing_events evs g)) eqn:Hft; cbn [fst snd resolved].
    + split; [reflexivity|]. intros _. apply terminate_open_log.
    + split; [|discriminate]. destruct Harm as [?|?]; [assumption | discriminate].
Qed.

Lemma graceful_shutdown_always_resolves_witness :
  let w := two_open open_config in
  let g := fst (gracefulShutdown w) in
  closes (log (snd (gracefulShutdown w)))
  = [("a", 1001, "Server shutting down"); ("b", 1001, "Server shutting down")] /\
  resolved g = false /\
  resolved (closing_events ["b"; "a"] g) = true /\
  resolved (fst (shutdown_timeout (closing_events ["b"] g) w)) = true.
Proof.
  intros w g.
  destruct (graceful_shutdown_always_resolves w) as (_ & Hlog & _ & Hall & _ & Hfire).
  fold g in Hall, Hfire.
  split; [rewrite Hlog; vm_compute; reflexivity|].
  split; [vm_compute; reflexivity|].
  split; [|apply Hfire].
  apply Hall. intros s Hs. vm_compute in Hs.
  repeat (apply elem_of_cons in Hs as [->|Hs];
          [cbn [ref];
           first [apply list_elem_of_here
                 | apply list_elem_of_further, list_elem_of_here]|]).
  by apply elem_of_nil in Hs.
Defined.

(** The force timer passes over sockets that are not [OPEN]. *)
Lemma terminate_open_none (socks : list ReferencedWebSocket) (w : World) :
  Forall (fun s => is_open (readyState s) = false) socks ->
  terminate_open socks w = w.
Proof.
  induction 1 as [|s socks Hs _ IH]; simpl; [reflexivity|]. by rewrite Hs.
Qed.

(** C4 (the code at the failing input): the promise of [gracefulShutdown]
    resolves, but not "once every snapshotted connection has closed", and
    the force timer does not terminate the connections that never
    acknowledge the close.
    - The loop installs [once('close', closeHandler)] on every snapshotted
      socket and then calls [closeHandler()] itself for those that are not
      [OPEN], so such a socket is counted twice: the promise resolves as
      soon as the connections still to close are no more than those that
      were not open at the call. With [a] closing and [b] open, the
      ['close'] of [a] alone resolves the promise while the listener of [b]
      is still waiting.
    - The callback of the force timer terminates only sockets whose
      [readyState] is [OPEN]. A socket on which [close()] was called and
      whose peer does not answer is [CLOSING]: when the timer fires over
      sockets none of which is [OPEN], it terminates nothing, the
      connections stay registered, and the promise resolves. *)
Theorem graceful_shutdown_leaves_connections (w : World) :
  let snap := socket_values w in
  let g := fst (gracefulShutdown w) in
  (forall evs,
     resolved (closing_events evs g) = true <->
     (List.length (List.filter (fun s => negb (bool_decide (ref s ∈ evs))) snap)
      <= List.length (not_open_sockets snap))%nat) /\
  (forall a b,
     snap = [a; b] -> ref a <> ref b ->
     is_open (readyState a) = false -> is_open (readyState b) = true ->
     resolved g = false /\
     closes (log (snd (gracefulShutdown w)))
     = closes (log w) ++ [(ref b, 1001, "Server shutting down")] /\
     resolved (closing_events [ref a] g) = true /\
     listening (closing_events [ref a] g) = [ref b]) /\
  (forall evs w2,
     Forall (fun s => is_open (readyState s) = false) (socket_values w2) ->
     forceTimeout (closing_events evs g) = true ->
     snd (shutdown_timeout (closing_events evs g) w2) = w2 /\
     resolved (fst (shutdown_timeout (closing_events evs g) w2)) = true).
Proof.
  intros snap g.
  destruct (graceful_shutdown_always_resolves w) as (_ & Hlog & _ & _ & Hlaw & _).
  fold snap g in Hlog, Hlaw.
  destruct (gracefulShutdown_spec w) as (Hinv & _ & Hlis & _). fold snap g in Hinv, Hlis.
  split; [exact Hlaw|]. split.
  - intros a b Hsnap Hne Ha Hb.
    assert (Hba : bool_decide (ref b ∈ [ref a]) = false).
    { apply bool_decide_eq_false_2. intros Hin.
      apply list_elem_of_singleton in Hin. congruence. }
    assert (Haa : bool_decide (ref a ∈ [ref a]) = true)
      by (apply bool_decide_eq_true_2, list_elem_of_here).
    split; [|split; [|split]].
    + destruct (resolved g) eqn:Hr; [|reflexivity].
      pose proof (proj1 (Hlaw []) Hr) as Hle. rewrite Hsnap in Hle.
      unfold not_open_sockets in Hle. cbn in Hle. rewrite Ha, Hb in Hle.
      rewrite !bool_decide_eq_false_2 in Hle by apply not_elem_of_nil.
      cbn in Hle. lia.
    + rewrite Hlog, Hsnap. unfold closes, open_sockets. rewrite omap_app. cbn.
      rewrite Ha, Hb. reflexivity.
    + apply Hlaw. rewrite Hsnap. unfold not_open_sockets. cbn.
      rewrite Haa, Hba, Ha, Hb. cbn. lia.
    + destruct (closing_events_invariant _ [ref a] g Hinv) as (_ & _ & Hl).
      rewrite Hl, Hlis, Hsnap. cbn. by rewrite Haa, Hba.
  - intros evs w2 Hclosing Harmed. unfold shutdown_timeout. rewrite Harmed.
    cbn [fst snd resolved]. split; [by apply terminate_open_none | reflexivity].
Qed.

Lemma graceful_shutdown_leaves_connections_witness :
  let w := run [TransportReadyState "a" CLOSING] (two_open open_config) in
  let g := fst (gracefulShutdown w) in
  let w1 := snd (gracefulShutdown w) in
  let w2 := run [OnClose "a" 1000 ""; TransportReadyState "b" CLOSING] w1 in
  let w3 := snd (shutdown_timeout (closing_events ["a"] g) w2) in
  closes (log w1) = [("b", 1001, "Server shutting down")] /\
  resolved g = false /\
  resolved (closing_events ["a"] g) = true /\
  listening (closing_events ["a"] g) = ["b"] /\
  terminated (log w3) = [] /\
  sockets w3 = ["b"] /\
  state_of "b" w3 = Some CLOSING.
Proof.
  intros w g w1 w2 w3.
  destruct (graceful_shutdown_leaves_connections w) as (_ & Hearly & Htimer).
  fold g in Hearly, Htimer.
  destruct (socket_values w) as [|a [|b [|c l]]] eqn:Hsv;
    try (vm_compute in Hsv; discriminate Hsv).
  assert (Hab := Hsv). vm_compute in Hab. injection Hab as <- <-.
  destruct (Hearly _ _ eq_refl) as (Hres & Hcl & Hone & Hlis);
    [discriminate | reflexivity | reflexivity |].
  cbn [ref] in Hcl, Hone, Hlis.
  destruct (Htimer ["a"] w2) as [Hsame _].
  { vm_compute. repeat constructor. }
  { vm_compute. reflexivity. }
  fold w1 in Hcl. fold w3 in Hsame.
  split; [rewrite Hcl; vm_compute; reflexivity|].
  split; [exact Hres|]. split; [exact Hone|]. split; [exact Hlis|].
  rewrite Hsame. repeat split; vm_compute; reflexivity.
Defined.

(** ** What the operations leave alone *)

Section Frames.

Lemma same_core_refl (w : World) : same_core w w.
Proof. repeat split. Qed.

Lemma same_core_trans (w1 w2 w3 : World) :
  same_core w1 w2 -> same_core w2 w3 -> same_core w1 w3.
Proof.
  intros (?&?&?&?&?) (?&?&?&?&?). repeat split; congruence.
Qed.

Lemma same_core_act (a : Action) (w : World) : same_core w (act a w).
Proof. repeat split. Qed.

Lemma same_core_iter (f : World -> World) (n : nat) (w : World) :
  (forall w0, same_core w0 (f w0)) -> same_core w (Nat.iter n f w).
Proof.
  intros Hf. induction n as [|n IH]; [apply same_core_refl|].
  change (Nat.iter (S n) f w) with (f (Nat.iter n f w)).
  eapply same_core_trans; [exact IH | apply Hf].
Qed.

Lemma same_core_add_catch (e : Error) (ws : string) (w : World) :
  same_core w (add_catch e ws w).
Proof. unfold add_catch. destruct (Nat.eqb (errorHandlers w) 0); by repeat split. Qed.

Lemma same_core_on_error (ws : string) (e : Error) (w : World) :
  same_core w (on_error ws e w).
Proof.
  unfold on_error. destruct (heap w !! ws) as [s|]; [|apply same_core_refl].
  destruct (Nat.eqb (errorHandlers w) 0).
  - destruct (errorListeners s); [apply same_core_refl|].
    eapply same_core_trans; apply same_core_act.
  - apply same_core_iter. intros w0. apply same_core_act.
Qed.

Lemma same_core_checkRateLimit (req : IncomingMessage) (t : Z) (w : World) :
  same_core w (snd (checkRateLimit req t w)).
Proof.
  unfold checkRateLimit.
  destruct (rateLimit (config w)) as [r|]; [|apply same_core_refl].
  destruct (rateLimitMap w !! getClientId req) as [lim|]; [|repeat split].
  destruct (t >? resetTime lim); [repeat split|].
  destruct (count lim >=? RateLimit.max r); repeat split.
Qed.

Lemma same_core_validate (k : string) (t : Z) (w : World) :
  same_core w (snd (validateConnectionKey k t w)).
Proof.
  unfold validateConnectionKey.
  destruct (String.eqb k ""); [apply same_core_refl|].
  destruct (find_pending k t (pendingKeys w)); repeat split.
Qed.

Lemma same_core_terminate_open (socks : list ReferencedWebSocket) :
  forall w, same_core w (terminate_open socks w).
Proof.
  induction socks as [|s socks IH]; intros w; simpl; [apply same_core_refl|].
  destruct (is_open (readyState s)); [|apply IH].
  eapply same_core_trans; [apply same_core_act | apply IH].
Qed.

Lemma same_core_broadcast_loop data throws (l : list ReferencedWebSocket) :
  forall b w, same_core w (snd (fst (broadcast_loop data throws l b w))).
Proof.
  induction l as [|s l IH]; intros b w; simpl; [apply same_core_refl|].
  destruct (is_open (readyState s)).
  - destruct (throws (ref s)); [apply same_core_refl|].
    eapply same_core_trans; [apply same_core_act | apply IH].
  - eapply same_core_trans; [|apply IH].
    destruct (_ && _); [apply same_core_act | apply same_core_refl].
Qed.

Lemma same_core_broadcast data filter hasCb throws (w : World) :
  same_core w (snd (fst (broadcast data filter hasCb throws w))).
Proof.
  unfold broadcast. destruct (_ =? 0); [|apply same_core_broadcast_loop].
  simpl. destruct hasCb; [apply same_core_act | apply same_core_refl].
Qed.

Lemma same_core_send r data hasCb throws (w : World) :
  same_core w (snd (fst (send r data hasCb throws w))).
Proof.
  unfold send. destruct (sockets_get r w) as [s|]; simpl.
  - destruct (is_open (readyState s)); simpl.
    + destruct (throws r); simpl; [|apply same_core_act].
      destruct hasCb; [apply same_core_act | apply same_core_refl].
    + destruct hasCb; [apply same_core_act | apply same_core_refl].
  - destruct hasCb; [apply same_core_act | apply same_core_refl].
Qed.

Lemma same_core_shutdown_loop (todo : list ReferencedWebSocket) :
  forall g w, same_core w (snd (shutdown_loop todo g w)).
Proof.
  induction todo as [|s todo IH]; intros g w; simpl; [apply same_core_refl|].
  destruct (is_open (readyState s)); [|apply IH].
  eapply same_core_trans; [apply same_core_act | apply IH].
Qed.

Lemma same_core_gracefulShutdown (w : World) :
  same_core w (snd (gracefulShutdown w)).
Proof.
  unfold gracefulShutdown. destruct (_ =? 0); [apply same_core_refl|].
  pose proof (same_core_shutdown_loop (socket_values w)
                {| snapshot := List.map ref (socket_values w); closedCount := 0;
                   resolved := false; forceTimeout := true; listening := [] |} w) as H.
  destruct (shutdown_loop _ _ w) as [g1 w1]. exact H.
Qed.

End Frames.

(** ** Idle timers *)

Section IdleTimers.

Lemma fmap_is_map {A B : Type} (f : A -> B) (l : list A) : f <$> l = List.map f l.
Proof. reflexivity. Qed.

Lemma timers_owned_shrink (w w' : World) :
  heap w' = heap w -> nextTimer w' = nextTimer w ->
  (forall h r, timers w' !! h = Some r -> timers w !! h = Some r) ->
  timers_owned w -> timers_owned w'.
Proof.
  intros Hh Hn Ht [Hown Hold]. split.
  - intros h r Hp. rewrite Hh. apply Hown, Ht, Hp.
  - intros r s h. rewrite Hh, Hn. apply Hold.
Qed.

Lemma timers_owned_same_core (w w' : World) :
  same_core w w' -> timers_owned w -> timers_owned w'.
Proof.
  intros (_ & Hh & _ & Ht & Hn). apply timers_owned_shrink; try assumption.
  intros h r. by rewrite Ht.
Qed.

(** A step that only writes to the log keeps the timers owned. *)
Ltac past_log := apply (timers_owned_same_core _ _ (same_core_act _ _)).

Lemma timers_owned_update (r : string)
    (f : ReferencedWebSocket -> ReferencedWebSocket) (w : World) :
  (forall s, timeoutTimer (f s) = timeoutTimer s) ->
  timers_owned w -> timers_owned (update_socket r f w).
Proof.
  intros Hf [Hown Hold]. unfold update_socket. split; simpl.
  - intros h r' Hp. destruct (Hown h r' Hp) as (s & Hs & Hts).
    destruct (decide (r = r')) as [<-|Hne].
    + exists (f s). rewrite lookup_alter_eq, Hs. simpl. by rewrite Hf.
    + exists s. by rewrite lookup_alter_ne.
  - intros r' s h Hs Hts.
    destruct (decide (r = r')) as [<-|Hne].
    + rewrite lookup_alter_eq in Hs.
      destruct (heap w !! r) as [s0|] eqn:Hs0; [|discriminate Hs].
      simpl in Hs. inversion Hs; subst s. rewrite Hf in Hts. eapply Hold; eauto.
    + rewrite lookup_alter_ne in Hs by assumption. eapply Hold; eauto.
Qed.

Lemma timers_owned_clearTimeout (h : nat) (w : World) :
  timers_owned w -> timers_owned (clearTimeout h w).
Proof.
  apply timers_owned_shrink; try reflexivity.
  intros h' r. simpl. rewrite lookup_delete_Some. tauto.
Qed.


Lemma clear_timer_of_spec (r : string) (s : ReferencedWebSocket) (w : World) :
  heap w !! r = Some s ->
  heap (clear_timer_of r w) = heap w /\
  nextTimer (clear_timer_of r w) = nextTimer w /\
  sockets (clear_timer_of r w) = sockets w /\
  config (clear_timer_of r w) = config w /\
  timers (clear_timer_of r w)
  = match timeoutTimer s with
    | Some h => delete h (timers w)
    | None => timers w
    end /\
  log (clear_timer_of r w)
  = log w ++ match timeoutTimer s with
             | Some h => [ClearTimeout h]
             | None => []
             end.
Proof.
  intros Hs. unfold clear_timer_of. rewrite Hs.
  destruct (timeoutTimer s); simpl; rewrite ?app_nil_r; auto 10.
Qed.

(** What arming the watchdog of an existing socket does. *)
Lemma setupSocketTimeout_spec (r : string) (s : ReferencedWebSocket) (now : Z)
    (w : World) :
  heap w !! r = Some s ->
  truthy_number (timeout (config w)) = true ->
  let w' := setupSocketTimeout r now w in
  let armed := with_lastActivity now (with_timeoutTimer (Some (nextTimer w)) s) in
  heap w' !! r = Some armed /\
  (forall r', r' <> r -> heap w' !! r' = heap w !! r') /\
  timers w'
  = <[nextTimer w := r]>
      (match timeoutTimer s with
       | Some h => delete h (timers w)
       | None => timers w
       end) /\
  nextTimer w' = S (nextTimer w) /\
  sockets w' = sockets w /\ config w' = config w /\
  log w'
  = log w ++ match timeoutTimer s with
             | Some h => [ClearTimeout h]
             | None => []
             end
          ++ [SetTimeout (nextTimer w) (or_number (timeout (config w)) 0)].
Proof.
  intros Hs Hon w' armed. subst w' armed. unfold setupSocketTimeout. rewrite Hon.
  destruct (clear_timer_of_spec r s w Hs) as (Hh & Hn & Hso & Hc & Ht & Hl).
  unfold setTimeout, update_socket. cbn [heap timers nextTimer sockets config log
    act set_timers set_heap].
  rewrite Hh, Hn, Hso, Hc, Ht, Hl.
  split; [rewrite lookup_alter_eq, Hs; reflexivity|].
  split; [intros r' Hne; by rewrite lookup_alter_ne|].
  rewrite <- app_assoc. auto 10.
Qed.

Lemma timers_owned_setup (r : string) (now : Z) (w : World) :
  is_Some (heap w !! r) -> timers_owned w ->
  timers_owned (setupSocketTimeout r now w).
Proof.
  intros [s Hs] Hinv.
  destruct (truthy_number (timeout (config w))) eqn:Hon;
    [|unfold setupSocketTimeout; by rewrite Hon].
  destruct (setupSocketTimeout_spec r s now w Hs Hon)
    as (Hr & Hother & Ht & Hn & _).
  destruct Hinv as [Hown Hold]. split.
  - intros h r' Hp. rewrite Ht in Hp.
    destruct (decide (nextTimer w = h)) as [<-|Hne].
    + rewrite lookup_insert_eq in Hp. inversion Hp; subst r'.
      eexists. split; [exact Hr | reflexivity].
    + rewrite lookup_insert_ne in Hp by assumption.
      assert (Hp' : timers w !! h = Some r' /\ timeoutTimer s <> Some h).
      { destruct (timeoutTimer s) as [h0|]; [|split; [exact Hp | discriminate]].
        apply lookup_delete_Some in Hp as [Hd Hp]. split; [exact Hp | congruence]. }
      destruct Hp' as [Hp' Hnot].
      destruct (Hown h r' Hp') as (s' & Hs' & Hts').
      destruct (decide (r' = r)) as [->|Hr'].
      * rewrite Hs in Hs'. inversion Hs'; subst s'. contradiction.
      * exists s'. by rewrite Hother.
  - intros r' s' h Hs' Hts'. rewrite Hn.
    destruct (decide (r' = r)) as [->|Hr'].
    + rewrite Hr in Hs'. inversion Hs'; subst s'. simpl in Hts'.
      inversion Hts'. lia.
    + rewrite Hother in Hs' by assumption. specialize (Hold r' s' h Hs' Hts'). lia.
Qed.

Lemma clear_timer_of_heap (r : string) (w : World) :
  heap (clear_timer_of r w) = heap w.
Proof.
  unfold clear_timer_of.
  destruct (heap w !! r) as [s|]; [destruct (timeoutTimer s)|]; reflexivity.
Qed.

Lemma setup_keeps_sockets (r : string) (now : Z) (w : World) :
  is_Some (heap (setupSocketTimeout r now w) !! r) <-> is_Some (heap w !! r).
Proof.
  unfold setupSocketTimeout.
  destruct (truthy_number (timeout (config w))); [|reflexivity].
  unfold setTimeout, update_socket. cbn [heap set_heap act set_timers].
  by rewrite lookup_alter_is_Some, clear_timer_of_heap.
Qed.

Lemma timers_owned_reset (r : string) (now : Z) (w : World) :
  is_Some (heap w !! r) -> timers_owned w ->
  timers_owned (resetSocketTimeout r now w) /\
  is_Some (heap (resetSocketTimeout r now w) !! r).
Proof.
  intros Hs Hinv. unfold resetSocketTimeout.
  assert (Hs1 : is_Some (heap (update_socket r (with_lastActivity now) w) !! r))
    by (unfold update_socket; simpl; by rewrite lookup_alter_is_Some).
  split; [|by apply setup_keeps_sockets].
  apply timers_owned_setup; [exact Hs1|].
  apply timers_owned_update; [reflexivity | exact Hinv].
Qed.

Lemma timers_owned_close_handler (ws : string) (code : Z) (reason : string)
    (w : World) :
  timers_owned w -> timers_owned (close_handler ws code reason w).
Proof.
  intros Hinv. unfold close_handler.
  past_log.
  cbn [heap set_sockets].
  destruct (heap w !! ws) as [s|] eqn:Hs;
    [destruct (timeoutTimer s) as [h|] eqn:Hts|];
    try solve [revert Hinv; apply timers_owned_shrink; first [reflexivity | auto]].
  destruct Hinv as [Hown Hold]. unfold update_socket, clearTimeout. split; simpl.
  - intros h' r' Hp. apply lookup_delete_Some in Hp as [Hne Hp].
    destruct (Hown h' r' Hp) as (s' & Hs' & Hts').
    destruct (decide (ws = r')) as [<-|Hr'].
    + rewrite Hs in Hs'. inversion Hs'; subst s'. congruence.
    + exists s'. by rewrite lookup_alter_ne.
  - intros r' s' h' Hs' Hts'.
    destruct (decide (ws = r')) as [<-|Hr'].
    + rewrite lookup_alter_eq, Hs in Hs'. simpl in Hs'. inversion Hs'; subst s'.
      discriminate Hts'.
    + rewrite lookup_alter_ne in Hs' by assumption. eapply Hold; eauto.
Qed.

Lemma timers_owned_iter (f : World -> World) (n : nat) (w : World) :
  (forall w0, timers_owned w0 -> timers_owned (f w0)) ->
  timers_owned w -> timers_owned (Nat.iter n f w).
Proof.
  intros Hf Hw. induction n as [|n IH]; [exact Hw|].
  change (Nat.iter (S n) f w) with (f (Nat.iter n f w)). by apply Hf.
Qed.

Lemma timers_owned_terminate_each (socks : list ReferencedWebSocket) :
  forall w, timers_owned w -> timers_owned (terminate_each socks w).
Proof.
  induction socks as [|s socks IH]; intros w Hw; simpl; [exact Hw|].
  apply IH. past_log.
  destruct (timeoutTimer s); [by apply timers_owned_clearTimeout | exact Hw].
Qed.

Lemma timers_owned_destroy_each (socks : list ReferencedWebSocket) :
  forall w, timers_owned w -> timers_owned (destroy_each socks w).
Proof.
  induction socks as [|s socks IH]; intros w Hw; simpl; [exact Hw|].
  apply IH.
  assert (Hw1 : timers_owned (match timeoutTimer s with
                              | Some h => clearTimeout h w
                              | None => w
                              end))
    by (destruct (timeoutTimer s); [by apply timers_owned_clearTimeout | exact Hw]).
  destruct (is_open (readyState s)); [|exact Hw1].
  by past_log.
Qed.

Lemma timers_owned_clear_maps (w : World) :
  timers_owned w -> timers_owned (clear_maps w).
Proof. apply timers_owned_shrink; auto. Qed.


Lemma add_register_owned ws ps resumed (w : World) :
  is_Some (heap w !! ws) -> timers_owned w ->
  timers_owned (add_register ws ps resumed w).
Proof.
  intros Hs Hw. unfold add_register.
  past_log.
  apply timers_owned_update; [reflexivity|].
  set (w2 := set_sockets _ _).
  assert (Hw2 : timers_owned w2).
  { unfold w2. apply (timers_owned_shrink (update_socket ws (with_params (fromEntries ps)) w));
      try reflexivity; [auto|].
    apply timers_owned_update; [reflexivity | exact Hw]. }
  destruct (timeout_enabled (config w)); [|exact Hw2].
  apply timers_owned_setup; [|exact Hw2].
  unfold w2, update_socket. simpl. by rewrite lookup_alter_is_Some.
Qed.

Lemma add_catch_owned e ws (w : World) :
  timers_owned w -> timers_owned (add_catch e ws w).
Proof.
  intros Hw. unfold add_catch.
  destruct (Nat.eqb (errorHandlers w) 0); past_log; by past_log.
Qed.

Lemma add_auth_owned ws req ps resumed (w : World) :
  is_Some (heap w !! ws) -> timers_owned w ->
  timers_owned (add_auth ws req ps resumed w).
Proof.
  intros Hs Hw. unfold add_auth.
  assert (Hw0 : timers_owned (act (Evaluated CheckAuth) w))
    by (by past_log).
  destruct (match authHandler (config w) with
            | Some h => h
            | None => fun _ => Returns true
            end req) as [[|]|e].
  - by apply add_register_owned.
  - by past_log.
  - by apply add_catch_owned.
Qed.

Lemma add_params_owned ws req ps resumed (w : World) :
  is_Some (heap w !! ws) -> timers_owned w ->
  timers_owned (add_params ws req ps resumed w).
Proof.
  intros Hs Hw. unfold add_params.
  destruct (requiredParams (config w)) as [required|]; [|by apply add_auth_owned].
  assert (Hw0 : timers_owned (act (Evaluated CheckRequiredParams) w))
    by (by past_log).
  destruct (first_missing required ps); [|by apply add_auth_owned].
  by past_log.
Qed.

Lemma add_key_owned ws req ps now resumed (w : World) :
  is_Some (heap w !! ws) -> timers_owned w ->
  timers_owned (add_key ws req ps now resumed w).
Proof.
  intros Hs Hw. unfold add_key.
  destruct (useConnectionKeys (config w)) as [[|]|]; try by apply add_params_owned.
  pose proof (same_core_validate (or_string (params_get "key" ps) "") now
                (act (Evaluated CheckKey) w)) as Hsc.
  destruct (validateConnectionKey _ now (act (Evaluated CheckKey) w)) as [ok w1].
  simpl in Hsc.
  assert (Hw1 : timers_owned w1).
  { apply (timers_owned_same_core _ _ Hsc).
    by past_log. }
  destruct ok.
  - apply add_params_owned; [|exact Hw1].
    destruct Hsc as (_ & Hh & _). by rewrite Hh.
  - by past_log.
Qed.

Lemma add_owned ws req now resumed (w : World) :
  is_Some (heap w !! ws) -> timers_owned w ->
  timers_owned (add ws req now resumed w).
Proof.
  intros Hs Hw. unfold add.
  pose proof (same_core_checkRateLimit req now (act (Evaluated CheckRateLimit) w)) as Hsc.
  destruct (checkRateLimit req now (act (Evaluated CheckRateLimit) w)) as [allowed w1].
  simpl in Hsc.
  assert (Hw1 : timers_owned w1).
  { apply (timers_owned_same_core _ _ Hsc).
    by past_log. }
  assert (Hs1 : is_Some (heap w1 !! ws))
    by (destruct Hsc as (_ & Hh & _); by rewrite Hh).
  destruct allowed; simpl.
  - assert (Hw2 : timers_owned (act (Evaluated CheckCapacity) w1))
      by (by past_log).
    destruct (at_capacity _).
    + by past_log.
    + destruct (searchParams req); [by apply add_key_owned | by apply add_catch_owned].
  - by past_log.
Qed.

(** Every operation and every event keeps the timers owned. *)
Lemma exec_owned (op : Operation) (w : World) :
  timers_owned w -> timers_owned (exec op w).
Proof.
  intros Hw. destruct op; simpl.
  - destruct (heap w !! ws) as [s|] eqn:Hs; [exact Hw|].
    destruct Hw as [Hown Hold]. split; simpl.
    + intros h r Hp. destruct (Hown h r Hp) as (s' & Hs' & Hts').
      exists s'. rewrite lookup_insert_ne; [auto|]. congruence.
    + intros r s' h Hs' Hts'. destruct (decide (ws = r)) as [<-|Hne].
      * rewrite lookup_insert_eq in Hs'. inversion Hs'; subst s'. discriminate Hts'.
      * rewrite lookup_insert_ne in Hs' by assumption. eapply Hold; eauto.
  - by apply timers_owned_update.
  - unfold on_close. destruct (heap w !! ws) as [s0|]; [|exact Hw].
    apply timers_owned_iter; [intros w0; apply timers_owned_close_handler|].
    by apply timers_owned_update.
  - apply (timers_owned_same_core w); [apply same_core_on_error | exact Hw].
  - unfold on_activity. destruct (heap w !! ws) as [s0|] eqn:Hs; [|exact Hw].
    assert (Hboth : forall n,
              timers_owned (Nat.iter n (resetSocketTimeout ws now) w) /\
              is_Some (heap (Nat.iter n (resetSocketTimeout ws now) w) !! ws)).
    { induction n as [|n [IH1 IH2]]; [split; [exact Hw | exists s0; exact Hs]|].
      change (Nat.iter (S n) (resetSocketTimeout ws now) w)
        with (resetSocketTimeout ws now (Nat.iter n (resetSocketTimeout ws now) w)).
      by apply timers_owned_reset. }
    apply Hboth.
  - unfold timer_fired. destruct (timers w !! h) as [r|]; [|exact Hw].
    assert (Hw1 : timers_owned (set_timers (delete h (timers w)) (nextTimer w) w)).
    { revert Hw. apply timers_owned_shrink; try reflexivity.
      intros h' r'. simpl. rewrite lookup_delete_Some. tauto. }
    destruct (open_in _ r); [|exact Hw1].
    by past_log.
  - revert Hw. apply timers_owned_shrink; auto.
  - by apply (timers_owned_same_core _ _ (same_core_terminate_open _ _)).
  - destruct (heap w !! ws) as [s0|] eqn:Hs; [|exact Hw].
    apply add_owned; [rewrite Hs; eauto | exact Hw].
  - revert Hw. apply timers_owned_shrink; auto.
  - by apply (timers_owned_same_core _ _ (same_core_broadcast _ _ _ _ _)).
  - by apply (timers_owned_same_core _ _ (same_core_send _ _ _ _ _)).
  - exact Hw.
  - by apply (timers_owned_same_core _ _ (same_core_gracefulShutdown _)).
  - unfold resetTimeout, sockets_get.
    destruct (bool_decide (r ∈ sockets w)); [|exact Hw].
    destruct (heap w !! r) as [s0|] eqn:Hs; [|exact Hw].
    simpl. apply timers_owned_reset; [rewrite Hs; eauto | exact Hw].
  - unfold terminate. destruct (String.eqb (or_string r "") ""); simpl.
    + apply timers_owned_clear_maps. by apply timers_owned_terminate_each.
    + destruct (sockets_get (or_string r "") w) as [s0|]; [|exact Hw].
      simpl. past_log.
      destruct (timeoutTimer s0); [by apply timers_owned_clearTimeout | exact Hw].
  - unfold destroy.
    past_log.
    assert (Hw1 : timers_owned (clear_maps (destroy_each (socket_values w) w)))
      by (apply timers_owned_clear_maps; by apply timers_owned_destroy_each).
    destruct (disposer (config w)); [|exact Hw1].
    by past_log.
  - unfold new_url. destruct (useConnectionKeys (config w)) as [[|]|]; exact Hw.
  - exact Hw.
  - exact Hw.
Qed.

Lemma run_owned (ops : list Operation) :
  forall w, timers_owned w -> timers_owned (run ops w).
Proof.
  induction ops as [|op ops IH]; intros w Hw; [exact Hw|].
  apply IH. by apply exec_owned.
Qed.

Lemma new_controller_owned (cfg : WebSocketEndpointConfig) :
  timers_owned (new_controller cfg).
Proof.
  split; simpl.
  - intros h r Hp. rewrite lookup_empty in Hp. discriminate Hp.
  - intros r s h Hs. rewrite lookup_empty in Hs. discriminate Hs.
Qed.

End IdleTimers.

Section PendingTimers.

Lemma pending_timers_In (r : string) (h : nat) (w : World) :
  List.In h (pending_timers r w) <-> timers w !! h = Some r.
Proof.
  unfold pending_timers. rewrite in_map_iff. split.
  - intros ([h' r'] & Hfst & Hin). simpl in Hfst. subst h'.
    apply filter_In in Hin as [Hin Hp]. simpl in Hp.
    apply String.eqb_eq in Hp. subst r'.
    apply list_elem_of_In in Hin. by apply elem_of_map_to_list in Hin.
  - intros Hp. exists (h, r). split; [reflexivity|]. apply filter_In. split.
    + apply list_elem_of_In. by apply elem_of_map_to_list.
    + simpl. apply String.eqb_refl.
Qed.

Lemma NoDup_filter_fst {A B : Type} (p : A * B -> bool) (l : list (A * B)) :
  NoDup (List.map fst l) -> NoDup (List.map fst (List.filter p l)).
Proof.
  induction l as [|e l IH]; simpl; [auto|].
  intros Hnd. apply NoDup_cons in Hnd as [Hnotin Hnd].
  destruct (p e); simpl; [|by apply IH].
  apply NoDup_cons. split; [|by apply IH].
  intros Hin. apply Hnotin. apply list_elem_of_In.
  apply list_elem_of_In, in_map_iff in Hin as (e' & He' & Hin).
  apply filter_In in Hin as [Hin _]. apply in_map_iff. eauto.
Qed.

Lemma pending_timers_NoDup (r : string) (w : World) :
  NoDup (pending_timers r w).
Proof.
  unfold pending_timers. apply NoDup_filter_fst.
  rewrite <- fmap_is_map. apply NoDup_fst_map_to_list.
Qed.

Lemma pending_timers_at_most_one (r : string) (w : World) :
  timers_owned w -> (List.length (pending_timers r w) <= 1)%nat.
Proof.
  intros [Hown _].
  pose proof (pending_timers_NoDup r w) as Hnd.
  assert (Hsame : forall x y, List.In x (pending_timers r w) ->
                    List.In y (pending_timers r w) -> x = y).
  { intros x y Hx Hy. apply pending_timers_In in Hx, Hy.
    destruct (Hown x r Hx) as (s & Hs & Hsx).
    destruct (Hown y r Hy) as (s' & Hs' & Hsy). congruence. }
  destruct (pending_timers r w) as [|a [|b l]]; simpl; try lia.
  exfalso. apply NoDup_cons in Hnd as [Hnotin _]. apply Hnotin.
  rewrite (Hsame a b); simpl; auto. apply list_elem_of_here.
Qed.

Lemma pending_timers_only (r : string) (h : nat) (w : World) :
  timers_owned w -> timers w !! h = Some r -> pending_timers r w = [h].
Proof.
  intros Hw Hp. pose proof (pending_timers_at_most_one r w Hw) as Hlen.
  apply pending_timers_In in Hp.
  destruct (pending_timers r w) as [|a [|b l]]; simpl in *; try lia.
  destruct Hp as [->|[]]. reflexivity.
Qed.

End PendingTimers.

Section Rearming.

(** Arming the watchdog of an existing socket replaces its timer. *)
Lemma rearm_replaces (r : string) (s : ReferencedWebSocket) (now : Z) (w : World) :
  timers_owned w -> heap w !! r = Some s ->
  truthy_number (timeout (config w)) = true ->
  (forall h, timeoutTimer s = Some h ->
     timers (setupSocketTimeout r now w) !! h = None) /\
  pending_timers r (setupSocketTimeout r now w) = [nextTimer w] /\
  log (setupSocketTimeout r now w)
  = log w ++ match timeoutTimer s with
             | Some h => [ClearTimeout h]
             | None => []
             end
          ++ [SetTimeout (nextTimer w) (or_number (timeout (config w)) 0)].
Proof.
  intros Hw Hs Hon.
  destruct (setupSocketTimeout_spec r s now w Hs Hon)
    as (_ & _ & Ht & _ & _ & _ & Hlog).
  split; [|split; [|exact Hlog]].
  - intros h Hts. rewrite Ht, Hts.
    destruct Hw as [_ Hold]. specialize (Hold r s h Hs Hts).
    rewrite lookup_insert_ne by lia. apply lookup_delete_eq.
  - apply pending_timers_only.
    + apply timers_owned_setup; [rewrite Hs; eauto | exact Hw].
    + rewrite Ht. apply lookup_insert_eq.
Qed.

Lemma timeout_enabled_truthy (cfg : WebSocketEndpointConfig) :
  timeout_enabled cfg = true -> truthy_number (timeout cfg) = true.
Proof.
  unfold timeout_enabled, truthy_number. destruct (timeout cfg) as [t|]; [|discriminate].
  intros Ht. apply negb_true_iff. lia.
Qed.

End Rearming.

(** C7: in every state that a controller reaches, whatever operations and
    events led to it, at most one idle-timeout timer is pending for any
    connection. Arming the watchdog of a socket (on admission, in the tail
    of [add]) and re-arming it ([resetSocketTimeout], on a message, ping or
    pong and on [resetTimeout]) first clears the timer the socket holds and
    then schedules the new one: afterwards the old handle is not pending and
    the new timer is the only pending timer of the socket. *)
Theorem idle_timers_never_stack
    (cfg : WebSocketEndpointConfig) (ops : list Operation) :
  let w := run ops (new_controller cfg) in
  (forall r, (List.length (pending_timers r w) <= 1)%nat) /\
  (forall r s now,
     heap w !! r = Some s -> truthy_number (timeout (config w)) = true ->
     forall w',
       w' = setupSocketTimeout r now w \/ w' = resetSocketTimeout r now w ->
       (forall h, timeoutTimer s = Some h -> timers w' !! h = None) /\
       pending_timers r w' = [nextTimer w] /\
       log w'
       = log w ++ match timeoutTimer s with
                  | Some h => [ClearTimeout h]
                  | None => []
                  end
               ++ [SetTimeout (nextTimer w) (or_number (timeout (config w)) 0)]) /\
  (forall ws s ps resumed,
     heap w !! ws = Some s -> timeout_enabled (config w) = true ->
     (forall h, timeoutTimer s = Some h ->
        timers (add_register ws ps resumed w) !! h = None) /\
     pending_timers ws (add_register ws ps resumed w) = [nextTimer w]) /\
  (forall r now,
     fst (resetTimeout r now w) = true ->
     snd (resetTimeout r now w) = resetSocketTimeout r now w /\
     exists s, heap w !! r = Some s) /\
  (forall ws now s, heap w !! ws = Some s -> activityListeners s = 1%nat ->
     exec (OnActivity ws now) w = resetSocketTimeout ws now w).
Proof.
  intros w.
  assert (Hw : timers_owned w) by (apply run_owned, new_controller_owned).
  split; [intros r; by apply pending_timers_at_most_one|].
  split; [|split; [|split]].
  - intros r s now Hs Hon w' [->| ->]; [by apply rearm_replaces|].
    unfold resetSocketTimeout.
    set (w0 := update_socket r (with_lastActivity now) w).
    destruct (rearm_replaces r (with_lastActivity now s) now w0) as (Hold & Hnew & Hlog).
    + unfold w0. apply timers_owned_update; [reflexivity | exact Hw].
    + unfold w0, update_socket. simpl. by rewrite lookup_alter_eq, Hs.
    + exact Hon.
    + split; [exact Hold|]. split; [exact Hnew | exact Hlog].
  - intros ws s ps resumed Hs Hon. unfold add_register. rewrite Hon.
    set (w2 := set_sockets _ _).
    destruct (rearm_replaces ws (with_params (fromEntries ps) s) resumed w2)
      as (Hold & Hnew & _).
    + unfold w2.
      apply (timers_owned_shrink (update_socket ws (with_params (fromEntries ps)) w));
        try reflexivity; [auto|].
      apply timers_owned_update; [reflexivity | exact Hw].
    + unfold w2, update_socket. simpl. by rewrite lookup_alter_eq, Hs.
    + by apply timeout_enabled_truthy.
    + split; [exact Hold | exact Hnew].
  - intros r now Hok. unfold resetTimeout, sockets_get in *.
    destruct (bool_decide (r ∈ sockets w)); [|discriminate Hok].
    destruct (heap w !! r) as [s|]; [|discriminate Hok]. simpl. eauto.
  - intros ws now s Hs Hone. simpl. unfold on_activity. rewrite Hs, Hone. reflexivity.
Qed.

Lemma idle_timers_never_stack_witness :
  let w := run [TransportConnection "a" 0; CallAdd "a" plain_request 0 0;
                OnActivity "a" 10; OnActivity "a" 20; CallResetTimeout "a" 30]
             (new_controller timed_config) in
  (List.length (pending_timers "a" w) <= 1)%nat /\
  pending_timers "a" (resetSocketTimeout "a" 40 w) = [4%nat].
Proof.
  intros w.
  destruct (idle_timers_never_stack timed_config
              [TransportConnection "a" 0; CallAdd "a" plain_request 0 0;
               OnActivity "a" 10; OnActivity "a" 20; CallResetTimeout "a" 30])
    as (Hone & Harm & _).
  fold w in Hone, Harm. split; [apply Hone|].
  destruct (heap w !! "a") as [s|] eqn:Hs; [|vm_compute in Hs; discriminate Hs].
  assert (Hon : truthy_number (timeout (config w)) = true)
    by (vm_compute; reflexivity).
  destruct (Harm "a" s 40 Hs Hon (resetSocketTimeout "a" 40 w)) as (_ & Hnew & _);
    [right; reflexivity|].
  rewrite Hnew. vm_compute. reflexivity.
Defined.

(** ** The registry *)

Section Registry.

Lemma sockets_reset (r : string) (now : Z) (w : World) :
  sockets (resetSocketTimeout r now w) = sockets w.
Proof.
  unfold resetSocketTimeout.
  destruct (quiet_setupSocketTimeout r now (update_socket r (with_lastActivity now) w))
    as (_ & Hs & _).
  exact Hs.
Qed.

Lemma sockets_iter (f : World -> World) (n : nat) (w : World) :
  (forall w0, sockets (f w0) = sockets w0) -> sockets (Nat.iter n f w) = sockets w.
Proof.
  intros Hf. induction n as [|n IH]; [reflexivity|].
  change (Nat.iter (S n) f w) with (f (Nat.iter n f w)). by rewrite Hf.
Qed.

Lemma sockets_set_keeps (ws r : string) (s : list string) :
  r ∈ s -> r ∈ sockets_set ws s.
Proof.
  intros Hr. unfold sockets_set. destruct (bool_decide (ws ∈ s)); [exact Hr|].
  apply elem_of_app. by left.
Qed.

Lemma sockets_delete_spec (ws r : string) (s : list string) :
  r ∈ sockets_delete ws s <-> r <> ws /\ r ∈ s.
Proof.
  unfold sockets_delete. rewrite !list_elem_of_In, filter_In.
  rewrite negb_true_iff, String.eqb_neq. tauto.
Qed.

(** No operation other than the three that are meant to removes a
    registered connection. *)
Lemma exec_keeps_registry (op : Operation) (w : World) (r : string) :
  removes_connections op = false -> r ∈ sockets w -> r ∈ sockets (exec op w).
Proof.
  intros Hop Hr. destruct op; simpl in Hop; try discriminate Hop; simpl.
  - by destruct (heap w !! ws).
  - exact Hr.
  - destruct (same_core_on_error ws e w) as (_ & _ & Hs & _). by rewrite Hs.
  - unfold on_activity. destruct (heap w !! ws); [|exact Hr].
    rewrite sockets_iter; [exact Hr|]. intros w0. apply sockets_reset.
  - unfold timer_fired. destruct (timers w !! h); [|exact Hr].
    by destruct (open_in _ _).
  - exact Hr.
  - destruct (same_core_terminate_open (socket_values w) w) as (_ & _ & Hs & _).
    by rewrite Hs.
  - destruct (heap w !! ws); [|exact Hr].
    destruct (add_ends ws req now resumed w) as (_ & _ & _ & _ & _ & Hs).
    rewrite Hs. destruct (snd (spec_admission req now w)); simpl; try exact Hr.
    by apply sockets_set_keeps.
  - exact Hr.
  - match goal with |- context [broadcast ?d ?f ?c ?t w] =>
      destruct (same_core_broadcast d f c t w) as (_ & _ & Hs & _) end.
    by rewrite Hs.
  - match goal with |- context [send ?r1 ?d ?c ?t w] =>
      destruct (same_core_send r1 d c t w) as (_ & _ & Hs & _) end.
    by rewrite Hs.
  - exact Hr.
  - destruct (same_core_gracefulShutdown w) as (_ & _ & Hs & _). by rewrite Hs.
  - unfold resetTimeout. destruct (sockets_get _ w); [|exact Hr].
    simpl. by rewrite sockets_reset.
  - unfold terminate. rewrite Hop.
    destruct (sockets_get _ w) as [s|]; [|exact Hr].
    simpl. by destruct (timeoutTimer s).
  - unfold new_url. by destruct (useConnectionKeys (config w)) as [[|]|].
  - exact Hr.
  - exact Hr.
Qed.

End Registry.

(** C8 (as stated, refuted): [terminate()] without a reference is not the
    close handler, and it empties a registry that holds two connections. *)
Lemma close_handler_not_the_only_removal :
  ~ (forall (op : Operation) (w : World),
       (forall ws code reason, op <> OnClose ws code reason) ->
       (List.length (sockets w) <= List.length (sockets (exec op w)))%nat).
Proof.
  intros H. specialize (H (CallTerminate None) (two_open open_config)).
  assert (Hlen : List.length (sockets (two_open open_config)) = 2%nat)
    by (vm_compute; reflexivity).
  assert (Hafter : List.length (sockets (exec (CallTerminate None) (two_open open_config)))
                   = 0%nat) by (vm_compute; reflexivity).
  rewrite Hlen, Hafter in H. assert (2 <= 0)%nat by (apply H; discriminate). lia.
Qed.

(** C8 (amended): the close handler removes exactly the closing connection
    from the registry, cancels the timer that connection holds and emits
    [disconnect] with the closing code and reason. It is the only operation
    that removes a single connection: besides it only [terminate()] without
    a reference and [destroy()] take entries out of the connection map, and
    they empty it; under every other operation and event every registered
    connection stays registered. *)
Theorem registry_shrinks_only_by_design :
  (forall (op : Operation) (w : World) (r : string),
     removes_connections op = false -> r ∈ sockets w -> r ∈ sockets (exec op w)) /\
  (forall w : World,
     sockets (fst (terminate None w)) = [] /\ sockets (destroy w) = []) /\
  (forall (ws : string) (code : Z) (reason : string) (w : World),
     let w' := close_handler ws code reason w in
     sockets w' = sockets_delete ws (sockets w) /\
     (ws ∉ sockets w') /\
     (forall r, r <> ws -> (r ∈ sockets w' <-> r ∈ sockets w)) /\
     (forall s h, heap w !! ws = Some s -> timeoutTimer s = Some h ->
        timers w' !! h = None /\ (timeoutTimer <$> heap w' !! ws) = Some None) /\
     exists d, log w' = log w ++ d ++ [Emit (EvDisconnect ws code reason)]) /\
  (forall (ws : string) (code : Z) (reason : string) (w : World) (s : ReferencedWebSocket),
     heap w !! ws = Some s -> closeListeners s = 1%nat ->
     exec (OnClose ws code reason) w
     = close_handler ws code reason
         (update_socket ws
            (fun s => with_listeners O (errorListeners s) (activityListeners s) s) w)).
Proof.
  split; [exact exec_keeps_registry|]. split; [|split].
  - intros w. split; [reflexivity|]. unfold destroy.
    destruct (disposer (config w)); reflexivity.
  - intros ws code reason w w'. subst w'. unfold close_handler.
    cbn [sockets act set_sockets heap].
    assert (Hsock : forall w0, sockets w0 = sockets_delete ws (sockets w) ->
              sockets (match heap w !! ws with
                       | Some s =>
                           match timeoutTimer s with
                           | Some h => update_socket ws (with_timeoutTimer None)
                                         (clearTimeout h w0)
                           | None => w0
                           end
                       | None => w0
                       end) = sockets_delete ws (sockets w)).
    { intros w0 H0. destruct (heap w !! ws) as [s|]; [destruct (timeoutTimer s)|];
        exact H0. }
    rewrite (Hsock (set_sockets (sockets_delete ws (sockets w)) w) eq_refl).
    split; [reflexivity|]. split; [|split; [|split]].
    + rewrite sockets_delete_spec. tauto.
    + intros r Hne. rewrite sockets_delete_spec. tauto.
    + intros s h Hs Hts. rewrite Hs, Hts. unfold update_socket, clearTimeout.
      cbn [timers heap act set_timers set_heap set_sockets].
      split; [apply lookup_delete_eq|]. by rewrite lookup_alter_eq, Hs.
    + destruct (heap w !! ws) as [s|]; [destruct (timeoutTimer s) as [h|]|].
      * exists [ClearTimeout h]. cbn. by rewrite <- app_assoc.
      * exists []. reflexivity.
      * exists []. reflexivity.
  - intros ws code reason w s Hs Hone. simpl. unfold on_close. rewrite Hs, Hone.
    reflexivity.
Qed.

Lemma registry_shrinks_only_by_design_witness :
  let w := two_open timed_config in
  sockets (exec (CallSend "a" "hello" true (fun _ => None)) w) = ["a"; "b"] /\
  "b" ∈ sockets (exec (CallTerminate (Some "a")) w) /\
  sockets (exec (OnClose "a" 1000 "bye") w) = ["b"] /\
  pending_timers "a" (exec (OnClose "a" 1000 "bye") w) = [] /\
  sockets (exec CallDestroy w) = [].
Proof.
  intros w.
  destruct registry_shrinks_only_by_design as (Hkeep & Hclear & Hclose & Hon).
  split; [vm_compute; reflexivity|].
  split; [apply Hkeep; [reflexivity | vm_compute; apply list_elem_of_further, list_elem_of_here]|].
  split; [vm_compute; reflexivity|].
  split; [vm_compute; reflexivity|].
  apply Hclear.
Defined.

(** * Further properties of the controller *)

(** ** The periodic sweep of pending keys *)

Section KeySweep.

Lemma filter_swap {A : Type} (f g : A -> bool) (l : list A) :
  List.filter f (List.filter g l) = List.filter g (List.filter f l).
Proof.
  induction l as [|x l IH]; [reflexivity|]. simpl.
  destruct (f x) eqn:Hf, (g x) eqn:Hg; simpl; rewrite ?Hf, ?Hg, IH; reflexivity.
Qed.

(** An entry that the sweep at [now] removes cannot match a validation at
    [now] or later. *)
Lemma find_pending_swept (k : string) (now t : Z) (m : JsMap.t PendingKey) :
  now <= t ->
  find_pending k t (List.filter (fun e => negb (now >? expiresAt (snd e))) m)
  = find_pending k t m.
Proof.
  intros Hle. induction m as [|[id e] m IH]; [reflexivity|]. simpl.
  destruct (now >? expiresAt e) eqn:Hexp; simpl.
  - assert ((t <=? expiresAt e) = false) as -> by lia.
    rewrite andb_false_r. exact IH.
  - destruct (String.eqb (key e) k && (t <=? expiresAt e)); [reflexivity | exact IH].
Qed.

End KeySweep.

(** X1: [cleanupExpiredKeys] at clock reading [now] keeps, in their order,
    exactly the pending entries that have not expired ([expiresAt >= now]),
    and it cannot be observed by a validation at [now] or later: the
    validation gives the same answer with and without the sweep, and
    sweeping before validating ends in the same state as validating before
    sweeping. *)
Theorem sweep_is_transparent (now : Z) (w : World) :
  (forall id e, (id, e) ∈ pendingKeys (cleanupExpiredKeys now w) <->
                (id, e) ∈ pendingKeys w /\ now <= expiresAt e) /\
  pendingKeys (cleanupExpiredKeys now w) `sublist_of` pendingKeys w /\
  (forall k t, now <= t ->
     validateConnectionKey k t (cleanupExpiredKeys now w)
     = (fst (validateConnectionKey k t w),
        cleanupExpiredKeys now (snd (validateConnectionKey k t w)))).
Proof.
  split; [|split].
  - intros id e. unfold cleanupExpiredKeys. cbn [pendingKeys set_pendingKeys].
    rewrite !list_elem_of_In, filter_In. cbn [snd].
    rewrite negb_true_iff. split; intros [H1 H2]; (split; [exact H1 | lia]).
  - unfold cleanupExpiredKeys. cbn [pendingKeys set_pendingKeys].
    induction (pendingKeys w) as [|e m IH]; [constructor|]. simpl.
    destruct (now >? expiresAt (snd e)); simpl; by constructor.
  - intros k t Hle. unfold validateConnectionKey.
    destruct (String.eqb k ""); [reflexivity|].
    unfold cleanupExpiredKeys at 1. cbn [pendingKeys set_pendingKeys].
    rewrite find_pending_swept by exact Hle.
    destruct (find_pending k t (pendingKeys w)) as [id|]; [|reflexivity].
    unfold cleanupExpiredKeys, JsMap.delete. cbn [fst snd pendingKeys set_pendingKeys].
    f_equal. unfold set_pendingKeys. cbn. f_equal. apply filter_swap.
Qed.

Lemma sweep_is_transparent_witness :
  let w := snd (generatePendingConnectionKey (List.repeat Byte.x2a 32) [] 1000
                  (snd (generatePendingConnectionKey (List.repeat Byte.x07 32) []
                          (-200000) (new_controller empty_config)))) in
  List.length (pendingKeys w) = 2%nat /\
  List.length (pendingKeys (cleanupExpiredKeys 2000 w)) = 1%nat /\
  validateConnectionKey (base64url (List.repeat Byte.x2a 32)) 3000 (cleanupExpiredKeys 2000 w)
  = (true, cleanupExpiredKeys 2000
             (snd (validateConnectionKey (base64url (List.repeat Byte.x2a 32)) 3000 w))).
Proof.
  intros w.
  destruct (sweep_is_transparent 2000 w) as (_ & _ & Hval).
  split; [vm_compute; reflexivity|]. split; [vm_compute; reflexivity|].
  rewrite (Hval _ 3000) by lia. f_equal.
Defined.

(** ** The format of connection keys *)

Section KeyFormat.

Lemma split_digits (x d : N) :
  (d <> 0 -> exists q r, x / d = q /\ x mod d = r /\ x = d * q + r /\ r < d)%N.
Proof.
  intros Hd. exists (x / d)%N, (x mod d)%N. split; [reflexivity|]. split; [reflexivity|].
  split; [apply N.div_mod'|]. by apply N.mod_lt.
Qed.

Lemma byte_lt (a : Byte.byte) : (Byte.to_N a < 256)%N.
Proof. pose proof (Byte.to_N_bounded a). lia. Qed.

Lemma byte_inj (a b : Byte.byte) : Byte.to_N a = Byte.to_N b -> a = b.
Proof.
  intros H. pose proof (Byte.of_to_N a) as Ha. rewrite H, Byte.of_to_N in Ha.
  by injection Ha.
Qed.

Lemma below_64 (n : N) : (n < 64)%N -> In (N.to_nat n) (seq 0 64).
Proof. intros H. apply in_seq. lia. Qed.

Lemma base64url_digit_char (n : N) :
  (n < 64)%N -> base64url_char (base64url_digit n) = true.
Proof.
  intros H.
  assert (Hall : forallb (fun k => base64url_char (base64url_digit (N.of_nat k)))
                   (seq 0 64) = true) by (vm_compute; reflexivity).
  rewrite forallb_forall in Hall. specialize (Hall _ (below_64 n H)).
  by rewrite N2Nat.id in Hall.
Qed.

Lemma base64url_digit_inj (n m : N) :
  (n < 64)%N -> (m < 64)%N -> base64url_digit n = base64url_digit m -> n = m.
Proof.
  intros Hn Hm Heq.
  assert (Hall : forallb (fun i => forallb (fun j =>
                    implb (Ascii.eqb (base64url_digit (N.of_nat i))
                                     (base64url_digit (N.of_nat j)))
                          (Nat.eqb i j)) (seq 0 64)) (seq 0 64) = true)
    by (vm_compute; reflexivity).
  rewrite forallb_forall in Hall. specialize (Hall _ (below_64 n Hn)).
  rewrite forallb_forall in Hall. specialize (Hall _ (below_64 m Hm)).
  rewrite !N2Nat.id, Heq, Ascii.eqb_refl in Hall. simpl in Hall.
  apply Nat.eqb_eq in Hall. lia.
Qed.

(** Induction over a byte string three bytes at a time, as the encoder
    reads it. *)
Lemma by_triples (P : list Byte.byte -> Prop) :
  P [] -> (forall a, P [a]) -> (forall a b, P [a; b]) ->
  (forall a b c rest, P rest -> P (a :: b :: c :: rest)) ->
  forall bs, P bs.
Proof.
  intros H0 H1 H2 H3 bs.
  assert (H : P bs /\ (forall a, P (a :: bs)) /\ (forall a b, P (a :: b :: bs))).
  { induction bs as [|c bs (IH0 & IH1 & IH2)]; [auto|].
    split; [apply IH1|]. split; [intros a; apply IH2|]. intros a b. by apply H3. }
  apply H.
Qed.

Ltac digits_of x d q r E B :=
  destruct (split_digits x d) as (q & r & -> & -> & E & B); [discriminate|].

Lemma base64url_length (bs : list Byte.byte) :
  String.length (base64url bs) = ((4 * List.length bs + 2) / 3)%nat.
Proof.
  induction bs as [| | |a b c rest IH] using by_triples; try reflexivity.
  change (String.length (base64url (a :: b :: c :: rest)))
    with (S (S (S (S (String.length (base64url rest)))))).
  rewrite IH. cbn [List.length].
  replace (4 * S (S (S (List.length rest))) + 2)%nat
    with ((4 * List.length rest + 2) + 4 * 3)%nat by lia.
  rewrite Nat.div_add by discriminate. lia.
Qed.

Lemma base64url_chars (bs : list Byte.byte) :
  forallb base64url_char (list_ascii_of_string (base64url bs)) = true.
Proof.
  induction bs as [|a|a b|a b c rest IH] using by_triples; [reflexivity| | |].
  - pose proof (byte_lt a) as Ha. cbn [base64url list_ascii_of_string forallb].
    digits_of (Byte.to_N a) 4%N q r E B.
    rewrite !base64url_digit_char by lia. reflexivity.
  - pose proof (byte_lt a) as Ha. pose proof (byte_lt b) as Hb.
    cbn [base64url list_ascii_of_string forallb].
    digits_of (Byte.to_N a) 4%N q1 r1 E1 B1.
    digits_of (Byte.to_N b) 16%N q2 r2 E2 B2.
    rewrite !base64url_digit_char by lia. reflexivity.
  - pose proof (byte_lt a) as Ha. pose proof (byte_lt b) as Hb.
    pose proof (byte_lt c) as Hc.
    change (base64url (a :: b :: c :: rest))
      with (let x := Byte.to_N a in
            let y := Byte.to_N b in
            let z := Byte.to_N c in
            String (base64url_digit (x / 4))
              (String (base64url_digit ((x mod 4) * 16 + y / 16))
                 (String (base64url_digit ((y mod 16) * 4 + z / 64))
                    (String (base64url_digit (z mod 64)) (base64url rest)))))%N.
    cbn [list_ascii_of_string forallb]. rewrite IH.
    digits_of (Byte.to_N a) 4%N q1 r1 E1 B1.
    digits_of (Byte.to_N b) 16%N q2 r2 E2 B2.
    digits_of (Byte.to_N c) 64%N q3 r3 E3 B3.
    rewrite !base64url_digit_char by lia. reflexivity.
Qed.

Lemma base64url_inj (bs1 bs2 : list Byte.byte) :
  base64url bs1 = base64url bs2 -> bs1 = bs2.
Proof.
  revert bs2.
  induction bs1 as [|a|a b|a b c rest IH] using by_triples; intros bs2 Heq.
  - destruct bs2 as [|a' [|b' [|c' rest']]]; [reflexivity|discriminate..].
  - destruct bs2 as [|a' [|b' [|c' rest']]]; [discriminate| |discriminate..].
    cbn [base64url] in Heq. injection Heq as H1 H2.
    pose proof (byte_lt a) as Ha. pose proof (byte_lt a') as Ha'.
    f_equal. apply byte_inj.
    apply base64url_digit_inj in H1, H2; revert H1 H2;
      digits_of (Byte.to_N a) 4%N q1 r1 E1 B1;
      digits_of (Byte.to_N a') 4%N q2 r2 E2 B2; intros; lia.
  - destruct bs2 as [|a' [|b' [|c' rest']]]; [discriminate..| |discriminate].
    cbn [base64url] in Heq. injection Heq as H1 H2 H3.
    pose proof (byte_lt a) as Ha. pose proof (byte_lt a') as Ha'.
    pose proof (byte_lt b) as Hb. pose proof (byte_lt b') as Hb'.
    assert (Byte.to_N a = Byte.to_N a' /\ Byte.to_N b = Byte.to_N b') as [Ea Eb].
    { apply base64url_digit_inj in H1, H2, H3; revert H1 H2 H3;
        digits_of (Byte.to_N a) 4%N q1 r1 E1 B1;
        digits_of (Byte.to_N a') 4%N q2 r2 E2 B2;
        digits_of (Byte.to_N b) 16%N q3 r3 E3 B3;
        digits_of (Byte.to_N b') 16%N q4 r4 E4 B4; intros; lia. }
    by rewrite (byte_inj _ _ Ea), (byte_inj _ _ Eb).
  - destruct bs2 as [|a' [|b' [|c' rest']]]; [discriminate..|].
    change (base64url (a :: b :: c :: rest))
      with (let x := Byte.to_N a in
            let y := Byte.to_N b in
            let z := Byte.to_N c in
            String (base64url_digit (x / 4))
              (String (base64url_digit ((x mod 4) * 16 + y / 16))
                 (String (base64url_digit ((y mod 16) * 4 + z / 64))
                    (String (base64url_digit (z mod 64)) (base64url rest)))))%N in Heq.
    change (base64url (a' :: b' :: c' :: rest'))
      with (let x := Byte.to_N a' in
            let y := Byte.to_N b' in
            let z := Byte.to_N c' in
            String (base64url_digit (x / 4))
              (String (base64url_digit ((x mod 4) * 16 + y / 16))
                 (String (base64url_digit ((y mod 16) * 4 + z / 64))
                    (String (base64url_digit (z mod 64)) (base64url rest')))))%N in Heq.
    cbv zeta in Heq. injection Heq as H1 H2 H3 H4 Hrest.
    pose proof (byte_lt a) as Ha. pose proof (byte_lt a') as Ha'.
    pose proof (byte_lt b) as Hb. pose proof (byte_lt b') as Hb'.
    pose proof (byte_lt c) as Hc. pose proof (byte_lt c') as Hc'.
    assert (Byte.to_N a = Byte.to_N a' /\ Byte.to_N b = Byte.to_N b'
            /\ Byte.to_N c = Byte.to_N c') as (Ea & Eb & Ec).
    { apply base64url_digit_inj in H1, H2, H3, H4; revert H1 H2 H3 H4;
        digits_of (Byte.to_N a) 4%N q1 r1 E1 B1;
        digits_of (Byte.to_N a') 4%N q2 r2 E2 B2;
        digits_of (Byte.to_N b) 16%N q3 r3 E3 B3;
        digits_of (Byte.to_N b') 16%N q4 r4 E4 B4;
        digits_of (Byte.to_N c) 64%N q5 r5 E5 B5;
        digits_of (Byte.to_N c') 64%N q6 r6 E6 B6; intros; lia. }
    by rewrite (byte_inj _ _ Ea), (byte_inj _ _ Eb), (byte_inj _ _ Ec), (IH _ Hrest).
Qed.

End KeyFormat.

(** X2: the keys of [generateConnectionKey]. The base64url text of [n]
    bytes has [ceil(4n/3)] characters, all of them from the URL-safe
    alphabet (no padding, nothing to escape in the query of the URL that
    [new] returns), and the encoding loses nothing: different random bytes
    give different keys. A key of 32 random bytes has 43 characters. *)
Theorem connection_key_format :
  (forall bs, String.length (base64url bs) = ((4 * List.length bs + 2) / 3)%nat) /\
  (forall bs, forallb base64url_char (list_ascii_of_string (base64url bs)) = true) /\
  (forall entropy1 entropy2,
     generateConnectionKey entropy1 = generateConnectionKey entropy2 ->
     entropy1 = entropy2) /\
  (forall entropy, List.length entropy = 32%nat ->
     String.length (generateConnectionKey entropy) = 43%nat).
Proof.
  split; [exact base64url_length|]. split; [exact base64url_chars|].
  split; [exact base64url_inj|].
  intros entropy Hlen. unfold generateConnectionKey.
  rewrite base64url_length, Hlen. reflexivity.
Qed.

Lemma connection_key_format_witness :
  String.length (generateConnectionKey (List.repeat Byte.x2a 32)) = 43%nat /\
  generateConnectionKey [Byte.x66; Byte.x6f] <> generateConnectionKey [Byte.x66; Byte.x6e].
Proof.
  destruct connection_key_format as (_ & _ & Hinj & Hlen).
  split; [apply Hlen; reflexivity|].
  intros Heq. apply Hinj in Heq. discriminate Heq.
Defined.

(** ** Identifiers of pending keys *)

Section PendingIds.

Lemma string_length_app (s t : string) :
  String.length (s +:+ t) = (String.length s + String.length t)%nat.
Proof. induction s as [|c s IH]; [reflexivity|]. simpl. by rewrite IH. Qed.

(** Two texts that end in suffixes of one length agree part by part. *)
Lemma app_inj_suffix (s1 s2 t1 t2 : string) :
  String.length t1 = String.length t2 -> s1 +:+ t1 = s2 +:+ t2 ->
  s1 = s2 /\ t1 = t2.
Proof.
  intros Hlen. revert s2. induction s1 as [|c s1 IH]; intros [|c' s2] Heq.
  - by split.
  - exfalso. change (t1 = String c' (s2 +:+ t2)) in Heq. rewrite Heq in Hlen.
    simpl in Hlen. rewrite string_length_app in Hlen. lia.
  - exfalso. change (String c (s1 +:+ t1) = t2) in Heq. rewrite <- Heq in Hlen.
    simpl in Hlen. rewrite string_length_app in Hlen. lia.
  - change (String c (s1 +:+ t1) = String c' (s2 +:+ t2)) in Heq.
    injection Heq as -> Heq. destruct (IH _ Heq) as [-> ->]. by split.
Qed.

Lemma hex_length (bs : list Byte.byte) :
  String.length (hex bs) = (2 * List.length bs)%nat.
Proof. induction bs as [|a bs IH]; [reflexivity|]. simpl. rewrite IH. lia. Qed.

Lemma hex_digit_inj (n m : N) :
  (n < 16)%N -> (m < 16)%N -> hex_digit n = hex_digit m -> n = m.
Proof.
  intros Hn Hm Heq.
  assert (Hall : forallb (fun i => forallb (fun j =>
                    implb (Ascii.eqb (hex_digit (N.of_nat i)) (hex_digit (N.of_nat j)))
                          (Nat.eqb i j)) (seq 0 16)) (seq 0 16) = true)
    by (vm_compute; reflexivity).
  assert (Hin : forall k, (k < 16)%N -> In (N.to_nat k) (seq 0 16))
    by (intros k Hk; apply in_seq; lia).
  rewrite forallb_forall in Hall. specialize (Hall _ (Hin n Hn)).
  rewrite forallb_forall in Hall. specialize (Hall _ (Hin m Hm)).
  rewrite !N2Nat.id, Heq, Ascii.eqb_refl in Hall. simpl in Hall.
  apply Nat.eqb_eq in Hall. lia.
Qed.

Lemma hex_inj (bs1 bs2 : list Byte.byte) : hex bs1 = hex bs2 -> bs1 = bs2.
Proof.
  revert bs2. induction bs1 as [|a bs1 IH]; intros [|b bs2] Heq;
    [reflexivity | discriminate | discriminate |].
  cbn [hex] in Heq. injection Heq as H1 H2 Hrest.
  pose proof (Byte.to_N_bounded a) as Ha. pose proof (Byte.to_N_bounded b) as Hb.
  assert (Hab : Byte.to_N a = Byte.to_N b).
  { destruct (split_digits (Byte.to_N a) 16) as (q1 & r1 & E1 & E2 & E3 & B1);
      [discriminate|].
    destruct (split_digits (Byte.to_N b) 16) as (q2 & r2 & E4 & E5 & E6 & B2);
      [discriminate|].
    rewrite E1, E4 in H1. rewrite E2, E5 in H2.
    apply hex_digit_inj in H1, H2; lia. }
  f_equal; [by apply byte_inj | by apply IH].
Qed.

Lemma pending_id_inj (now1 now2 : Z) (e1 e2 : list Byte.byte) :
  List.length e1 = List.length e2 ->
  pending_id now1 e1 = pending_id now2 e2 -> now1 = now2 /\ e1 = e2.
Proof.
  intros Hlen Heq. unfold pending_id in Heq.
  apply (inj (String.app "pending_")) in Heq.
  apply app_inj_suffix in Heq.
  - destruct Heq as [Hnow Hhex]. split; [by apply (inj pretty)|].
    apply (inj (String.app "_")) in Hhex. by apply hex_inj.
  - by rewrite !string_length_app, !hex_length, Hlen.
Qed.

Lemma set_fresh {V : Type} (id : string) (v : V) (m : JsMap.t V) :
  JsMap.has id m = false -> JsMap.set id v m = m ++ [(id, v)].
Proof.
  unfold JsMap.has. induction m as [|[k x] m IH]; [reflexivity|]. simpl.
  destruct (String.eqb k id); [discriminate|]. intros H. by rewrite IH.
Qed.

Lemma find_pending_app (k : string) (t : Z) (m m' : JsMap.t PendingKey) :
  find_pending k t (m ++ m')
  = match find_pending k t m with
    | Some id => Some id
    | None => find_pending k t m'
    end.
Proof.
  induction m as [|[id e] m IH]; simpl; [by destruct (find_pending k t m')|].
  by destruct (String.eqb (key e) k && (t <=? expiresAt e)).
Qed.

Lemma find_pending_has (k : string) (t : Z) (m : JsMap.t PendingKey) (id : string) :
  find_pending k t m = Some id -> JsMap.has id m = true.
Proof.
  unfold JsMap.has. induction m as [|[id' e] m IH]; simpl; [discriminate|].
  destruct (String.eqb (key e) k && (t <=? expiresAt e)).
  - intros [= ->]. by rewrite String.eqb_refl.
  - intros H. destruct (String.eqb id' id); [reflexivity | by apply IH].
Qed.

End PendingIds.

(** X3: issuing a key leaves the keys issued before as they are. The
    identifier under which [generatePendingConnectionKey] stores a key
    determines the clock reading and the 8 random bytes it was built from,
    so two calls share an identifier only when both coincide; when the
    identifier is new, the entry is appended to the pending keys, and every
    other token validates exactly as it did before, leaving the new entry in
    place. *)
Theorem issuing_keeps_other_keys
    (w : World) (entropy idEntropy : list Byte.byte) (now : Z) :
  let id := pending_id now idEntropy in
  let k := generateConnectionKey entropy in
  let entry := {| key := k; createdAt := now; expiresAt := expiry_of (config w) now |} in
  let w1 := snd (generatePendingConnectionKey entropy idEntropy now w) in
  (forall now' idEntropy',
     List.length idEntropy' = List.length idEntropy ->
     pending_id now' idEntropy' = id -> now' = now /\ idEntropy' = idEntropy) /\
  (JsMap.has id (pendingKeys w) = false ->
     pendingKeys w1 = pendingKeys w ++ [(id, entry)] /\
     forall k' t, k' <> k ->
       fst (validateConnectionKey k' t w1) = fst (validateConnectionKey k' t w) /\
       pendingKeys (snd (validateConnectionKey k' t w1))
       = pendingKeys (snd (validateConnectionKey k' t w)) ++ [(id, entry)]).
Proof.
  intros id k entry w1. split.
  - intros now' idEntropy' Hlen Heq. by apply pending_id_inj.
  - intros Hfresh.
    assert (Hw1 : pendingKeys w1 = pendingKeys w ++ [(id, entry)]).
    { subst w1. unfold generatePendingConnectionKey. cbn [snd pendingKeys set_pendingKeys].
      by apply set_fresh. }
    split; [exact Hw1|]. intros k' t Hne. unfold validateConnectionKey.
    destruct (String.eqb k' ""); [by split|].
    rewrite Hw1, find_pending_app.
    destruct (find_pending k' t (pendingKeys w)) as [id'|] eqn:Hfind.
    + split; [reflexivity|]. cbn [snd pendingKeys set_pendingKeys].
      unfold JsMap.delete. rewrite List.filter_app. f_equal. cbn [List.filter fst].
      apply find_pending_has in Hfind.
      destruct (String.eqb id id') eqn:Hid; [|reflexivity].
      apply String.eqb_eq in Hid. subst id'. congruence.
    + cbn [find_pending key entry].
      assert (String.eqb k k' = false) as ->
        by (apply String.eqb_neq; congruence).
      split; [reflexivity | exact Hw1].
Qed.

Lemma issuing_keeps_other_keys_witness :
  let w := snd (generatePendingConnectionKey (List.repeat Byte.x07 32)
                  (List.repeat Byte.x01 8) 1000 (new_controller empty_config)) in
  let w1 := snd (generatePendingConnectionKey (List.repeat Byte.x2a 32)
                   (List.repeat Byte.x02 8) 1000 w) in
  fst (validateConnectionKey (generateConnectionKey (List.repeat Byte.x07 32)) 2000 w1) = true /\
  List.length (pendingKeys w1) = 2%nat.
Proof.
  intros w w1.
  destruct (issuing_keeps_other_keys w (List.repeat Byte.x2a 32)
              (List.repeat Byte.x02 8) 1000) as (_ & Hframe).
  destruct Hframe as (Happ & Hval); [vm_compute; reflexivity|].
  fold w1 in Happ, Hval. split.
  - destruct (Hval (generateConnectionKey (List.repeat Byte.x07 32)) 2000) as (-> & _).
    + intros Heq. apply base64url_inj in Heq. discriminate Heq.
    + vm_compute. reflexivity.
  - rewrite Happ. vm_compute. reflexivity.
Defined.

(** ** Termination and destruction *)

Section Teardown.

Lemma held_timers_cons (s : ReferencedWebSocket) (socks : list ReferencedWebSocket) :
  held_timers (s :: socks)
  = match timeoutTimer s with
    | Some h => h :: held_timers socks
    | None => held_timers socks
    end.
Proof. reflexivity. Qed.

(** The timers that are left once the handles [hs] are cleared. *)
Lemma lookup_cleared (hs : list nat) :
  forall (m : gmap nat string) (h : nat),
    fold_left (fun m h => delete h m) hs m !! h
    = if bool_decide (h ∈ hs) then None else m !! h.
Proof.
  induction hs as [|h0 hs IH]; intros m h; [reflexivity|].
  cbn [fold_left]. rewrite IH.
  destruct (bool_decide (h ∈ hs)) eqn:Hd.
  - apply bool_decide_eq_true_1 in Hd.
    rewrite bool_decide_eq_true_2; [reflexivity | by apply list_elem_of_further].
  - apply bool_decide_eq_false_1 in Hd. destruct (decide (h = h0)) as [->|Hne].
    + rewrite bool_decide_eq_true_2 by apply list_elem_of_here. apply lookup_delete_eq.
    + rewrite bool_decide_eq_false_2
        by (intros Hin; apply elem_of_cons in Hin as [?|?]; congruence).
      apply lookup_delete_ne. congruence.
Qed.

Lemma terminate_each_spec (socks : list ReferencedWebSocket) :
  forall w,
    let w' := terminate_each socks w in
    log w' = log w ++ terminate_actions socks /\
    timers w' = fold_left (fun m h => delete h m) (held_timers socks) (timers w) /\
    heap w' = heap w /\ sockets w' = sockets w /\ config w' = config w /\
    pendingKeys w' = pendingKeys w /\ rateLimitMap w' = rateLimitMap w /\
    nextTimer w' = nextTimer w.
Proof.
  induction socks as [|s socks IH]; intros w w'.
  - subst w'. simpl. rewrite app_nil_r. repeat split.
  - subst w'. cbn [terminate_each].
    set (w1 := match timeoutTimer s with Some h => clearTimeout h w | None => w end).
    destruct (IH (act (WsTerminate (ref s)) w1)) as (Hl & Ht & Hh & Hs & Hc & Hp & Hr & Hn).
    rewrite Hl, Ht, Hh, Hs, Hc, Hp, Hr, Hn, held_timers_cons.
    unfold terminate_actions, clear_actions. cbn [flat_map].
    subst w1. destruct (timeoutTimer s) as [h0|];
      cbn; rewrite <- ?app_assoc; repeat split.
Qed.

Lemma destroy_each_spec (socks : list ReferencedWebSocket) :
  forall w,
    let w' := destroy_each socks w in
    log w' = log w ++ destroy_actions socks /\
    timers w' = fold_left (fun m h => delete h m) (held_timers socks) (timers w) /\
    heap w' = heap w /\ sockets w' = sockets w /\ config w' = config w /\
    pendingKeys w' = pendingKeys w /\ rateLimitMap w' = rateLimitMap w /\
    nextTimer w' = nextTimer w.
Proof.
  induction socks as [|s socks IH]; intros w w'.
  - subst w'. simpl. rewrite app_nil_r. repeat split.
  - subst w'. cbn [destroy_each].
    set (w1 := match timeoutTimer s with Some h => clearTimeout h w | None => w end).
    set (w2 := if is_open (readyState s) then act (WsTerminate (ref s)) w1 else w1).
    destruct (IH w2) as (Hl & Ht & Hh & Hs & Hc & Hp & Hr & Hn).
    rewrite Hl, Ht, Hh, Hs, Hc, Hp, Hr, Hn, held_timers_cons.
    unfold destroy_actions, clear_actions. cbn [flat_map].
    subst w2 w1. destruct (timeoutTimer s) as [h0|], (is_open (readyState s));
      cbn; rewrite <- ?app_assoc, ?app_nil_r; repeat split.
Qed.

(** The timer of a registered socket is among the handles that the
    registered socket objects remember. *)
Lemma held_registered (w : World) (r : string) (s : ReferencedWebSocket) (h : nat) :
  r ∈ sockets w -> heap w !! r = Some s -> timeoutTimer s = Some h ->
  h ∈ held_timers (socket_values w).
Proof.
  intros Hr Hs Hts. unfold held_timers, socket_values.
  apply list_elem_of_omap. exists s. split; [|exact Hts].
  apply list_elem_of_omap. exists r. by split.
Qed.

(** Once the handles of the registered sockets are cleared, no registered
    socket has a timer pending. *)
Lemma registered_timers_cleared (w w' : World) (r : string) :
  timers_owned w -> r ∈ sockets w ->
  timers w' = fold_left (fun m h => delete h m) (held_timers (socket_values w)) (timers w) ->
  pending_timers r w' = [].
Proof.
  intros [Hown _] Hr Ht.
  destruct (pending_timers r w') as [|h l] eqn:Hp; [reflexivity|]. exfalso.
  assert (Hin : List.In h (pending_timers r w')) by (rewrite Hp; by left).
  apply pending_timers_In in Hin. rewrite Ht, lookup_cleared in Hin.
  destruct (bool_decide (h ∈ held_timers (socket_values w))) eqn:Hd; [discriminate|].
  apply bool_decide_eq_false_1 in Hd. apply Hd.
  destruct (Hown h r Hin) as (s & Hs & Hts). by eapply held_registered.
Qed.

Lemma validate_no_keys (k : string) (t : Z) (w : World) :
  pendingKeys w = [] -> validateConnectionKey k t w = (false, w).
Proof.
  intros Hp. unfold validateConnectionKey. rewrite Hp.
  by destruct (String.eqb k "").
Qed.

Lemma checkRateLimit_no_entries (req : IncomingMessage) (t : Z) (w : World) :
  rateLimitMap w = ∅ -> fst (checkRateLimit req t w) = true.
Proof.
  intros Hr. unfold checkRateLimit. destruct (rateLimit (config w)); [|reflexivity].
  by rewrite Hr, lookup_empty.
Qed.

End Teardown.

(** X4: [terminate]. Without a reference every registered connection, in
    admission order and whatever its [readyState], has its idle timer
    cleared (when it holds one) and is terminated; then the connection map,
    the pending keys and the rate-limit entries are emptied: afterwards no
    registered connection has a timer pending, no key issued before
    validates any more, and every client starts a fresh rate-limit window.
    With the reference of a registered connection only that connection is
    touched: its timer is cleared and it is terminated, but it stays in the
    connection map (its close event removes it), and keys and rate-limit
    entries stay as they are. *)
Theorem terminate_effects (w : World) :
  let w' := fst (terminate None w) in
  snd (terminate None w) = None /\
  log w' = log w ++ terminate_actions (socket_values w) /\
  (sockets w' = [] /\ pendingKeys w' = [] /\ rateLimitMap w' = ∅) /\
  (heap w' = heap w /\ config w' = config w) /\
  (forall k t, validateConnectionKey k t w' = (false, w')) /\
  (forall req t, fst (checkRateLimit req t w') = true) /\
  (timers_owned w -> forall r, r ∈ sockets w -> pending_timers r w' = []) /\
  (forall r s, r <> "" -> sockets_get r w = Some s ->
     let w1 := fst (terminate (Some r) w) in
     snd (terminate (Some r) w) = None /\
     log w1 = log w ++ clear_actions s ++ [WsTerminate r] /\
     sockets w1 = sockets w /\ r ∈ sockets w1 /\
     pendingKeys w1 = pendingKeys w /\ rateLimitMap w1 = rateLimitMap w /\
     heap w1 = heap w /\
     (timers_owned w -> pending_timers r w1 = [])).
Proof.
  intros w'.
  assert (Hnone : terminate None w
                  = (clear_maps (terminate_each (socket_values w) w), None))
    by reflexivity.
  subst w'. rewrite Hnone. cbn [fst snd].
  destruct (terminate_each_spec (socket_values w) w)
    as (Hl & Ht & Hh & Hs & Hc & Hp & Hr & Hn).
  split; [reflexivity|]. split; [exact Hl|]. split; [by repeat split|].
  split; [by split|]. split; [|split; [|split]].
  - intros k t. by apply validate_no_keys.
  - intros req t. by apply checkRateLimit_no_entries.
  - intros Hw r Hin. by apply (registered_timers_cleared w).
  - intros r s Hne Hget. unfold terminate.
    assert (Hr0 : or_string (Some r) "" = r).
    { simpl. apply String.eqb_neq in Hne. by rewrite Hne. }
    rewrite Hr0. apply String.eqb_neq in Hne. rewrite Hne, Hget.
    cbn [fst snd]. unfold clear_actions.
    assert (Hin : r ∈ sockets w /\ heap w !! r = Some s).
    { unfold sockets_get in Hget.
      destruct (bool_decide (r ∈ sockets w)) eqn:Hd; [|discriminate Hget].
      by apply bool_decide_eq_true_1 in Hd. }
    destruct Hin as [Hin Hs0].
    split; [reflexivity|].
    destruct (timeoutTimer s) as [h|] eqn:Hts; cbn;
      (split; [by rewrite <- ?app_assoc|]); repeat (split; [done|]);
      intros [Hown Hold].
    + destruct (pending_timers r _) as [|h' l] eqn:Hpt; [reflexivity|]. exfalso.
      assert (Hin' : List.In h' (h' :: l)) by (by left).
      rewrite <- Hpt in Hin'. apply pending_timers_In in Hin'. cbn in Hin'.
      apply lookup_delete_Some in Hin' as [Hne' Hp0].
      destruct (Hown h' r Hp0) as (s' & Hs' & Hts'). congruence.
    + destruct (pending_timers r _) as [|h' l] eqn:Hpt; [reflexivity|]. exfalso.
      assert (Hin' : List.In h' (h' :: l)) by (by left).
      rewrite <- Hpt in Hin'. apply pending_timers_In in Hin'. cbn in Hin'.
      destruct (Hown h' r Hin') as (s' & Hs' & Hts'). congruence.
Qed.

Lemma terminate_effects_witness :
  let w := two_open timed_config in
  log (fst (terminate None w))
  = log w ++ [ClearTimeout 0; WsTerminate "a"; ClearTimeout 1; WsTerminate "b"] /\
  pending_timers "a" (fst (terminate None w)) = [] /\
  pending_timers "b" (fst (terminate (Some "b") w)) = [] /\
  sockets (fst (terminate (Some "b") w)) = ["a"; "b"].
Proof.
  intros w.
  assert (Hw : timers_owned w) by (apply run_owned, new_controller_owned).
  destruct (terminate_effects w) as (_ & Hlog & _ & _ & _ & _ & Hall & Hone).
  split; [rewrite Hlog; vm_compute; reflexivity|].
  split; [apply (Hall Hw); vm_compute; apply list_elem_of_here|].
  destruct (heap w !! "b") as [s|] eqn:Hs; [|vm_compute in Hs; discriminate Hs].
  destruct (Hone "b" s) as (_ & _ & Hsock & _ & _ & _ & _ & Hpend);
    [discriminate | unfold sockets_get; rewrite Hs; vm_compute; reflexivity|].
  split; [exact (Hpend Hw)|]. rewrite Hsock. vm_compute. reflexivity.
Defined.

(** X5: [destroy]. Every registered connection, in admission order, has its
    idle timer cleared, and is terminated only when it is open (unlike
    [terminate()]); then the three maps are emptied, the disposer of the
    configuration is called when there is one, and [destroy] is emitted
    last. Afterwards no registered connection has a timer pending, no key
    validates and every client starts a fresh rate-limit window. *)
Theorem destroy_effects (w : World) :
  let w' := destroy w in
  log w' = log w ++ destroy_actions (socket_values w)
                 ++ (if disposer (config w) then [Disposer] else [])
                 ++ [Emit EvDestroy] /\
  terminated (destroy_actions (socket_values w))
  = List.map ref (open_sockets (socket_values w)) /\
  (sockets w' = [] /\ pendingKeys w' = [] /\ rateLimitMap w' = ∅) /\
  (heap w' = heap w /\ config w' = config w) /\
  (forall k t, validateConnectionKey k t w' = (false, w')) /\
  (forall req t, fst (checkRateLimit req t w') = true) /\
  (timers_owned w -> forall r, r ∈ sockets w -> pending_timers r w' = []).
Proof.
  intros w'. subst w'. unfold destroy.
  destruct (destroy_each_spec (socket_values w) w)
    as (Hl & Ht & Hh & Hs & Hc & Hp & Hr & Hn).
  split; [|split; [|split; [|split; [|split; [|split]]]]].
  - destruct (disposer (config w)); cbn; rewrite Hl, <- ?app_assoc; reflexivity.
  - generalize (socket_values w) as l. intros l. unfold destroy_actions, open_sockets, terminated.
    induction l as [|s l IH]; [reflexivity|]. cbn [flat_map List.filter].
    rewrite omap_app, IH. unfold clear_actions.
    destruct (timeoutTimer s), (is_open (readyState s)); reflexivity.
  - destruct (disposer (config w)); by repeat split.
  - destruct (disposer (config w)); by split.
  - intros k t. apply validate_no_keys. by destruct (disposer (config w)).
  - intros req t. apply checkRateLimit_no_entries. by destruct (disposer (config w)).
  - intros Hw r Hin. apply (registered_timers_cleared w); [exact Hw | exact Hin|].
    destruct (disposer (config w)); cbn; apply Ht.
Qed.

Lemma destroy_effects_witness :
  let w := exec (TransportReadyState "a" CLOSED) (two_open timed_config) in
  log (destroy w) = log w ++ [ClearTimeout 0; ClearTimeout 1; WsTerminate "b"; Emit EvDestroy] /\
  pending_timers "a" (destroy w) = [] /\
  fst (validateConnectionKey "any" 0 (destroy w)) = false.
Proof.
  intros w.
  assert (Hw : timers_owned w)
    by (apply exec_owned; apply run_owned, new_controller_owned).
  destruct (destroy_effects w) as (Hlog & _ & _ & _ & Hkeys & _ & Hall).
  split; [rewrite Hlog; vm_compute; reflexivity|].
  split; [apply (Hall Hw); vm_compute; apply list_elem_of_here|].
  rewrite Hkeys. reflexivity.
Defined.

(** ** What an admission leaves behind *)

Section AdmissionEffects.

Lemma same_books_refl (w : World) : same_books w w.
Proof. by split. Qed.

Lemma same_books_trans (w1 w2 w3 : World) :
  same_books w1 w2 -> same_books w2 w3 -> same_books w1 w3.
Proof. intros [? ?] [? ?]. split; congruence. Qed.

Lemma same_books_setup (r : string) (now : Z) (w : World) :
  same_books w (setupSocketTimeout r now w).
Proof.
  unfold setupSocketTimeout. destruct (truthy_number (timeout (config w))); [|by split].
  unfold clear_timer_of.
  destruct (heap w !! r) as [s|]; [destruct (timeoutTimer s)|]; by split.
Qed.

Lemma same_books_reset (r : string) (now : Z) (w : World) :
  same_books w (resetSocketTimeout r now w).
Proof.
  unfold resetSocketTimeout.
  apply (same_books_trans _ (update_socket r (with_lastActivity now) w));
    [by split | apply same_books_setup].
Qed.

Lemma same_books_register ws ps resumed (w : World) :
  same_books w (add_register ws ps resumed w).
Proof.
  unfold add_register. set (w2 := set_sockets _ _).
  assert (H2 : same_books w w2) by (by split).
  destruct (timeout_enabled (config w)); [|exact H2].
  destruct (same_books_setup ws resumed w2) as [Hp Hr]. destruct H2 as [Hp2 Hr2].
  split; cbn; congruence.
Qed.

Lemma same_books_auth ws req ps resumed (w : World) :
  same_books w (add_auth ws req ps resumed w).
Proof.
  unfold add_auth.
  destruct (match authHandler (config w) with Some h => h | None => _ end req) as [[|]|e];
    [|by split|unfold add_catch; destruct (Nat.eqb _ 0); by split].
  apply (same_books_trans _ (act (Evaluated CheckAuth) w));
    [by split | apply same_books_register].
Qed.

Lemma same_books_params ws req ps resumed (w : World) :
  same_books w (add_params ws req ps resumed w).
Proof.
  unfold add_params. destruct (requiredParams (config w)) as [required|];
    [|apply same_books_auth].
  destruct (first_missing required ps); [by split|].
  apply (same_books_trans _ (act (Evaluated CheckRequiredParams) w));
    [by split | apply same_books_auth].
Qed.

(** A validation reads and writes the pending keys only. *)
Lemma validate_fields (k : string) (t : Z) (w w0 : World) :
  pendingKeys w = pendingKeys w0 ->
  fst (validateConnectionKey k t w) = fst (validateConnectionKey k t w0) /\
  pendingKeys (snd (validateConnectionKey k t w))
  = pendingKeys (snd (validateConnectionKey k t w0)) /\
  rateLimitMap (snd (validateConnectionKey k t w)) = rateLimitMap w.
Proof.
  intros H. unfold validateConnectionKey. rewrite H.
  destruct (String.eqb k ""); [cbn; auto|].
  destruct (find_pending k t (pendingKeys w0)); cbn; auto.
Qed.

(** A rate check reads the configuration and the rate-limit entries, and
    writes the rate-limit entries (and the log) only. *)
Lemma checkRateLimit_fields (req : IncomingMessage) (t : Z) (w w0 : World) :
  config w = config w0 -> rateLimitMap w = rateLimitMap w0 ->
  fst (checkRateLimit req t w) = fst (checkRateLimit req t w0) /\
  rateLimitMap (snd (checkRateLimit req t w))
  = rateLimitMap (snd (checkRateLimit req t w0)) /\
  pendingKeys (snd (checkRateLimit req t w)) = pendingKeys w.
Proof.
  intros Hc Hr. unfold checkRateLimit. rewrite Hc, Hr.
  destruct (rateLimit (config w0)) as [rl|]; [|cbn; auto].
  destruct (rateLimitMap w0 !! getClientId req) as [lim|]; [|cbn; auto].
  destruct (t >? resetTime lim); [cbn; auto|].
  destruct (count lim >=? RateLimit.max rl); cbn; auto.
Qed.

(** What the tail of [add] does to an existing socket object. *)
Lemma add_register_spec ws ps resumed (w : World) (s : ReferencedWebSocket) :
  heap w !! ws = Some s ->
  let w' := add_register ws ps resumed w in
  let timed := timeout_enabled (config w) in
  sockets w' = sockets_set ws (sockets w) /\
  heap w' !! ws = Some (registered_socket ps timed (nextTimer w) resumed s) /\
  (forall r, r <> ws -> heap w' !! r = heap w !! r) /\
  config w' = config w /\
  log w'
  = log w
    ++ (if timed
        then clear_actions s
             ++ [SetTimeout (nextTimer w) (or_number (timeout (config w)) 0)]
        else [])
    ++ [Emit (EvConnect ws)].
Proof.
  intros Hs w' timed. subst w' timed. unfold add_register.
  set (w2 := set_sockets _ _).
  assert (Hs2 : heap w2 !! ws = Some (with_params (fromEntries ps) s)).
  { unfold w2, update_socket. simpl. by rewrite lookup_alter_eq, Hs. }
  assert (Ho2 : forall r, r <> ws -> heap w2 !! r = heap w !! r).
  { intros r Hne. unfold w2, update_socket. simpl. by rewrite lookup_alter_ne. }
  destruct (timeout_enabled (config w)) eqn:Hon.
  - destruct (setupSocketTimeout_spec ws _ resumed w2 Hs2
                (timeout_enabled_truthy (config w) Hon))
      as (Hr & Hother & _ & _ & Hso & Hc & Hl).
    unfold update_socket. cbn [sockets heap config log act set_heap].
    rewrite Hso, Hc, Hl. rewrite lookup_alter_eq, Hr.
    split; [reflexivity|]. split; [reflexivity|].
    split; [intros r Hne; rewrite lookup_alter_ne by congruence;
            rewrite Hother by exact Hne; by apply Ho2|].
    split; [reflexivity|]. unfold clear_actions. cbn.
    destruct (timeoutTimer s); cbn; by rewrite <- ?app_assoc.
  - unfold update_socket. cbn [sockets heap config log act set_heap].
    rewrite lookup_alter_eq, Hs2.
    split; [reflexivity|]. split; [reflexivity|].
    split; [intros r Hne; rewrite lookup_alter_ne by congruence; by apply Ho2|].
    split; reflexivity.
Qed.

(** The stages of [add] that register a socket not yet registered. *)
Lemma add_auth_inv ws req ps resumed (w : World) :
  ws ∉ sockets w -> ws ∈ sockets (add_auth ws req ps resumed w) ->
  auth_of (config w) req = Returns true /\
  add_auth ws req ps resumed w
  = add_register ws ps resumed (act (Evaluated CheckAuth) w).
Proof.
  intros Hout Hin. unfold add_auth, auth_of in *.
  destruct (match authHandler (config w) with Some h => h | None => _ end req)
    as [[|]|e];
    [by split | contradiction | rewrite add_catch_sockets in Hin; contradiction].
Qed.

Lemma add_params_inv ws req ps resumed (w : World) :
  ws ∉ sockets w -> ws ∈ sockets (add_params ws req ps resumed w) ->
  first_missing (default [] (requiredParams (config w))) ps = None /\
  auth_of (config w) req = Returns true /\
  exists wm, add_params ws req ps resumed w = add_register ws ps resumed wm /\
             same_core w wm /\ same_books w wm.
Proof.
  intros Hout Hin. unfold add_params in *.
  destruct (requiredParams (config w)) as [required|].
  - change (default [] (Some required)) with required.
    destruct (first_missing required ps); [contradiction|].
    destruct (add_auth_inv ws req ps resumed
                (act (Evaluated CheckRequiredParams) w) Hout Hin) as [Hauth Heq].
    split; [reflexivity|]. split; [exact Hauth|].
    eexists. split; [exact Heq|]. by repeat split.
  - destruct (add_auth_inv ws req ps resumed _ Hout Hin) as [Hauth Heq].
    split; [reflexivity|]. split; [exact Hauth|].
    eexists. split; [exact Heq|]. by repeat split.
Qed.

Lemma add_key_inv ws req ps now resumed (w : World) :
  ws ∉ sockets w -> ws ∈ sockets (add_key ws req ps now resumed w) ->
  let provided := or_string (params_get "key" ps) "" in
  first_missing (default [] (requiredParams (config w))) ps = None /\
  auth_of (config w) req = Returns true /\
  (useConnectionKeys (config w) = Some true ->
   fst (validateConnectionKey provided now w) = true) /\
  exists wm, add_key ws req ps now resumed w = add_register ws ps resumed wm /\
             same_core w wm /\ rateLimitMap wm = rateLimitMap w /\
             pendingKeys wm
             = match useConnectionKeys (config w) with
               | Some true => pendingKeys (snd (validateConnectionKey provided now w))
               | _ => pendingKeys w
               end.
Proof.
  intros Hout Hin provided. unfold add_key in *. fold provided.
  assert (Hplain : ws ∈ sockets (add_params ws req ps resumed w) ->
            first_missing (default [] (requiredParams (config w))) ps = None /\
            auth_of (config w) req = Returns true /\
            exists wm, add_params ws req ps resumed w = add_register ws ps resumed wm /\
                       same_core w wm /\ rateLimitMap wm = rateLimitMap w /\
                       pendingKeys wm = pendingKeys w).
  { intros H. destruct (add_params_inv ws req ps resumed w Hout H)
      as (Hm & Ha & wm & Heq & Hcore & Hp & Hr). eauto 10. }
  destruct (useConnectionKeys (config w)) as [[|]|];
    [|destruct (Hplain Hin) as (Hm & Ha & wm & Heq & Hc & Hr & Hp);
      (split; [exact Hm|]); (split; [exact Ha|]); (split; [discriminate|]);
      exists wm; auto..].
  fold provided in Hin.
  set (w0 := act (Evaluated CheckKey) w) in *.
  destruct (validate_fields provided now w0 w eq_refl) as (Hfst & Hpk & Hrl).
  pose proof (same_core_validate provided now w0) as Hcore.
  destruct (validateConnectionKey provided now w0) as [ok w1] eqn:Hv.
  cbn [fst snd] in Hfst, Hpk, Hrl, Hcore.
  assert (Hs1 : sockets w1 = sockets w) by (destruct Hcore as (_ & _ & -> & _); done).
  destruct ok; [|cbn in Hin; rewrite Hs1 in Hin; contradiction].
  assert (Hout1 : ws ∉ sockets w1) by (by rewrite Hs1).
  destruct (add_params_inv ws req ps resumed w1 Hout1 Hin)
    as (Hm & Ha & wm & Heq & Hcore' & Hp & Hr).
  assert (Hcfg : config w1 = config w) by (destruct Hcore as (-> & _); done).
  rewrite Hcfg in Hm, Ha.
  split; [exact Hm|]. split; [exact Ha|]. split; [by intros _|].
  assert (Hr0 : rateLimitMap w0 = rateLimitMap w) by reflexivity.
  exists wm. split; [exact Heq|]. split; [|split; congruence].
  apply (same_core_trans _ w0); [apply same_core_act|].
  by apply (same_core_trans _ w1).
Qed.

Lemma add_inv ws req now resumed (w : World) :
  ws ∉ sockets w -> ws ∈ sockets (add ws req now resumed w) ->
  fst (checkRateLimit req now w) = true /\
  at_capacity w = false /\
  exists ps,
    searchParams req = Some ps /\
    let provided := or_string (params_get "key" ps) "" in
    first_missing (default [] (requiredParams (config w))) ps = None /\
    auth_of (config w) req = Returns true /\
    (useConnectionKeys (config w) = Some true ->
     fst (validateConnectionKey provided now w) = true) /\
    exists wm, add ws req now resumed w = add_register ws ps resumed wm /\
               same_core w wm /\
               rateLimitMap wm = rateLimitMap (snd (checkRateLimit req now w)) /\
               pendingKeys wm
               = match useConnectionKeys (config w) with
                 | Some true => pendingKeys (snd (validateConnectionKey provided now w))
                 | _ => pendingKeys w
                 end.
Proof.
  intros Hout Hin. unfold add in *.
  set (w0 := act (Evaluated CheckRateLimit) w) in *.
  destruct (checkRateLimit_fields req now w0 w eq_refl eq_refl) as (Hfst & Hrl & Hpk).
  pose proof (same_core_checkRateLimit req now w0) as Hcore.
  destruct (checkRateLimit req now w0) as [allowed w1] eqn:Hc.
  cbn [fst snd] in Hfst, Hrl, Hpk, Hcore.
  destruct Hcore as (Hcfg & Hheap & Hsock & Htim & Hnext).
  cbn [config heap sockets timers nextTimer w0 act] in Hcfg, Hheap, Hsock, Htim, Hnext.
  destruct allowed; cbn [negb] in Hin |- *;
    [|cbn in Hin; rewrite Hsock in Hin; contradiction].
  set (w2 := act (Evaluated CheckCapacity) w1) in *.
  assert (Hcap : at_capacity w2 = at_capacity w).
  { unfold at_capacity, w2. cbn. by rewrite Hcfg, Hsock. }
  rewrite Hcap in Hin |- *.
  destruct (at_capacity w); [cbn in Hin; rewrite Hsock in Hin; contradiction|].
  split; [by rewrite <- Hfst|]. split; [reflexivity|].
  destruct (searchParams req) as [ps|];
    [|rewrite add_catch_sockets in Hin; cbn in Hin; rewrite Hsock in Hin;
      contradiction].
  exists ps. split; [reflexivity|].
  assert (Hout2 : ws ∉ sockets w2) by (unfold w2; cbn; by rewrite Hsock).
  destruct (add_key_inv ws req ps now resumed w2 Hout2 Hin)
    as (Hm & Ha & Hk & wm & Heq & Hcore & Hr & Hp).
  assert (Hcfg2 : config w2 = config w) by (unfold w2; cbn; exact Hcfg).
  assert (Hpk2 : pendingKeys w2 = pendingKeys w) by (unfold w2; cbn; exact Hpk).
  destruct (validate_fields (or_string (params_get "key" ps) "") now w2 w Hpk2)
    as (Hvf & Hvp & _).
  rewrite Hcfg2 in Hm, Ha, Hk, Hp. rewrite Hvf in Hk. rewrite Hvp, Hpk2 in Hp.
  split; [exact Hm|]. split; [exact Ha|]. split; [exact Hk|].
  exists wm. split; [exact Heq|]. split; [|split; [|exact Hp]].
  - destruct Hcore as (Hc' & Hh' & Hs' & Ht' & Hn').
    unfold w2 in Hc', Hh', Hs', Ht', Hn'. cbn in Hc', Hh', Hs', Ht', Hn'.
    repeat split; congruence.
  - rewrite Hr. unfold w2. cbn. exact Hrl.
Qed.

End AdmissionEffects.
Section AdmissionResults.

Lemma first_missing_none (required : list string) (ps : list (string * string)) :
  first_missing required ps = None ->
  Forall (fun p => params_has p ps = true) required.
Proof.
  induction required as [|p required IH]; simpl; [constructor|].
  destruct (params_has p ps) eqn:Hp; [|discriminate].
  intros H. constructor; [exact Hp | by apply IH].
Qed.

Lemma find_pending_sound (k : string) (t : Z) (m : JsMap.t PendingKey) (id : string) :
  find_pending k t m = Some id ->
  exists e, (id, e) ∈ m /\ key e = k /\ t <= expiresAt e.
Proof.
  induction m as [|[id' e] m IH]; simpl; [discriminate|].
  destruct (String.eqb (key e) k && (t <=? expiresAt e)) eqn:Hm.
  - intros [= ->]. apply andb_true_iff in Hm as [Hk Ht].
    apply String.eqb_eq in Hk. exists e. split; [apply list_elem_of_here|].
    split; [exact Hk | lia].
  - intros H. destruct (IH H) as (e' & Hin & Hk & Ht). exists e'.
    split; [by apply list_elem_of_further | by split].
Qed.

Lemma validate_true (k : string) (t : Z) (w : World) :
  fst (validateConnectionKey k t w) = true ->
  k <> "" /\
  exists id e, (id, e) ∈ pendingKeys w /\ key e = k /\ t <= expiresAt e /\
               pendingKeys (snd (validateConnectionKey k t w))
               = JsMap.delete id (pendingKeys w).
Proof.
  unfold validateConnectionKey. destruct (String.eqb k "") eqn:Hk; [discriminate|].
  apply String.eqb_neq in Hk.
  destruct (find_pending k t (pendingKeys w)) as [id|] eqn:Hf; [|discriminate].
  intros _. split; [exact Hk|].
  destruct (find_pending_sound k t _ id Hf) as (e & Hin & Hke & Ht).
  exists id, e. by repeat split.
Qed.

Lemma add_key_books ws req ps now resumed (w : World) :
  rateLimitMap (add_key ws req ps now resumed w) = rateLimitMap w /\
  pendingKeys (add_key ws req ps now resumed w)
  = match useConnectionKeys (config w) with
    | Some true =>
        pendingKeys (snd (validateConnectionKey (or_string (params_get "key" ps) "") now w))
    | _ => pendingKeys w
    end.
Proof.
  unfold add_key.
  destruct (useConnectionKeys (config w)) as [[|]|];
    [|destruct (same_books_params ws req ps resumed w) as [Hp Hr]; by split..].
  set (w0 := act (Evaluated CheckKey) w).
  destruct (validate_fields (or_string (params_get "key" ps) "") now w0 w eq_refl)
    as (_ & Hpk & Hrl).
  destruct (validateConnectionKey (or_string (params_get "key" ps) "") now w0)
    as [ok w1].
  cbn [snd] in Hpk, Hrl. change (rateLimitMap w0) with (rateLimitMap w) in Hrl.
  destruct ok.
  - destruct (same_books_params ws req ps resumed w1) as [Hp Hr].
    split; congruence.
  - cbn. by split.
Qed.

(** What [add] does to the rate-limit entries and to the pending keys,
    whatever its outcome. *)
Lemma add_books ws req now resumed (w : World) :
  rateLimitMap (add ws req now resumed w)
  = rateLimitMap (snd (checkRateLimit req now w)) /\
  pendingKeys (add ws req now resumed w)
  = (if fst (checkRateLimit req now w) && negb (at_capacity w)
     then match searchParams req, useConnectionKeys (config w) with
          | Some ps, Some true =>
              pendingKeys
                (snd (validateConnectionKey (or_string (params_get "key" ps) "") now w))
          | _, _ => pendingKeys w
          end
     else pendingKeys w).
Proof.
  unfold add. set (w0 := act (Evaluated CheckRateLimit) w).
  destruct (checkRateLimit_fields req now w0 w eq_refl eq_refl) as (Hfst & Hrl & Hpk).
  pose proof (same_core_checkRateLimit req now w0) as (Hcfg & _ & Hsock & _).
  destruct (checkRateLimit req now w0) as [allowed w1].
  cbn [fst snd] in Hfst, Hrl, Hpk, Hcfg, Hsock.
  change (pendingKeys w0) with (pendingKeys w) in Hpk.
  change (config w0) with (config w) in Hcfg.
  change (sockets w0) with (sockets w) in Hsock.
  rewrite <- Hfst, <- Hrl. destruct allowed; cbn [negb andb]; [|by split].
  set (w2 := act (Evaluated CheckCapacity) w1).
  assert (Hcap : at_capacity w2 = at_capacity w).
  { unfold at_capacity, w2. cbn. by rewrite Hcfg, Hsock. }
  rewrite Hcap. destruct (at_capacity w); cbn [negb]; [by split|].
  destruct (searchParams req) as [ps|];
    [|unfold add_catch; destruct (Nat.eqb _ 0); by split].
  destruct (add_key_books ws req ps now resumed w2) as [Hr Hp].
  rewrite Hr, Hp. split; [reflexivity|].
  change (config w2) with (config w1). rewrite Hcfg.
  destruct (useConnectionKeys (config w)) as [[|]|]; try exact Hpk.
  destruct (validate_fields (or_string (params_get "key" ps) "") now w2 w)
    as (_ & Hvp & _); [exact Hpk | exact Hvp].
Qed.

End AdmissionResults.

(** X6: what it takes to be admitted. When [add] registers a connection
    that was not registered before, then the rate limiter allowed the
    request, the connection map was below its limit, the URL of the request
    parsed, every required parameter is in its query, the authentication
    handler returned true, and, when connection keys are in use, the [key]
    parameter named a pending, unexpired key, whose entry [add] has deleted.
    The connection is appended to the connection map; its socket object
    carries the query as [params], the three listeners of [add], and, when a
    positive timeout is configured, a fresh idle timer with [lastActivity]
    at the clock reading after the handler; nothing was closed, and
    [connect] is the last thing emitted. *)
Theorem admission_postcondition
    (ws : string) (req : IncomingMessage) (now resumed : Z) (w : World)
    (s : ReferencedWebSocket) :
  heap w !! ws = Some s -> ws ∉ sockets w ->
  ws ∈ sockets (add ws req now resumed w) ->
  let w' := add ws req now resumed w in
  fst (checkRateLimit req now w) = true /\
  at_capacity w = false /\
  exists ps,
    searchParams req = Some ps /\
    (forall required, requiredParams (config w) = Some required ->
       Forall (fun p => params_has p ps = true) required) /\
    auth_of (config w) req = Returns true /\
    (useConnectionKeys (config w) = Some true ->
       exists id e,
         (id, e) ∈ pendingKeys w /\
         params_get "key" ps = Some (key e) /\ key e <> "" /\ now <= expiresAt e /\
         pendingKeys w' = JsMap.delete id (pendingKeys w)) /\
    (useConnectionKeys (config w) <> Some true -> pendingKeys w' = pendingKeys w) /\
    sockets w' = sockets w ++ [ws] /\
    heap w' !! ws
    = Some (registered_socket ps (timeout_enabled (config w)) (nextTimer w) resumed s) /\
    (forall r, r <> ws -> heap w' !! r = heap w !! r) /\
    last (log w') = Some (Emit (EvConnect ws)) /\
    exists d, log w' = log w ++ d /\ closes d = [].
Proof.
  intros Hs Hout Hin w'.
  destruct (add_inv ws req now resumed w Hout Hin)
    as (Hrate & Hcap & ps & Hps & Hm & Ha & Hk & wm & Heq & Hcore & Hrl & Hpk).
  destruct Hcore as (Hcfg & Hheap & Hsock & Htim & Hnext).
  assert (Hsm : heap wm !! ws = Some s) by (by rewrite Hheap).
  destruct (add_register_spec ws ps resumed wm s Hsm) as (Hso & Hh & Hoth & Hc & Hl).
  destruct (same_books_register ws ps resumed wm) as [Hbp Hbr].
  split; [exact Hrate|]. split; [exact Hcap|]. exists ps.
  split; [exact Hps|]. split.
  { intros required Hreq. rewrite Hreq in Hm. by apply first_missing_none. }
  split; [exact Ha|]. subst w'. rewrite Heq. split.
  { intros Huse. rewrite Huse in Hpk.
    destruct (validate_true _ _ _ (Hk Huse)) as (Hne & id & e & Hin' & Hke & Ht & Hdel).
    exists id, e. split; [exact Hin'|]. split.
    - destruct (params_get "key" ps) as [v|]; simpl in Hke, Hne; [|congruence].
      destruct (String.eqb v ""); congruence.
    - split; [congruence|]. split; [exact Ht|]. congruence. }
  split.
  { intros Huse. rewrite Hbp, Hpk.
    destruct (useConnectionKeys (config w)) as [[|]|]; congruence. }
  split.
  { rewrite Hso, Hsock. unfold sockets_set.
    by rewrite bool_decide_eq_false_2. }
  split; [by rewrite Hh, Hcfg, Hnext|].
  split; [intros r Hne; rewrite Hoth by exact Hne; by rewrite Hheap|].
  split; [rewrite Hl, !app_assoc; apply last_snoc|].
  destruct (add_ends ws req now resumed w) as (d & Hlog & _ & Hcl & _ & Hsk).
  exists d. rewrite <- Heq. split; [exact Hlog|].
  destruct (snd (spec_admission req now w)); [exact Hcl | exfalso..];
    simpl in Hsk; rewrite Hsk in Hin; contradiction.
Qed.

Lemma admission_postcondition_witness :
  let cfg := {| authHandler := None; limit := Some 10; useConnectionKeys := None;
                pendingKeyExpiration := None; requiredParams := Some ["room"];
                timeout := Some 30000; rateLimit := None; disposer := false |} in
  let w := run [TransportConnection "a" 0;
                CallGeneratePendingConnectionKey (List.repeat Byte.x2a 32)
                  (List.repeat Byte.x01 8) 1000]
             (new_controller cfg) in
  let req := {| remoteAddress := Some "10.0.0.1"; userAgent := Some "ua";
                searchParams := Some [("key", base64url (List.repeat Byte.x2a 32));
                                      ("room", "7")] |} in
  sockets (add "a" req 2000 2001 w) = ["a"] /\
  last (log (add "a" req 2000 2001 w)) = Some (Emit (EvConnect "a")).
Proof.
  intros cfg w req.
  destruct (heap w !! "a") as [s|] eqn:Hs; [|vm_compute in Hs; discriminate Hs].
  assert (Hout : "a" ∉ sockets w) by (vm_compute; apply not_elem_of_nil).
  assert (Hin : "a" ∈ sockets (add "a" req 2000 2001 w))
    by (vm_compute; apply list_elem_of_here).
  destruct (admission_postcondition "a" req 2000 2001 w s Hs Hout Hin)
    as (_ & _ & ps & _ & _ & _ & _ & _ & Hsock & _ & _ & Hlast & _).
  split; [exact Hsock | exact Hlast].
Defined.

(** X7: every admission attempt is charged. Whatever the outcome of [add],
    the rate-limit entries afterwards are those that the rate check of the
    request leaves: an attempt that a later check rejects has used up one
    unit of the client's budget all the same. And the pending keys
    afterwards are those that the key check leaves, whenever it is reached
    (rate check passed, connection map below its limit, URL parsed, keys in
    use): a valid key is consumed even when the connection is then rejected
    for a missing parameter or by the authentication handler, so that the
    same URL cannot be tried again. *)
Theorem attempts_are_charged
    (ws : string) (req : IncomingMessage) (now resumed : Z) (w : World) :
  let w' := add ws req now resumed w in
  rateLimitMap w' = rateLimitMap (snd (checkRateLimit req now w)) /\
  pendingKeys w'
  = (if fst (checkRateLimit req now w) && negb (at_capacity w)
     then match searchParams req, useConnectionKeys (config w) with
          | Some ps, Some true =>
              pendingKeys
                (snd (validateConnectionKey (or_string (params_get "key" ps) "") now w))
          | _, _ => pendingKeys w
          end
     else pendingKeys w) /\
  (forall ps id,
     fst (checkRateLimit req now w) = true -> at_capacity w = false ->
     searchParams req = Some ps -> useConnectionKeys (config w) = Some true ->
     or_string (params_get "key" ps) "" <> "" ->
     find_pending (or_string (params_get "key" ps) "") now (pendingKeys w) = Some id ->
     JsMap.has id (pendingKeys w) = true /\
     JsMap.get id (pendingKeys w') = None /\
     (first_missing (default [] (requiredParams (config w))) ps <> None \/
      auth_of (config w) req <> Returns true ->
      ws ∉ sockets w -> ws ∉ sockets w')).
Proof.
  intros w'. subst w'.
  destruct (add_books ws req now resumed w) as [Hrate Hkeys].
  split; [exact Hrate|]. split; [exact Hkeys|].
  intros ps id Hallowed Hcap Hps Huse Hne Hfind.
  assert (Hval : validateConnectionKey (or_string (params_get "key" ps) "") now w
                 = (true, set_pendingKeys (JsMap.delete id (pendingKeys w)) w)).
  { unfold validateConnectionKey. apply String.eqb_neq in Hne. by rewrite Hne, Hfind. }
  split; [by apply find_pending_has in Hfind|]. split.
  - rewrite Hkeys, Hallowed, Hcap, Hps, Huse, Hval. cbn. apply get_delete_same.
  - intros Hrej Hout Hin.
    destruct (add_inv ws req now resumed w Hout Hin)
      as (_ & _ & ps' & Hps' & Hm & Ha & _).
    rewrite Hps in Hps'. injection Hps' as <-. destruct Hrej; contradiction.
Qed.

Lemma attempts_are_charged_witness :
  let cfg := {| authHandler := None; limit := None; useConnectionKeys := None;
                pendingKeyExpiration := None; requiredParams := Some ["room"];
                timeout := None; rateLimit := None; disposer := false |} in
  let w := run [TransportConnection "a" 0; TransportConnection "b" 0;
                CallGeneratePendingConnectionKey (List.repeat Byte.x2a 32)
                  (List.repeat Byte.x01 8) 1000]
             (new_controller cfg) in
  let req := {| remoteAddress := Some "10.0.0.1"; userAgent := Some "ua";
                searchParams := Some [("key", base64url (List.repeat Byte.x2a 32))] |} in
  let w' := add "a" req 2000 2001 w in
  ("a" ∉ sockets w') /\ pendingKeys w' = [] /\
  closes (log (add "b" req 2002 2003 w'))
  = [("a", 1008, "Missing required parameter: room");
     ("b", 1008, "Invalid or expired connection key")].
Proof.
  intros cfg w req w'.
  destruct (attempts_are_charged "a" req 2000 2001 w) as (_ & Hkeys & Hspent).
  split; [|split; [|vm_compute; reflexivity]].
  - destruct (Hspent [("key", base64url (List.repeat Byte.x2a 32))]
                (pending_id 1000 (List.repeat Byte.x01 8))) as (_ & _ & Hrej);
      [vm_compute; reflexivity | vm_compute; reflexivity | reflexivity
      | vm_compute; reflexivity | vm_compute; discriminate
      | vm_compute; reflexivity |].
    fold w' in Hrej.
    apply Hrej; [left; vm_compute; discriminate | vm_compute; apply not_elem_of_nil].
  - fold w' in Hkeys. rewrite Hkeys. vm_compute. reflexivity.
Defined.

(** ** The identities and the entries of the rate limiter *)

Section RateEntries.


(** A rate check never takes an entry away. *)
Lemma checkRateLimit_keeps (req : IncomingMessage) (t : Z) (w : World) (c : string) :
  is_Some (rateLimitMap w !! c) ->
  is_Some (rateLimitMap (snd (checkRateLimit req t w)) !! c).
Proof.
  intros Hc. destruct (decide (getClientId req = c)) as [<-|Hne];
    [|by rewrite checkRateLimit_other].
  unfold checkRateLimit. destruct (rateLimit (config w)) as [r|]; [|exact Hc].
  destruct (rateLimitMap w !! getClientId req) as [lim|] eqn:Hl; cbn;
    [|rewrite lookup_insert_eq; eauto].
  destruct (t >? resetTime lim); cbn; [rewrite lookup_insert_eq; eauto|].
  destruct (count lim >=? RateLimit.max r); cbn; [rewrite Hl; eauto|].
  rewrite lookup_insert_eq; eauto.
Qed.



End RateEntries.



Section RateEntriesStay.

Lemma rates_iter (f : World -> World) (n : nat) (w : World) :
  (forall w0, rateLimitMap (f w0) = rateLimitMap w0) ->
  rateLimitMap (Nat.iter n f w) = rateLimitMap w.
Proof.
  intros Hf. induction n as [|n IH]; [reflexivity|].
  change (Nat.iter (S n) f w) with (f (Nat.iter n f w)). by rewrite Hf.
Qed.

Lemma rates_close_handler ws code reason (w : World) :
  rateLimitMap (close_handler ws code reason w) = rateLimitMap w.
Proof.
  unfold close_handler. cbn [heap set_sockets].
  destruct (heap w !! ws) as [s|]; [destruct (timeoutTimer s)|]; reflexivity.
Qed.

Lemma rates_terminate_open (socks : list ReferencedWebSocket) :
  forall w, rateLimitMap (terminate_open socks w) = rateLimitMap w.
Proof.
  induction socks as [|s socks IH]; intros w; [reflexivity|]. simpl.
  destruct (is_open (readyState s)); by rewrite IH.
Qed.

Lemma rates_broadcast_loop data throws (l : list ReferencedWebSocket) :
  forall b w, rateLimitMap (snd (fst (broadcast_loop data throws l b w))) = rateLimitMap w.
Proof.
  induction l as [|s l IH]; intros b w; [reflexivity|]. simpl.
  destruct (is_open (readyState s)).
  - destruct (throws (ref s)); [reflexivity|]. by rewrite IH.
  - unfold complete_one. cbn.
    match goal with |- context [if ?c then _ else _] => destruct c end;
      by rewrite IH.
Qed.

Lemma rates_shutdown_loop (todo : list ReferencedWebSocket) :
  forall g w, rateLimitMap (snd (shutdown_loop todo g w)) = rateLimitMap w.
Proof.
  induction todo as [|s todo IH]; intros g w; [reflexivity|]. simpl.
  destruct (is_open (readyState s)); by rewrite IH.
Qed.

(** What one operation does to the rate-limit entries, unless it is one
    of the two that empty the maps. *)
Lemma exec_rates (op : Operation) (w : World) :
  clears_maps op = false ->
  rateLimitMap (exec op w)
  = match op with
    | CallAdd ws req now _ =>
        if bool_decide (is_Some (heap w !! ws))
        then rateLimitMap (snd (checkRateLimit req now w))
        else rateLimitMap w
    | _ => rateLimitMap w
    end.
Proof.
  intros Hop. destruct op; simpl in Hop; try discriminate Hop; simpl.
  - by destruct (heap w !! ws).
  - reflexivity.
  - unfold on_close. destruct (heap w !! ws); [|reflexivity].
    rewrite rates_iter; [reflexivity|]. intros w0. apply rates_close_handler.
  - unfold on_error. destruct (heap w !! ws) as [s0|]; [|reflexivity].
    destruct (Nat.eqb (errorHandlers w) 0);
      [by destruct (errorListeners s0) | by rewrite rates_iter].
  - unfold on_activity. destruct (heap w !! ws); [|reflexivity].
    rewrite rates_iter; [reflexivity|]. intros w0. apply same_books_reset.
  - unfold timer_fired. destruct (timers w !! h); [|reflexivity].
    by destruct (open_in _ _).
  - reflexivity.
  - apply rates_terminate_open.
  - destruct (heap w !! ws) as [s|].
    + rewrite bool_decide_eq_true_2 by eauto. apply add_books.
    + rewrite bool_decide_eq_false_2 by (intros [? ?]; discriminate). reflexivity.
  - reflexivity.
  - unfold broadcast.
    match goal with |- context [if ?c then _ else _] => destruct c end;
      [|apply rates_broadcast_loop].
    cbn. by match goal with |- context [if ?c then _ else _] => destruct c end.
  - unfold send.
    match goal with |- context [sockets_get ?r w] =>
      destruct (sockets_get r w) as [s|] end.
    + destruct (is_open (readyState s)); cbn;
        repeat match goal with |- context [match ?c with _ => _ end] => destruct c end;
        reflexivity.
    + cbn. by match goal with |- context [if ?c then _ else _] => destruct c end.
  - reflexivity.
  - unfold gracefulShutdown.
    match goal with |- context [if ?c then _ else _] => destruct c end; [reflexivity|].
    match goal with |- context [shutdown_loop ?l ?g w] =>
      pose proof (rates_shutdown_loop l g w) as H;
      destruct (shutdown_loop l g w) end.
    exact H.
  - unfold resetTimeout. destruct (sockets_get r w); [|reflexivity].
    apply same_books_reset.
  - unfold terminate. rewrite Hop.
    destruct (sockets_get _ w) as [s|]; [|reflexivity].
    by destruct (timeoutTimer s).
  - unfold new_url. by destruct (useConnectionKeys (config w)) as [[|]|].
  - reflexivity.
  - reflexivity.
Qed.

End RateEntriesStay.

(** X9: rate-limit entries are never pruned. Apart from [terminate()]
    without a reference and [destroy()], which empty the map, no operation
    of the controller and no event takes an entry out of the rate-limit map:
    the periodic sweep cleans the pending keys only, and an entry whose
    window has long elapsed stays until its client comes back. Only [add]
    writes the map, through the rate check of the request. So along any
    series of operations without those two, the entries only accumulate. *)
Theorem rate_entries_never_expire :
  (forall (op : Operation) (w : World) (c : string),
     clears_maps op = false ->
     is_Some (rateLimitMap w !! c) -> is_Some (rateLimitMap (exec op w) !! c)) /\
  (forall (ops : list Operation) (w : World) (c : string),
     forallb (fun op => negb (clears_maps op)) ops = true ->
     is_Some (rateLimitMap w !! c) -> is_Some (rateLimitMap (run ops w) !! c)) /\
  (forall (op : Operation) (w : World),
     clears_maps op = false ->
     (forall ws req now resumed, op <> CallAdd ws req now resumed) ->
     rateLimitMap (exec op w) = rateLimitMap w) /\
  (forall (now : Z) (w : World),
     rateLimitMap (cleanupExpiredKeys now w) = rateLimitMap w).
Proof.
  assert (Hone : forall (op : Operation) (w : World) (c : string),
            clears_maps op = false ->
            is_Some (rateLimitMap w !! c) -> is_Some (rateLimitMap (exec op w) !! c)).
  { intros op w c Hop Hc. rewrite exec_rates by exact Hop.
    destruct op; try exact Hc.
    destruct (bool_decide _); [by apply checkRateLimit_keeps | exact Hc]. }
  split; [exact Hone|]. split; [|split].
  - intros ops. induction ops as [|op ops IH]; intros w c Hops Hc; [exact Hc|].
    cbn [forallb] in Hops. apply andb_true_iff in Hops as [Hop Hops].
    apply negb_true_iff in Hop.
    change (run (op :: ops) w) with (run ops (exec op w)).
    apply IH; [exact Hops | by apply Hone].
  - intros op w Hop Hnot. rewrite exec_rates by exact Hop.
    destruct op; try reflexivity. exfalso. by eapply Hnot.
  - reflexivity.
Qed.

Lemma rate_entries_never_expire_witness :
  let cfg := {| authHandler := None; limit := None; useConnectionKeys := Some false;
                pendingKeyExpiration := None; requiredParams := None;
                timeout := None;
                rateLimit := Some {| RateLimit.max := 1; RateLimit.window := 1000 |};
                disposer := false |} in
  let w := run [TransportConnection "a" 0; CallAdd "a" plain_request 0 0]
             (new_controller cfg) in
  is_Some (rateLimitMap
             (run [OnClose "a" 1000 "bye"; KeySweep 5000000; KeySweep 9000000] w)
           !! "127.0.0.1:test").
Proof.
  intros cfg w.
  destruct rate_entries_never_expire as (_ & Hrun & _).
  apply Hrun; [reflexivity|]. vm_compute. eauto.
Defined.

(** ** Pending keys over time *)

Section KeysOverTime.






Lemma keys_terminate_each (socks : list ReferencedWebSocket) :
  forall w, pendingKeys (terminate_each socks w) = pendingKeys w.
Proof.
  induction socks as [|s socks IH]; intros w; [reflexivity|]. cbn [terminate_each].
  rewrite IH. by destruct (timeoutTimer s).
Qed.








Section OneKey.

Variables (token id : string) (e : PendingKey).
Hypothesis key_e : key e = token.














End OneKey.










End KeysOverTime.




(** ** The connection limit *)

Section Capacity.

Lemma auth_at_once ws req ps resumed (w : World) :
  add_auth ws req ps resumed w
  = match auth_begin ws req ps w with
    | (w1, Some k) => add_resume k resumed w1
    | (w1, None) => w1
    end.
Proof.
  unfold add_auth, auth_begin, add_resume. cbn.
  by destruct (match authHandler (config w) with Some h => h | None => _ end req)
    as [[|]|e].
Qed.

Lemma params_at_once ws req ps resumed (w : World) :
  add_params ws req ps resumed w
  = match params_begin ws req ps w with
    | (w1, Some k) => add_resume k resumed w1
    | (w1, None) => w1
    end.
Proof.
  unfold add_params, params_begin.
  destruct (requiredParams (config w)) as [required|]; [|apply auth_at_once].
  destruct (first_missing required ps); [reflexivity | apply auth_at_once].
Qed.

Lemma key_at_once ws req ps now resumed (w : World) :
  add_key ws req ps now resumed w
  = match key_begin ws req ps now w with
    | (w1, Some k) => add_resume k resumed w1
    | (w1, None) => w1
    end.
Proof.
  unfold add_key, key_begin.
  destruct (useConnectionKeys (config w)) as [[|]|]; try apply params_at_once.
  destruct (validateConnectionKey _ now _) as [[|] w1];
    [apply params_at_once | reflexivity].
Qed.

(** The two halves of [add], run back to back, are [add]. *)
Lemma add_is_at_once ws req now resumed (w : World) :
  add ws req now resumed w = add_at_once ws req now resumed w.
Proof.
  unfold add, add_at_once, add_begin.
  destruct (checkRateLimit req now _) as [[|] w1]; cbn [negb]; [|reflexivity].
  destruct (at_capacity _); [reflexivity|].
  destruct (searchParams req) as [ps|]; [apply key_at_once | reflexivity].
Qed.

(** The first half of [add] leaves the connection map, the socket objects,
    the timers and the configuration alone. *)
Lemma add_begin_core ws req now (w : World) :
  same_core w (fst (add_begin ws req now w)).
Proof.
  unfold add_begin.
  pose proof (same_core_checkRateLimit req now (act (Evaluated CheckRateLimit) w)) as H1.
  destruct (checkRateLimit req now _) as [allowed w1]. cbn [snd] in H1.
  assert (Hw1 : same_core w w1)
    by (eapply same_core_trans; [apply same_core_act | exact H1]).
  assert (Hact : forall a w0, same_core w w0 -> same_core w (act a w0)).
  { intros a w0 H0. eapply same_core_trans; [exact H0 | apply same_core_act]. }
  destruct allowed; cbn [negb fst]; [|by apply Hact].
  destruct (at_capacity _); cbn [fst]; [by apply Hact, Hact|].
  destruct (searchParams req) as [ps|]; cbn [fst];
    [|unfold add_catch; destruct (Nat.eqb _ 0); by apply Hact, Hact, Hact].
  assert (Hauth : forall w0, same_core w w0 -> same_core w (fst (auth_begin ws req ps w0))).
  { intros w0 H0. unfold auth_begin. cbn [fst]. by apply Hact. }
  assert (Hparams : forall w0, same_core w w0 ->
            same_core w (fst (params_begin ws req ps w0))).
  { intros w0 H0. unfold params_begin.
    destruct (requiredParams (config w0)) as [required|]; [|by apply Hauth].
    destruct (first_missing required ps); cbn [fst];
      [by apply Hact, Hact | by apply Hauth, Hact]. }
  unfold key_begin. set (w2 := act (Evaluated CheckCapacity) w1).
  assert (Hw2 : same_core w w2) by (by apply Hact).
  destruct (useConnectionKeys (config w2)) as [[|]|]; try by apply Hparams.
  pose proof (same_core_validate (or_string (params_get "key" ps) "") now
                (act (Evaluated CheckKey) w2)) as H3.
  destruct (validateConnectionKey _ now _) as [ok w3]. cbn [snd] in H3.
  assert (Hw3 : same_core w w3).
  { eapply same_core_trans; [|exact H3]. by apply Hact. }
  destruct ok; cbn [fst]; [by apply Hparams | by apply Hact].
Qed.

(** A suspended [add] is one whose capacity check found room. *)
Lemma add_begin_suspended ws req now (w w1 : World) (k : Suspended) :
  add_begin ws req now w = (w1, Some k) ->
  suspended_ws k = ws /\ at_capacity w = false.
Proof.
  unfold add_begin.
  pose proof (same_core_checkRateLimit req now (act (Evaluated CheckRateLimit) w))
    as (Hcfg & _ & Hsock & _).
  destruct (checkRateLimit req now _) as [allowed wa]. cbn [snd] in Hcfg, Hsock.
  destruct allowed; cbn [negb]; [|discriminate].
  assert (Hcap : at_capacity (act (Evaluated CheckCapacity) wa) = at_capacity w).
  { unfold at_capacity. cbn. by rewrite Hcfg, Hsock. }
  rewrite Hcap. destruct (at_capacity w); [discriminate|].
  destruct (searchParams req) as [ps|]; [|discriminate].
  intros Hk. split; [|reflexivity]. revert Hk.
  assert (Hauth : forall w0, auth_begin ws req ps w0 = (w1, Some k) -> suspended_ws k = ws).
  { unfold auth_begin. intros w0 [= _ <-]. reflexivity. }
  assert (Hparams : forall w0, params_begin ws req ps w0 = (w1, Some k) ->
            suspended_ws k = ws).
  { intros w0. unfold params_begin.
    destruct (requiredParams (config w0)) as [required|]; [|apply Hauth].
    destruct (first_missing required ps); [discriminate | apply Hauth]. }
  unfold key_begin.
  destruct (useConnectionKeys _) as [[|]|]; try apply Hparams.
  destruct (validateConnectionKey _ now _) as [[|] w3]; [apply Hparams | discriminate].
Qed.

Lemma add_register_sockets ws ps resumed (w : World) :
  sockets (add_register ws ps resumed w) = sockets_set ws (sockets w) /\
  config (add_register ws ps resumed w) = config w.
Proof.
  unfold add_register. set (w2 := set_sockets _ _).
  destruct (timeout_enabled (config w)); [|by split].
  destruct (quiet_setupSocketTimeout ws resumed w2) as (_ & Hs & Hc).
  cbn. by rewrite Hs, Hc.
Qed.

Lemma add_resume_sockets (k : Suspended) (resumed : Z) (w : World) :
  config (add_resume k resumed w) = config w /\
  sockets (add_resume k resumed w)
  = match suspended_result k with
    | Returns true => sockets_set (suspended_ws k) (sockets w)
    | _ => sockets w
    end.
Proof.
  unfold add_resume. destruct (suspended_result k) as [[|]|e];
    [|by split|unfold add_catch; destruct (Nat.eqb _ 0); by split].
  destruct (add_register_sockets (suspended_ws k) (suspended_params k) resumed w).
  by split.
Qed.

Lemma length_sockets_delete (ws : string) (l : list string) :
  (List.length (sockets_delete ws l) <= List.length l)%nat.
Proof. unfold sockets_delete. apply List.filter_length_le. Qed.

Lemma close_handler_step ws code reason (w : World) :
  config (close_handler ws code reason w) = config w /\
  sockets (close_handler ws code reason w) = sockets_delete ws (sockets w).
Proof.
  unfold close_handler. cbn [heap set_sockets].
  destruct (heap w !! ws) as [s|]; [destruct (timeoutTimer s)|]; by split.
Qed.

Lemma close_handler_iter ws code reason (n : nat) (w : World) :
  config (Nat.iter n (close_handler ws code reason) w) = config w /\
  (List.length (sockets (Nat.iter n (close_handler ws code reason) w))
   <= List.length (sockets w))%nat.
Proof.
  induction n as [|n [IHc IHs]]; [by split|].
  change (Nat.iter (S n) (close_handler ws code reason) w)
    with (close_handler ws code reason (Nat.iter n (close_handler ws code reason) w)).
  destruct (close_handler_step ws code reason
              (Nat.iter n (close_handler ws code reason) w)) as [-> ->].
  split; [exact IHc|]. etransitivity; [apply length_sockets_delete | exact IHs].
Qed.

(** The configuration never changes, and only [add] lets the connection
    map grow. *)
Lemma exec_step (op : Operation) (w : World) :
  config (exec op w) = config w /\
  ((List.length (sockets (exec op w)) <= List.length (sockets w))%nat \/
   exists ws req now resumed,
     op = CallAdd ws req now resumed /\ exec op w = add ws req now resumed w).
Proof.
  assert (Hcore : forall w', same_core w w' ->
            config w' = config w /\
            ((List.length (sockets w') <= List.length (sockets w))%nat \/
             exists ws req now resumed,
               op = CallAdd ws req now resumed /\ w' = add ws req now resumed w)).
  { intros w' (Hc & _ & Hs & _). split; [exact Hc|]. left. by rewrite Hs. }
  assert (Hsame : forall w', config w' = config w -> sockets w' = sockets w ->
            config w' = config w /\
            ((List.length (sockets w') <= List.length (sockets w))%nat \/
             exists ws req now resumed,
               op = CallAdd ws req now resumed /\ w' = add ws req now resumed w)).
  { intros w' Hc Hs. split; [exact Hc|]. left. by rewrite Hs. }
  destruct op; cbn [exec].
  - destruct (heap w !! ws); (split; [reflexivity | by left]).
  - split; [reflexivity | by left].
  - unfold on_close. destruct (heap w !! ws) as [s|]; [|apply Hcore, same_core_refl].
    destruct (close_handler_iter ws code reason (closeListeners s)
                (update_socket ws
                   (fun s => with_listeners O (errorListeners s) (activityListeners s) s) w))
      as [Hc Hs].
    split; [exact Hc | left; exact Hs].
  - apply Hcore, same_core_on_error.
  - unfold on_activity. destruct (heap w !! ws) as [s|]; [|apply Hcore, same_core_refl].
    assert (Hit : forall n, config (Nat.iter n (resetSocketTimeout ws now) w) = config w /\
                            sockets (Nat.iter n (resetSocketTimeout ws now) w) = sockets w).
    { induction n as [|n [IHc IHs]]; [by split|].
      change (Nat.iter (S n) (resetSocketTimeout ws now) w)
        with (resetSocketTimeout ws now (Nat.iter n (resetSocketTimeout ws now) w)).
      unfold resetSocketTimeout at 1 3.
      destruct (quiet_setupSocketTimeout ws now
                  (update_socket ws (with_lastActivity now)
                     (Nat.iter n (resetSocketTimeout ws now) w))) as (_ & Hs & Hc).
      rewrite Hs, Hc. by split. }
    destruct (Hit (activityListeners s)) as [Hc Hs].
    split; [exact Hc | left; by rewrite Hs].
  - unfold timer_fired. destruct (timers w !! h); [|apply Hcore, same_core_refl].
    destruct (open_in _ _); by apply Hsame.
  - apply Hcore. repeat split.
  - apply Hcore. apply same_core_terminate_open.
  - destruct (heap w !! ws); [|apply Hcore, same_core_refl].
    split; [|right; eauto 10].
    rewrite add_is_at_once. unfold add_at_once.
    pose proof (add_begin_core ws req now w) as (Hc & _).
    destruct (add_begin ws req now w) as [w1 [k|]]; cbn [fst] in Hc; [|exact Hc].
    destruct (add_resume_sockets k resumed w1) as [-> _]. exact Hc.
  - apply Hcore. repeat split.
  - apply Hcore. apply same_core_broadcast.
  - apply Hcore. apply same_core_send.
  - apply Hcore, same_core_refl.
  - apply Hcore. apply same_core_gracefulShutdown.
  - unfold resetTimeout.
    match goal with |- context [sockets_get ?r0 w] => destruct (sockets_get r0 w) end;
      [|apply Hcore, same_core_refl].
    cbn [snd]. unfold resetSocketTimeout.
    match goal with |- context [setupSocketTimeout ?r0 ?n0 ?w0] =>
      destruct (quiet_setupSocketTimeout r0 n0 w0) as (_ & Hs & Hc) end.
    rewrite Hs, Hc. split; [reflexivity | by left].
  - unfold terminate.
    destruct (String.eqb (or_string r "") "").
    + cbn [fst].
      destruct (terminate_each_spec (socket_values w) w) as (_ & _ & _ & _ & Hc & _).
      split; [exact Hc | left; cbn; lia].
    + destruct (sockets_get _ w) as [s|]; [|apply Hcore, same_core_refl].
      destruct (timeoutTimer s); by apply Hsame.
  - unfold destroy.
    destruct (destroy_each_spec (socket_values w) w) as (_ & _ & _ & _ & Hc & _).
    destruct (disposer (config w)); (split; [exact Hc | left; cbn; lia]).
  - unfold new_url. destruct (useConnectionKeys (config w)) as [[|]|];
      by apply Hsame.
  - apply Hcore, same_core_refl.
  - by apply Hsame.
Qed.

End Capacity.
Section CapacityBound.

Lemma length_sockets_set (ws : string) (l : list string) :
  (List.length (sockets_set ws l) <= S (List.length l))%nat.
Proof.
  unfold sockets_set. destruct (bool_decide (ws ∈ l)); [lia|].
  rewrite length_app. simpl. lia.
Qed.

Lemma run_config (ops : list Operation) :
  forall w, config (run ops w) = config w.
Proof.
  induction ops as [|op ops IH]; intros w; [reflexivity|].
  change (run (op :: ops) w) with (run ops (exec op w)).
  rewrite IH. apply exec_step.
Qed.

Lemma exec_within_limit (op : Operation) (w : World) (n : Z) :
  limit (config w) = Some n -> 0 < n ->
  Z.of_nat (List.length (sockets w)) <= n ->
  Z.of_nat (List.length (sockets (exec op w))) <= n.
Proof.
  intros Hlim Hpos Hle.
  destruct (exec_step op w) as [_ [Hs|(ws & req & now & resumed & -> & Heq)]]; [lia|].
  rewrite Heq, add_is_at_once. unfold add_at_once.
  pose proof (add_begin_core ws req now w) as (_ & _ & Hsock & _).
  destruct (add_begin ws req now w) as [w1 [k|]] eqn:Hb; cbn [fst] in Hsock;
    [|by rewrite Hsock].
  destruct (add_begin_suspended ws req now w w1 k Hb) as [_ Hcap].
  destruct (add_resume_sockets k resumed w1) as [_ ->].
  destruct (suspended_result k) as [[|]|e]; rewrite ?Hsock; try exact Hle.
  pose proof (length_sockets_set (suspended_ws k) (sockets w)) as Hset.
  unfold at_capacity in Hcap. rewrite Hlim in Hcap. cbn in Hcap.
  assert ((n =? 0) = false) as Hz by (apply Z.eqb_neq; lia).
  rewrite Hz in Hcap. cbn [negb andb] in Hcap.
  assert (~ n <= Z.of_nat (List.length (sockets w))).
  { intros Hge. apply Z.geb_le in Hge. congruence. }
  lia.
Qed.

End CapacityBound.

(** X10: the connection limit when admissions do not overlap. In every
    state that a controller with a positive [limit] reaches through
    operations and events, each [add] running to its end before the next,
    the connection map holds at most [limit] connections. A [limit] of [0]
    is no limit at all: it never rejects a connection. *)
Theorem limit_holds_without_overlap
    (cfg : WebSocketEndpointConfig) (ops : list Operation) :
  let w := run ops (new_controller cfg) in
  (forall n, limit cfg = Some n -> 0 < n ->
     Z.of_nat (List.length (sockets w)) <= n) /\
  (limit cfg = Some 0 \/ limit cfg = None -> at_capacity w = false).
Proof.
  intros w. split.
  - intros n Hlim Hpos. subst w.
    assert (Hgen : forall w0, limit (config w0) = Some n ->
              Z.of_nat (List.length (sockets w0)) <= n ->
              Z.of_nat (List.length (sockets (run ops w0))) <= n).
    { induction ops as [|op ops IH]; intros w0 Hl Hle; [exact Hle|].
      change (run (op :: ops) w0) with (run ops (exec op w0)).
      apply IH; [|by apply exec_within_limit].
      destruct (exec_step op w0) as [-> _]. exact Hl. }
    apply Hgen; [exact Hlim | simpl; lia].
  - intros Hlim. unfold at_capacity. subst w. rewrite run_config. cbn [config new_controller
      construct_config limit].
    destruct Hlim as [-> | ->]; reflexivity.
Qed.

Lemma limit_holds_without_overlap_witness :
  let cfg := {| authHandler := None; limit := Some 1; useConnectionKeys := Some false;
                pendingKeyExpiration := None; requiredParams := None;
                timeout := None; rateLimit := None; disposer := false |} in
  let w := run [TransportConnection "a" 0; TransportConnection "b" 0;
                CallAdd "a" plain_request 0 0; CallAdd "b" plain_request 1 1]
             (new_controller cfg) in
  Z.of_nat (List.length (sockets w)) <= 1 /\
  closes (log w) = [("b", 1013, "Too many connections")].
Proof.
  intros cfg w.
  destruct (limit_holds_without_overlap cfg
              [TransportConnection "a" 0; TransportConnection "b" 0;
               CallAdd "a" plain_request 0 0; CallAdd "b" plain_request 1 1])
    as [Hbound _].
  split; [apply Hbound; [reflexivity | lia] | vm_compute; reflexivity].
Defined.

(** X11: the connection limit is checked before the [await] of the
    authentication handler and not again after it. When two admissions both
    reach the [await] before either resumes, both have passed the capacity
    check against the same connection map; if both handlers return true,
    both connections are registered, so that a map that had room for one
    more connection ends one above its limit. *)
Theorem limit_is_checked_before_the_await
    (a b : string) (reqa reqb : IncomingMessage) (ta tb ra rb : Z)
    (w wa wb : World) (ka kb : Suspended) :
  add_begin a reqa ta w = (wa, Some ka) ->
  add_begin b reqb tb wa = (wb, Some kb) ->
  suspended_result ka = Returns true ->
  suspended_result kb = Returns true ->
  a <> b -> a ∉ sockets w -> b ∉ sockets w ->
  let w' := add_resume kb rb (add_resume ka ra wb) in
  at_capacity w = false /\ at_capacity wa = false /\
  sockets wb = sockets w /\
  sockets w' = sockets w ++ [a; b] /\
  config w' = config w /\
  (forall n, limit (config w) = Some n ->
     Z.of_nat (List.length (sockets w)) + 1 = n ->
     Z.of_nat (List.length (sockets w')) = n + 1 /\ at_capacity w' = true).
Proof.
  intros Hba Hbb Hra Hrb Hab Ha Hb w'.
  destruct (add_begin_suspended a reqa ta w wa ka Hba) as [Hwsa Hcapa].
  destruct (add_begin_suspended b reqb tb wa wb kb Hbb) as [Hwsb Hcapb].
  pose proof (add_begin_core a reqa ta w) as (Hca & _ & Hsa & _).
  pose proof (add_begin_core b reqb tb wa) as (Hcb & _ & Hsb & _).
  rewrite Hba in Hca, Hsa. rewrite Hbb in Hcb, Hsb. cbn [fst] in Hca, Hsa, Hcb, Hsb.
  destruct (add_resume_sockets ka ra wb) as [Hc1 Hs1].
  destruct (add_resume_sockets kb rb (add_resume ka ra wb)) as [Hc2 Hs2].
  rewrite Hra, Hwsa in Hs1. rewrite Hrb, Hwsb in Hs2.
  assert (Hsock : sockets w' = sockets w ++ [a; b]).
  { subst w'. rewrite Hs2, Hs1, Hsb, Hsa. unfold sockets_set.
    rewrite (bool_decide_eq_false_2 (a ∈ sockets w)) by exact Ha.
    rewrite bool_decide_eq_false_2.
    - by rewrite <- app_assoc.
    - intros Hin. apply elem_of_app in Hin as [Hin|Hin]; [contradiction|].
      apply list_elem_of_singleton in Hin. congruence. }
  assert (Hcfg : config w' = config w) by (subst w'; congruence).
  split; [exact Hcapa|]. split; [exact Hcapb|]. split; [congruence|].
  split; [exact Hsock|]. split; [exact Hcfg|].
  intros n Hlim Hlen. rewrite Hsock, length_app. cbn [List.length].
  split; [lia|]. unfold at_capacity. rewrite Hcfg, Hlim, Hsock, length_app.
  cbn [List.length truthy_number or_number].
  assert ((n =? 0) = false) as -> by (apply Z.eqb_neq; lia).
  cbn [negb andb]. apply Z.geb_le. lia.
Qed.

Lemma limit_is_checked_before_the_await_witness :
  let cfg := {| authHandler := None; limit := Some 1; useConnectionKeys := Some false;
                pendingKeyExpiration := None; requiredParams := None;
                timeout := None; rateLimit := None; disposer := false |} in
  let w := run [TransportConnection "a" 0; TransportConnection "b" 0]
             (new_controller cfg) in
  let wa := fst (add_begin "a" plain_request 0 w) in
  let wb := fst (add_begin "b" plain_request 1 wa) in
  let k r := {| suspended_ws := r; suspended_params := [];
                suspended_result := Returns true |} in
  sockets (add_resume (k "b") 3 (add_resume (k "a") 2 wb)) = ["a"; "b"] /\
  limit (config w) = Some 1.
Proof.
  intros cfg w wa wb k.
  destruct (limit_is_checked_before_the_await "a" "b" plain_request plain_request
              0 1 2 3 w wa wb (k "a") (k "b"))
    as (_ & _ & _ & Hsock & _);
    [reflexivity | reflexivity | reflexivity | reflexivity | discriminate
    | vm_compute; apply not_elem_of_nil | vm_compute; apply not_elem_of_nil |].
  split; [exact Hsock | reflexivity].
Defined.

(** ** A connection from admission to close *)

Section Lifecycle.

Lemma add_register_timers ws ps resumed (w : World) (s : ReferencedWebSocket) :
  heap w !! ws = Some s ->
  timers (add_register ws ps resumed w)
  = (if timeout_enabled (config w)
     then <[nextTimer w := ws]>
            (match timeoutTimer s with
             | Some h => delete h (timers w)
             | None => timers w
             end)
     else timers w).
Proof.
  intros Hs. unfold add_register. set (w2 := set_sockets _ _).
  assert (Hs2 : heap w2 !! ws = Some (with_params (fromEntries ps) s)).
  { unfold w2, update_socket. simpl. by rewrite lookup_alter_eq, Hs. }
  destruct (timeout_enabled (config w)) eqn:Hon; [|reflexivity].
  destruct (setupSocketTimeout_spec ws _ resumed w2 Hs2
              (timeout_enabled_truthy (config w) Hon)) as (_ & _ & Ht & _).
  cbn. exact Ht.
Qed.

Lemma sockets_delete_set (ws : string) (l : list string) :
  ws ∉ l -> sockets_delete ws (sockets_set ws l) = l.
Proof.
  intros Hout. unfold sockets_set, sockets_delete.
  rewrite bool_decide_eq_false_2 by exact Hout.
  rewrite List.filter_app. cbn. rewrite String.eqb_refl. cbn. rewrite app_nil_r.
  induction l as [|r l IH]; [reflexivity|]. cbn.
  apply not_elem_of_cons in Hout as [Hne Hout].
  assert (String.eqb r ws = false) as -> by (apply String.eqb_neq; congruence).
  cbn. by rewrite IH.
Qed.

(** The next handle that [setTimeout] hands out is not a pending timer. *)
Lemma next_timer_free (w : World) : timers_owned w -> timers w !! nextTimer w = None.
Proof.
  intros [Hown Hold]. destruct (timers w !! nextTimer w) as [r|] eqn:Hp; [|reflexivity].
  destruct (Hown _ _ Hp) as (s & Hs & Hts). specialize (Hold _ _ _ Hs Hts). lia.
Qed.

End Lifecycle.

(** X12: a connection from admission to close. A socket object fresh from
    the transport that [add] admits and on which the transport then emits
    [close] leaves the controller as it found it: the connection map and
    the pending timers are what they were before the admission, and the
    socket object holds no timer. The close emits [disconnect] with the
    closing code and reason once, after clearing the idle timer when one was
    armed; and since the listener was installed with [once], a further
    [close] event on the socket changes nothing at all. *)
Theorem registered_then_closed
    (ws : string) (req : IncomingMessage) (now resumed code : Z) (reason : string)
    (w : World) (s : ReferencedWebSocket) :
  timers_owned w ->
  heap w !! ws = Some s -> closeListeners s = O -> timeoutTimer s = None ->
  ws ∉ sockets w -> ws ∈ sockets (add ws req now resumed w) ->
  let w1 := add ws req now resumed w in
  let w2 := on_close ws code reason w1 in
  sockets w2 = sockets w /\
  timers w2 = timers w /\
  pending_timers ws w2 = [] /\
  (timeoutTimer <$> heap w2 !! ws) = Some None /\
  (closeListeners <$> heap w2 !! ws) = Some O /\
  log w2
  = log w1
    ++ (if timeout_enabled (config w) then [ClearTimeout (nextTimer w)] else [])
    ++ [Emit (EvDisconnect ws code reason)] /\
  (forall code' reason', on_close ws code' reason' w2 = w2).
Proof.
  intros Hw Hs Hcl Hts Hout Hin w1 w2.
  destruct (add_inv ws req now resumed w Hout Hin)
    as (_ & _ & ps & _ & _ & _ & _ & wm & Heq & Hcore & _).
  destruct Hcore as (Hcfg & Hheap & Hsock & Htim & Hnext).
  assert (Hsm : heap wm !! ws = Some s) by (by rewrite Hheap).
  destruct (add_register_spec ws ps resumed wm s Hsm) as (Hso & Hh & _ & _ & _).
  pose proof (add_register_timers ws ps resumed wm s Hsm) as Ht.
  rewrite Hts, Hcfg, Hnext, Htim in Ht. rewrite Hcfg, Hnext in Hh. rewrite Hsock in Hso.
  rewrite <- Heq in Hso, Hh, Ht. fold w1 in Hso, Hh, Ht.
  set (timed := timeout_enabled (config w)) in *.
  set (s1 := registered_socket ps timed (nextTimer w) resumed s) in *.
  assert (Hfree : timers w !! nextTimer w = None) by (by apply next_timer_free).
  (* the close event *)
  set (w1' := update_socket ws
                (fun s => with_listeners O (errorListeners s) (activityListeners s) s) w1).
  assert (Hw2 : w2 = close_handler ws code reason w1').
  { subst w2. unfold on_close. rewrite Hh. subst s1. cbn [closeListeners registered_socket].
    rewrite Hcl. reflexivity. }
  assert (Hh1' : heap w1' !! ws
                 = Some (with_listeners O (errorListeners s1) (activityListeners s1) s1)).
  { unfold w1', update_socket. cbn. by rewrite lookup_alter_eq, Hh. }
  set (s1' := with_listeners O (errorListeners s1) (activityListeners s1) s1) in *.
  assert (Hts1 : timeoutTimer s1' = if timed then Some (nextTimer w) else None).
  { subst s1' s1. cbn. by rewrite Hts. }
  assert (Hdel : sockets_delete ws (sockets w1') = sockets w).
  { unfold w1', update_socket. cbn. rewrite Hso. by apply sockets_delete_set. }
  assert (Hfacts :
    sockets w2 = sockets w /\ timers w2 = timers w /\
    (exists s2, heap w2 !! ws = Some s2 /\ timeoutTimer s2 = None /\ closeListeners s2 = O) /\
    log w2 = log w1 ++ (if timed then [ClearTimeout (nextTimer w)] else [])
                   ++ [Emit (EvDisconnect ws code reason)]).
  { rewrite Hw2. unfold close_handler. cbn [heap set_sockets]. rewrite Hh1', Hts1.
    destruct timed.
    - unfold update_socket, clearTimeout.
      cbn [sockets timers heap log act set_heap set_timers set_sockets].
      rewrite Hdel. split; [reflexivity|]. split.
      { change (timers w1') with (timers w1). rewrite Ht.
        rewrite delete_insert_eq. by apply delete_id. }
      split.
      { eexists. rewrite lookup_alter_eq, Hh1'. cbn. by repeat split. }
      change (log w1') with (log w1). by rewrite <- app_assoc.
    - cbn [sockets timers heap log act set_sockets]. rewrite Hdel, Hh1'.
      split; [reflexivity|]. split; [exact Ht|]. split; [|reflexivity].
      eexists. split; [reflexivity|]. split; [exact Hts1 | reflexivity]. }
  destruct Hfacts as (Hs2 & Ht2 & (s2 & Hh2 & Hts2 & Hcl2) & Hl2).
  split; [exact Hs2|]. split; [exact Ht2|]. split.
  { destruct (pending_timers ws w2) as [|h l] eqn:Hp; [reflexivity|]. exfalso.
    assert (Hin' : List.In h (pending_timers ws w2)) by (rewrite Hp; by left).
    apply pending_timers_In in Hin'. rewrite Ht2 in Hin'.
    destruct Hw as [Hown _]. destruct (Hown _ _ Hin') as (s0 & Hs0 & Hts0). congruence. }
  split; [by rewrite Hh2; cbn; rewrite Hts2|].
  split; [by rewrite Hh2; cbn; rewrite Hcl2|].
  split; [exact Hl2|].
  intros code' reason'. unfold on_close. rewrite Hh2, Hcl2. cbn [Nat.iter nat_rect].
  unfold update_socket.
  assert (Hid : alter (fun s => with_listeners O (errorListeners s) (activityListeners s) s)
                  ws (heap w2) = heap w2).
  { apply map_eq. intros r. destruct (decide (r = ws)) as [->|Hne].
    - rewrite lookup_alter_eq, Hh2. cbn. f_equal. destruct s2. cbn in Hcl2. by subst.
    - by rewrite lookup_alter_ne. }
  rewrite Hid. by destruct w2.
Qed.

Lemma registered_then_closed_witness :
  let w := run [TransportConnection "a" 0] (new_controller timed_config) in
  let w2 := on_close "a" 1000 "bye" (add "a" plain_request 5 6 w) in
  sockets w2 = [] /\ timers w2 = ∅ /\
  log w2 = [Evaluated CheckRateLimit; Evaluated CheckCapacity; Evaluated CheckAuth;
            SetTimeout 0 30000; Emit (EvConnect "a");
            ClearTimeout 0; Emit (EvDisconnect "a" 1000 "bye")] /\
  on_close "a" 1006 "" w2 = w2.
Proof.
  intros w w2.
  assert (Hw : timers_owned w) by (apply run_owned, new_controller_owned).
  destruct (registered_then_closed "a" plain_request 5 6 1000 "bye" w (fresh_socket "a" 0))
    as (Hs & Ht & _ & _ & _ & Hl & Honce);
    [exact Hw | reflexivity | reflexivity | reflexivity
    | vm_compute; apply not_elem_of_nil | vm_compute; apply list_elem_of_here |].
  fold w2 in Hs, Ht, Hl, Honce.
  split; [rewrite Hs; reflexivity|]. split; [rewrite Ht; reflexivity|].
  split; [rewrite Hl; vm_compute; reflexivity | apply Honce].
Defined.

(** ** Outgoing messages *)

Section Outgoing.

Lemma same_core_complete_all (outs : list (option Error)) :
  forall b w, same_core w (snd (complete_all outs b w)).
Proof.
  induction outs as [|out outs IH]; intros b w; [apply same_core_refl|].
  cbn [complete_all]. unfold send_completed, complete_one.
  match goal with |- context [if ?c then act ?a w else w] =>
    destruct c; (eapply same_core_trans; [|apply IH]);
      [apply same_core_act | apply same_core_refl] end.
Qed.

Lemma same_core_pending (w w' : World) (r : string) :
  same_core w w' -> pending_timers r w' = pending_timers r w.
Proof. intros (_ & _ & _ & Ht & _). unfold pending_timers. by rewrite Ht. Qed.

End Outgoing.

(** X13: [send]. It returns [true] exactly when the reference is
    registered, the socket is open and the transport's [send] does not
    throw; then the payload goes to the transport once, together with the
    callback, which the controller itself does not call. Otherwise nothing
    is sent and the callback, when given, is called once. Either way
    sending is not activity: the socket objects (their [lastActivity]
    included), the pending idle timers and the connection map are as they
    were, so the idle timer of a connection keeps running from its last
    incoming message however much is sent to it; and the same holds for a
    [broadcast] and the completion of its sends. *)
Theorem sending_is_not_activity (w : World) :
  (forall r data cb throws,
     let ok := fst (fst (send r data cb throws w)) in
     let w' := snd (fst (send r data cb throws w)) in
     (ok = true <->
      exists s, sockets_get r w = Some s /\ readyState s = OPEN /\ throws r = None) /\
     (exists d, log w' = log w ++ d /\
                sends d = (if ok then [(r, data)] else []) /\
                List.length (send_callbacks d)
                = (if ok then O else if cb then 1%nat else O)) /\
     heap w' = heap w /\ timers w' = timers w /\ sockets w' = sockets w /\
     (forall r', pending_timers r' w' = pending_timers r' w)) /\
  (forall data filter cb throws outs,
     let b := fst (fst (broadcast data filter cb throws w)) in
     let w1 := snd (fst (broadcast data filter cb throws w)) in
     let w' := snd (complete_all outs b w1) in
     heap w' = heap w /\ timers w' = timers w /\ sockets w' = sockets w /\
     (forall r', pending_timers r' w' = pending_timers r' w)).
Proof.
  split.
  - intros r data cb throws ok w'.
    pose proof (same_core_send r data cb throws w) as Hcore. fold w' in Hcore.
    split; [|split].
    + subst ok. unfold send. destruct (sockets_get r w) as [s|]; cbn.
      * destruct (readyState s) eqn:Hst; cbn;
          try (split; [discriminate | intros (s' & [= <-] & Hopen & _); congruence]).
        destruct (throws r) as [e|] eqn:Hth; cbn.
        -- split; [discriminate | intros (s' & _ & _ & H); discriminate H].
        -- split; [intros _; eauto | reflexivity].
      * split; [discriminate | intros (s' & H & _); discriminate H].
    + subst ok w'. unfold send. destruct (sockets_get r w) as [s|]; cbn.
      * destruct (is_open (readyState s)); cbn.
        -- destruct (throws r) as [e|]; cbn.
           ++ destruct cb; [eexists [_] | exists []]; cbn; rewrite ?app_nil_r; auto.
           ++ eexists [_]. cbn. auto.
        -- destruct cb; [eexists [_] | exists []]; cbn; rewrite ?app_nil_r; auto.
      * destruct cb; [eexists [_] | exists []]; cbn; rewrite ?app_nil_r; auto.
    + destruct Hcore as (Hc & Hh & Hs & Ht & Hn). split; [exact Hh|].
      split; [exact Ht|]. split; [exact Hs|].
      intros r'. apply same_core_pending. by repeat split.
  - intros data filter cb throws outs b w1 w'.
    assert (Hcore : same_core w w').
    { apply (same_core_trans _ w1); [apply same_core_broadcast|].
      apply same_core_complete_all. }
    destruct Hcore as (Hc & Hh & Hs & Ht & Hn). split; [exact Hh|].
    split; [exact Ht|]. split; [exact Hs|].
    intros r'. apply same_core_pending. by repeat split.
Qed.

Lemma sending_is_not_activity_witness :
  let w := two_open timed_config in
  fst (fst (send "a" "hello" true (fun _ => None) w)) = true /\
  pending_timers "a" (snd (fst (send "a" "hello" true (fun _ => None) w))) = [0%nat] /\
  fst (fst (send "zz" "hello" true (fun _ => None) w)) = false.
Proof.
  intros w. destruct (sending_is_not_activity w) as [Hsend _].
  destruct (Hsend "a" "hello" true (fun _ : string => None))
    as (Hok & _ & _ & _ & _ & Hpend).
  destruct (Hsend "zz" "hello" true (fun _ : string => None)) as (Hno & _).
  split; [|split].
  - apply Hok. destruct (sockets_get "a" w) as [s|] eqn:Hs;
      [|vm_compute in Hs; discriminate Hs].
    exists s. split; [reflexivity|]. split; [|reflexivity].
    vm_compute in Hs. injection Hs as <-. reflexivity.
  - rewrite Hpend. vm_compute. reflexivity.
  - destruct (fst (fst (send "zz" "hello" true (fun _ : string => None) w))) eqn:Hz;
      [|reflexivity].
    destruct Hno as [Hno _]. destruct (Hno eq_refl) as (s & Hs & _).
    vm_compute in Hs. discriminate Hs.
Defined.

(** X14: [broadcast] when no transport [send] throws synchronously. The
    payload goes to the transport for exactly the open connections among
    the selected ones, in admission order; connections that are not open
    are skipped silently. The completion callback, when given, is called
    exactly once: not before the last of those sends has reported, and then
    with the errors that the sends reported, in the order of their reports;
    when no selected connection is open it is called at once with an empty
    list. *)
Theorem broadcast_reports_once
    (data : BufferLike) (throws : string -> option Error)
    (filter : option (ReferencedWebSocket -> bool)) (hasCb : bool) (w : World)
    (outs : list (option Error)) :
  let opened := open_sockets (selected_sockets filter w) in
  Forall (fun s => throws (ref s) = None) (selected_sockets filter w) ->
  (List.length outs <= List.length opened)%nat ->
  exists b0 w0 b1 w1 d,
    broadcast data filter hasCb throws w = (b0, w0, None) /\
    complete_all outs b0 w0 = (b1, w1) /\
    log w1 = log w ++ d /\
    sends d = List.map (fun s => (ref s, data)) opened /\
    callbacks d
    = (if hasCb && bool_decide (List.length outs = List.length opened)
       then [reported_errors outs] else []).
Proof.
  intros opened Hth Hlen.
  destruct (broadcast_without_sync_throw data throws filter hasCb w outs Hth Hlen)
    as (b0 & w0 & d0 & b1 & w1 & d1 & Hb & Hl0 & Hs0 & _ & Hc0 & Hc & Hl1 & Hs1 & Hc1).
  fold opened in Hs0, Hc0, Hc1.
  exists b0, w0, b1, w1, (d0 ++ d1). split; [exact Hb|]. split; [exact Hc|].
  split; [by rewrite Hl1, Hl0, app_assoc|].
  unfold sends, callbacks in *. rewrite !omap_app, Hs0, Hs1, Hc0, Hc1, app_nil_r.
  split; [reflexivity|]. destruct hasCb; [|reflexivity]. cbn [andb].
  destruct opened as [|s l]; destruct outs as [|o outs']; cbn in Hlen |- *;
    try reflexivity; lia.
Qed.

Lemma broadcast_reports_once_witness :
  let w := two_open open_config in
  exists b0 w0 b1 w1 d,
    broadcast "hi" None true (fun _ => None) w = (b0, w0, None) /\
    complete_all [None; Some "late"] b0 w0 = (b1, w1) /\
    log w1 = log w ++ d /\
    sends d = [("a", "hi"); ("b", "hi")] /\ callbacks d = [["late"]].
Proof.
  intros w.
  destruct (broadcast_reports_once "hi" (fun _ => None) None true w
              [None; Some "late"])
    as (b0 & w0 & b1 & w1 & d & Hb & Hc & Hl & Hs & Hcb).
  - vm_compute. repeat constructor.
  - vm_compute. lia.
  - exists b0, w0, b1, w1, d. split; [exact Hb|]. split; [exact Hc|].
    split; [exact Hl|]. split; [rewrite Hs | rewrite Hcb]; vm_compute; reflexivity.
Defined.

(** ** The guards of the idle timeout *)

(** X15: [resetTimeout] and the two guards of the idle timeout. For a
    reference that is not registered [resetTimeout] returns [false] and
    changes nothing. For a registered one it returns [true] even when no
    timeout is configured (or a timeout of [0]): then it stamps
    [lastActivity] and arms nothing. [add] arms the watchdog only for a
    timeout above zero, [setupSocketTimeout] for any timeout other than
    zero: under a negative timeout an admission arms no timer, but
    [resetTimeout] (like any incoming message would, had [add] installed
    the activity listener) schedules one with the negative delay. *)
Theorem timeout_guards (w : World) (r : string) (now : Z) :
  (sockets_get r w = None -> resetTimeout r now w = (false, w)) /\
  (forall s, sockets_get r w = Some s ->
     truthy_number (timeout (config w)) = false ->
     resetTimeout r now w = (true, update_socket r (with_lastActivity now) w)) /\
  (forall s t, sockets_get r w = Some s -> timeout (config w) = Some t -> t < 0 ->
     timeout_enabled (config w) = false /\
     (forall ps resumed,
        timers (add_register r ps resumed w) = timers w /\
        log (add_register r ps resumed w) = log w ++ [Emit (EvConnect r)] /\
        (activityListeners <$> heap (add_register r ps resumed w) !! r)
        = Some (activityListeners s)) /\
     fst (resetTimeout r now w) = true /\
     log (snd (resetTimeout r now w))
     = log w ++ clear_actions s ++ [SetTimeout (nextTimer w) t] /\
     timers (snd (resetTimeout r now w)) !! nextTimer w = Some r).
Proof.
  split; [|split].
  - intros Hget. unfold resetTimeout. by rewrite Hget.
  - intros s Hget Hoff. unfold resetTimeout, resetSocketTimeout, setupSocketTimeout.
    rewrite Hget. cbn [config update_socket set_heap]. by rewrite Hoff.
  - intros s t Hget Ht Hneg.
    assert (Hs : heap w !! r = Some s).
    { unfold sockets_get in Hget. by destruct (bool_decide (r ∈ sockets w)). }
    assert (Hoff : timeout_enabled (config w) = false).
    { unfold timeout_enabled. rewrite Ht. lia. }
    assert (Hon : truthy_number (timeout (config w)) = true).
    { unfold truthy_number. rewrite Ht. apply negb_true_iff. lia. }
    split; [exact Hoff|]. split.
    { intros ps resumed.
      destruct (add_register_spec r ps resumed w s Hs) as (_ & Hh & _ & _ & Hl).
      rewrite (add_register_timers r ps resumed w s Hs), Hoff.
      split; [reflexivity|]. rewrite Hl, Hh, Hoff. by split. }
    unfold resetTimeout. rewrite Hget. cbn [fst snd]. split; [reflexivity|].
    unfold resetSocketTimeout.
    set (w0 := update_socket r (with_lastActivity now) w).
    assert (Hs0 : heap w0 !! r = Some (with_lastActivity now s)).
    { unfold w0, update_socket. cbn. by rewrite lookup_alter_eq, Hs. }
    destruct (setupSocketTimeout_spec r _ now w0 Hs0 Hon) as (_ & _ & Htm & _ & _ & _ & Hl).
    rewrite Hl, Htm. cbn [config w0 update_socket set_heap nextTimer log].
    rewrite Ht. cbn [or_number].
    assert ((t =? 0) = false) as -> by lia.
    split; [reflexivity | apply lookup_insert_eq].
Qed.

Lemma timeout_guards_witness :
  let cfg := {| authHandler := None; limit := None; useConnectionKeys := Some false;
                pendingKeyExpiration := None; requiredParams := None;
                timeout := Some (-1); rateLimit := None; disposer := false |} in
  let w := run [TransportConnection "a" 0; CallAdd "a" plain_request 0 0]
             (new_controller cfg) in
  timers w = ∅ /\
  log (snd (resetTimeout "a" 5 w)) = log w ++ [SetTimeout 0 (-1)] /\
  resetTimeout "zz" 5 w = (false, w).
Proof.
  intros cfg w. destruct (timeout_guards w "a" 5) as (_ & _ & Hneg).
  destruct (timeout_guards w "zz" 5) as (Hnone & _).
  destruct (sockets_get "a" w) as [s|] eqn:Hs; [|vm_compute in Hs; discriminate Hs].
  destruct (Hneg s (-1) eq_refl eq_refl) as (_ & _ & _ & Hl & _); [lia|].
  split; [reflexivity|]. split; [|apply Hnone; reflexivity].
  rewrite Hl. vm_compute in Hs. injection Hs as <-. reflexivity.
Defined.

(** ** The reports [getConnectionsInfo] and [toJSON] *)

Section Reports.

Lemma same_refs_refl (w : World) : same_refs w w.
Proof. by intros r. Qed.

Lemma same_refs_trans (w1 w2 w3 : World) :
  same_refs w1 w2 -> same_refs w2 w3 -> same_refs w1 w3.
Proof. intros H1 H2 r. by rewrite H2, H1. Qed.

Lemma same_refs_heap (w w' : World) : heap w' = heap w -> same_refs w w'.
Proof. intros H r. by rewrite H. Qed.

Lemma same_refs_core (w w' : World) : same_core w w' -> same_refs w w'.
Proof. intros (_ & H & _). by apply same_refs_heap. Qed.

Lemma same_refs_update (r : string) (f : ReferencedWebSocket -> ReferencedWebSocket)
    (w : World) :
  (forall s, ref (f s) = ref s) -> same_refs w (update_socket r f w).
Proof.
  intros Hf r'. unfold update_socket. cbn. destruct (decide (r' = r)) as [->|Hne].
  - rewrite lookup_alter_eq. destruct (heap w !! r) as [s|]; cbn; [|reflexivity].
    by rewrite Hf.
  - by rewrite lookup_alter_ne.
Qed.

Lemma same_refs_setup (r : string) (now : Z) (w : World) :
  same_refs w (setupSocketTimeout r now w).
Proof.
  unfold setupSocketTimeout. destruct (truthy_number (timeout (config w)));
    [|apply same_refs_refl].
  apply (same_refs_trans _ (clear_timer_of r w));
    [apply same_refs_heap, clear_timer_of_heap|].
  unfold setTimeout. cbn.
  match goal with |- same_refs ?w0 (update_socket r ?f ?w1) =>
    apply (same_refs_trans _ w1); [by apply same_refs_heap|];
    by apply same_refs_update end.
Qed.

Lemma same_refs_reset (r : string) (now : Z) (w : World) :
  same_refs w (resetSocketTimeout r now w).
Proof.
  unfold resetSocketTimeout.
  apply (same_refs_trans _ (update_socket r (with_lastActivity now) w));
    [by apply same_refs_update | apply same_refs_setup].
Qed.

Lemma same_refs_iter (f : World -> World) (n : nat) (w : World) :
  (forall w0, same_refs w0 (f w0)) -> same_refs w (Nat.iter n f w).
Proof.
  intros Hf. induction n as [|n IH]; [apply same_refs_refl|].
  change (Nat.iter (S n) f w) with (f (Nat.iter n f w)).
  eapply same_refs_trans; [exact IH | apply Hf].
Qed.

Lemma same_refs_register ws ps resumed (w : World) :
  same_refs w (add_register ws ps resumed w).
Proof.
  unfold add_register. set (w2 := set_sockets _ _).
  assert (H2 : same_refs w w2).
  { apply (same_refs_trans _ (update_socket ws (with_params (fromEntries ps)) w));
      [by apply same_refs_update | by apply same_refs_heap]. }
  apply (same_refs_trans _ (if timeout_enabled (config w)
                            then setupSocketTimeout ws resumed w2 else w2)).
  - destruct (timeout_enabled (config w)); [|exact H2].
    eapply same_refs_trans; [exact H2 | apply same_refs_setup].
  - match goal with |- same_refs ?w0 (act _ (update_socket ws ?f ?w1)) =>
      apply (same_refs_trans _ (update_socket ws f w1));
        [by apply same_refs_update | by apply same_refs_heap] end.
Qed.

Lemma same_refs_close_handler ws code reason (w : World) :
  same_refs w (close_handler ws code reason w).
Proof.
  unfold close_handler. cbn [heap set_sockets].
  destruct (heap w !! ws) as [s|]; [destruct (timeoutTimer s) as [h|]|];
    try (by apply same_refs_heap).
  match goal with |- same_refs _ (act _ (update_socket ws ?f ?w1)) =>
    apply (same_refs_trans _ (update_socket ws f w1));
      [|by apply same_refs_heap];
    apply (same_refs_trans _ w1); [by apply same_refs_heap | by apply same_refs_update]
  end.
Qed.

Lemma same_refs_add ws req now resumed (w : World) :
  same_refs w (add ws req now resumed w).
Proof.
  rewrite add_is_at_once. unfold add_at_once.
  pose proof (add_begin_core ws req now w) as Hcore.
  destruct (add_begin ws req now w) as [w1 [k|]]; cbn [fst] in Hcore;
    [|by apply same_refs_core].
  apply (same_refs_trans _ w1); [by apply same_refs_core|].
  unfold add_resume. destruct (suspended_result k) as [[|]|e];
    [apply same_refs_register | by apply same_refs_heap
    | apply same_refs_core, same_core_add_catch].
Qed.

(** Socket objects are created by the transport only; every other
    operation keeps them, under their references. *)
Lemma exec_refs (op : Operation) (w : World) :
  (forall ws now, op <> TransportConnection ws now) -> same_refs w (exec op w).
Proof.
  intros Hop. destruct op; cbn [exec].
  - exfalso. by eapply Hop.
  - by apply same_refs_update.
  - unfold on_close. destruct (heap w !! ws) as [s|]; [|apply same_refs_refl].
    match goal with |- same_refs w (Nat.iter _ _ ?w0) =>
      apply (same_refs_trans _ w0); [by apply same_refs_update|] end.
    apply same_refs_iter. intros w0. apply same_refs_close_handler.
  - apply same_refs_core, same_core_on_error.
  - unfold on_activity. destruct (heap w !! ws); [|apply same_refs_refl].
    apply same_refs_iter. intros w0. apply same_refs_reset.
  - unfold timer_fired. destruct (timers w !! h); [|apply same_refs_refl].
    destruct (open_in _ _); by apply same_refs_heap.
  - by apply same_refs_heap.
  - apply same_refs_core, same_core_terminate_open.
  - destruct (heap w !! ws); [apply same_refs_add | apply same_refs_refl].
  - by apply same_refs_heap.
  - apply same_refs_core, same_core_broadcast.
  - apply same_refs_core, same_core_send.
  - apply same_refs_refl.
  - apply same_refs_core, same_core_gracefulShutdown.
  - unfold resetTimeout.
    match goal with |- context [sockets_get ?r0 w] => destruct (sockets_get r0 w) end;
      [apply same_refs_reset | apply same_refs_refl].
  - unfold terminate. destruct (String.eqb (or_string r "") "").
    + destruct (terminate_each_spec (socket_values w) w) as (_ & _ & Hh & _).
      by apply same_refs_heap.
    + destruct (sockets_get _ w) as [s|]; [|apply same_refs_refl].
      destruct (timeoutTimer s); by apply same_refs_heap.
  - unfold destroy.
    destruct (destroy_each_spec (socket_values w) w) as (_ & _ & Hh & _).
    destruct (disposer (config w)); by apply same_refs_heap.
  - unfold new_url. destruct (useConnectionKeys (config w)) as [[|]|];
      by apply same_refs_heap.
  - apply same_refs_refl.
  - by apply same_refs_heap.
Qed.

Lemma NoDup_sockets_delete (ws : string) (l : list string) :
  NoDup l -> NoDup (sockets_delete ws l).
Proof.
  unfold sockets_delete. induction l as [|r l IH]; intros Hnd; [constructor|].
  apply NoDup_cons in Hnd as [Hout Hnd]. cbn.
  destruct (negb (String.eqb r ws)); [|by apply IH].
  apply NoDup_cons. split; [|by apply IH].
  intros Hin. apply Hout. apply list_elem_of_In, filter_In in Hin as [Hin _].
  by apply list_elem_of_In.
Qed.

Lemma NoDup_sockets_set (ws : string) (l : list string) :
  NoDup l -> NoDup (sockets_set ws l).
Proof.
  intros Hnd. unfold sockets_set. destruct (bool_decide (ws ∈ l)) eqn:Hd; [exact Hnd|].
  apply bool_decide_eq_false_1 in Hd. apply NoDup_app. split; [exact Hnd|].
  split; [|apply NoDup_singleton].
  intros r Hr Hin. apply list_elem_of_singleton in Hin. by subst.
Qed.

(** What one operation may do to the connection map: leave it, take
    entries out, or (in [add]) enter a socket that exists. *)
Lemma exec_sockets (op : Operation) (w : World) :
  NoDup (sockets w) ->
  NoDup (sockets (exec op w)) /\
  (forall r, r ∈ sockets (exec op w) -> r ∈ sockets w \/ is_Some (heap w !! r)).
Proof.
  intros Hnd.
  assert (Hsame : forall w', sockets w' = sockets w ->
            NoDup (sockets w') /\
            (forall r, r ∈ sockets w' -> r ∈ sockets w \/ is_Some (heap w !! r))).
  { intros w' ->. split; [exact Hnd | by left]. }
  assert (Hcore : forall w', same_core w w' ->
            NoDup (sockets w') /\
            (forall r, r ∈ sockets w' -> r ∈ sockets w \/ is_Some (heap w !! r))).
  { intros w' (_ & _ & Hs & _). by apply Hsame. }
  destruct op; cbn [exec].
  - apply Hsame. by destruct (heap w !! ws).
  - by apply Hsame.
  - unfold on_close. destruct (heap w !! ws) as [s|]; [|by apply Hsame].
    set (w0 := update_socket ws _ w).
    assert (Hit : forall n,
              NoDup (sockets (Nat.iter n (close_handler ws code reason) w0)) /\
              (forall r, r ∈ sockets (Nat.iter n (close_handler ws code reason) w0) ->
                         r ∈ sockets w)).
    { induction n as [|n [IHn IHs]]; [by split|].
      change (Nat.iter (S n) (close_handler ws code reason) w0)
        with (close_handler ws code reason (Nat.iter n (close_handler ws code reason) w0)).
      destruct (close_handler_step ws code reason
                  (Nat.iter n (close_handler ws code reason) w0)) as [_ ->].
      split; [by apply NoDup_sockets_delete|].
      intros r Hr. apply sockets_delete_spec in Hr as [_ Hr]. by apply IHs. }
    destruct (Hit (closeListeners s)) as [H1 H2]. split; [exact H1 | by left; apply H2].
  - apply Hcore, same_core_on_error.
  - apply Hsame. unfold on_activity. destruct (heap w !! ws); [|reflexivity].
    apply sockets_iter. intros w0. apply sockets_reset.
  - apply Hsame. unfold timer_fired. destruct (timers w !! h); [|reflexivity].
    by destruct (open_in _ _).
  - by apply Hsame.
  - apply Hcore, same_core_terminate_open.
  - destruct (heap w !! ws) as [s|] eqn:Hs; [|by apply Hsame].
    rewrite add_is_at_once. unfold add_at_once.
    pose proof (add_begin_core ws req now w) as (_ & _ & Hsock & _).
    pose proof (add_begin_suspended ws req now w) as Hk.
    destruct (add_begin ws req now w) as [w1 [k|]]; cbn [fst] in Hsock;
      [|by apply Hsame].
    destruct (Hk w1 k eq_refl) as [Hws _].
    destruct (add_resume_sockets k resumed w1) as [_ ->]. rewrite Hsock, Hws.
    destruct (suspended_result k) as [[|]|e]; try (split; [exact Hnd | by left]).
    split; [by apply NoDup_sockets_set|].
    intros r Hr. unfold sockets_set in Hr.
    destruct (bool_decide (ws ∈ sockets w)); [by left|].
    apply elem_of_app in Hr as [Hr|Hr]; [by left|].
    apply list_elem_of_singleton in Hr. subst r. right. rewrite Hs. eauto.
  - by apply Hsame.
  - apply Hcore, same_core_broadcast.
  - apply Hcore, same_core_send.
  - by apply Hsame.
  - apply Hcore, same_core_gracefulShutdown.
  - apply Hsame. unfold resetTimeout.
    match goal with |- context [sockets_get ?r0 w] => destruct (sockets_get r0 w) end;
      [apply sockets_reset | reflexivity].
  - unfold terminate. destruct (String.eqb (or_string r "") "").
    + cbn. split; [constructor | intros r0 Hr0; by apply not_elem_of_nil in Hr0].
    + apply Hsame. destruct (sockets_get _ w) as [s|]; [|reflexivity].
      by destruct (timeoutTimer s).
  - unfold destroy. destruct (disposer (config w)); cbn;
      (split; [constructor | intros r0 Hr0; by apply not_elem_of_nil in Hr0]).
  - apply Hsame. unfold new_url. by destruct (useConnectionKeys (config w)) as [[|]|].
  - by apply Hsame.
  - by apply Hsame.
Qed.

Lemma exec_backed (op : Operation) (w : World) :
  registry_backed w -> registry_backed (exec op w).
Proof.
  intros (Hnd & Hin & Href).
  destruct (exec_sockets op w Hnd) as [Hnd' Hfrom].
  assert (Hheap : (forall r, is_Some (heap w !! r) -> is_Some (heap (exec op w) !! r)) /\
                  (forall r s, heap (exec op w) !! r = Some s -> ref s = r)).
  { destruct op; try (
      match goal with |- context [exec ?o w] =>
        assert (Hr : same_refs w (exec o w)) by (apply exec_refs; discriminate) end;
      split;
      [ intros r0 [s0 Hs0]; specialize (Hr r0); rewrite Hs0 in Hr;
        destruct (heap _ !! r0); [eauto | discriminate Hr]
      | intros r0 s0 Hs0; specialize (Hr r0); rewrite Hs0 in Hr;
        destruct (heap w !! r0) as [s1|] eqn:Hs1; [|discriminate Hr];
        cbn in Hr; injection Hr as Hr; rewrite Hr; by eapply Href ]).
    cbn [exec]. destruct (heap w !! ws) as [s|] eqn:Hs; [by split|].
    cbn. split.
    - intros r0 Hr0. destruct (decide (r0 = ws)) as [->|Hne];
        [rewrite lookup_insert_eq; eauto | by rewrite lookup_insert_ne].
    - intros r0 s0. destruct (decide (r0 = ws)) as [->|Hne].
      + rewrite lookup_insert_eq. by intros [= <-].
      + rewrite lookup_insert_ne by congruence. apply Href. }
  destruct Hheap as [Hkeep Href'].
  split; [exact Hnd'|]. split; [|exact Href'].
  intros r Hr. destruct (Hfrom r Hr) as [Hold|Hnew]; apply Hkeep; [by apply Hin | exact Hnew].
Qed.

Lemma run_backed (ops : list Operation) :
  forall w, registry_backed w -> registry_backed (run ops w).
Proof.
  induction ops as [|op ops IH]; intros w Hw; [exact Hw|].
  change (run (op :: ops) w) with (run ops (exec op w)). by apply IH, exec_backed.
Qed.

Lemma new_controller_backed (cfg : WebSocketEndpointConfig) :
  registry_backed (new_controller cfg).
Proof.
  split; [constructor|]. split.
  - intros r Hr. by apply not_elem_of_nil in Hr.
  - intros r s Hs. cbn in Hs. by rewrite lookup_empty in Hs.
Qed.

(** In a backed registry the socket objects of the connection map are as
    many as its references, and carry them. *)
Lemma socket_values_refs (w : World) :
  registry_backed w -> List.map ref (socket_values w) = sockets w.
Proof.
  intros (_ & Hin & Href). unfold socket_values.
  induction (sockets w) as [|r l IH]; [reflexivity|].
  destruct (Hin r) as [s Hs]; [apply list_elem_of_here|].
  cbn. rewrite Hs. cbn. rewrite (Href r s Hs). f_equal. apply IH.
  intros r' Hr'. apply Hin. by apply list_elem_of_further.
Qed.

End Reports.
(** X16: the two reports of a controller agree with its connection map and
    with each other. In every state that a controller reaches,
    [getConnectionsInfo] lists each registered connection exactly once, in
    admission order; its [total] is the size of the connection map and
    equals [connectionCount] of [toJSON], and the counts of pending keys and
    rate-limit entries of the two reports are the same. For each connection
    [uptime] is the clock minus [connectedAt], and [idleTime] is the clock
    minus [lastActivity] or undefined when no activity was ever stamped.
    The [uptime] of [toJSON] is that of the oldest registered connection,
    and [0] for a controller without connections. *)
Theorem connection_reports_agree
    (cfg : WebSocketEndpointConfig) (ops : list Operation) (now : Z) :
  let w := run ops (new_controller cfg) in
  let connections := fst (fst (fst (getConnectionsInfo now w))) in
  let total := snd (fst (fst (getConnectionsInfo now w))) in
  let json := toJSON now w in
  List.map info_ref connections = sockets w /\
  NoDup (List.map info_ref connections) /\
  total = Z.of_nat (List.length (sockets w)) /\
  total = json_connectionCount json /\
  snd (fst (getConnectionsInfo now w)) = json_pendingKeysCount json /\
  snd (getConnectionsInfo now w) = json_rateLimitEntries json /\
  Forall (fun c =>
            info_uptime c = now - info_connectedAt c /\
            info_idleTime c
            = match info_lastActivity c with
              | Some t => if t =? 0 then None else Some (now - t)
              | None => None
              end) connections /\
  json_uptime json
  = match connections with
    | [] => 0
    | c :: _ => if info_connectedAt c =? 0 then 0 else info_uptime c
    end.
Proof.
  intros w connections total json.
  assert (Hw : registry_backed w) by (apply run_backed, new_controller_backed).
  pose proof (socket_values_refs w Hw) as Hrefs.
  assert (Hmap : List.map info_ref connections = List.map ref (socket_values w)).
  { subst connections. unfold getConnectionsInfo. cbn [fst].
    rewrite List.map_map. reflexivity. }
  assert (Hlen : List.length connections = List.length (sockets w)).
  { rewrite <- Hrefs, <- Hmap. by rewrite List.length_map. }
  split; [by rewrite Hmap|]. split; [rewrite Hmap, Hrefs; apply Hw|].
  assert (Htotal : total = Z.of_nat (List.length (sockets w))).
  { subst total. change (Z.of_nat (List.length connections)
                         = Z.of_nat (List.length (sockets w))). by rewrite Hlen. }
  split; [exact Htotal|]. split; [by rewrite Htotal|].
  split; [reflexivity|]. split; [reflexivity|]. split.
  - subst connections. unfold getConnectionsInfo. cbn [fst].
    apply Forall_forall. intros c Hc.
    apply list_elem_of_In, in_map_iff in Hc as (s & <- & _). by split.
  - subst json connections. unfold toJSON, getConnectionsInfo. cbn [fst json_uptime].
    destruct (socket_values w) as [|s l]; cbn; [lia|].
    destruct (connectedAt s =? 0); lia.
Qed.

Lemma connection_reports_agree_witness :
  let w := run [TransportConnection "a" 100; TransportConnection "b" 200;
                CallAdd "a" plain_request 300 300; CallAdd "b" plain_request 400 400;
                OnActivity "b" 450]
             (new_controller timed_config) in
  List.map info_ref (fst (fst (fst (getConnectionsInfo 500 w)))) = ["a"; "b"] /\
  json_connectionCount (toJSON 500 w) = 2 /\
  json_uptime (toJSON 500 w) = 400.
Proof.
  intros w.
  destruct (connection_reports_agree timed_config
              [TransportConnection "a" 100; TransportConnection "b" 200;
               CallAdd "a" plain_request 300 300; CallAdd "b" plain_request 400 400;
               OnActivity "b" 450] 500)
    as (Hrefs & _ & Htotal & Hjson & _ & _ & _ & Hup).
  fold w in Hrefs, Htotal, Hjson, Hup.
  split; [rewrite Hrefs; vm_compute; reflexivity|].
  split; [rewrite <- Hjson, Htotal; vm_compute; reflexivity|].
  rewrite Hup. vm_compute. reflexivity.
Defined.

(** ** The route table beyond [continuous] *)

(** X17: [WebSockets.use]. On a free path it registers a controller whose
    configuration is the given one with [limit] forced to 1 and connection
    keys on unless they were switched off, and returns the URL
    [path?key=...] of a key that is now pending in that controller (the
    bare path when keys are off). On a path that already holds an endpoint
    controller it creates nothing and lets that controller issue the URL:
    every call returns a fresh single-use key, and the configuration passed
    along, the limit of 1 included, is ignored. On a path that holds a raw
    controller it returns [undefined] and changes nothing. *)
Theorem use_issues_urls
    (route : Route) (cfg : option WebSocketEndpointConfig)
    (entropy idEntropy : list Byte.byte) (now : Z)
    (allowed_routes : gmap string GenericWebSocketEndpointController) :
  let path := route_path route in
  let routes := fst (fst (use route cfg entropy idEntropy now allowed_routes)) in
  let url := snd (fst (use route cfg entropy idEntropy now allowed_routes)) in
  let created := snd (use route cfg entropy idEntropy now allowed_routes) in
  let k := generateConnectionKey entropy in
  (allowed_routes !! path = None ->
     created = true /\
     exists w,
       routes !! path = Some (WebSocketEndpointController path w) /\
       limit (config w) = Some 1 /\ disposer (config w) = true /\
       sockets w = [] /\
       (useConnectionKeys (default empty_config cfg) <> Some false ->
          url = Some (path +:+ "?key=" +:+ k) /\
          pendingKeys w
          = [(pending_id now idEntropy,
              {| key := k; createdAt := now;
                 expiresAt := now + or_number (pendingKeyExpiration
                                                 (default empty_config cfg)) 120000 |})]) /\
       (useConnectionKeys (default empty_config cfg) = Some false ->
          url = Some path /\ pendingKeys w = [])) /\
  (forall p w, allowed_routes !! path = Some (WebSocketEndpointController p w) ->
     created = false /\
     url = Some (fst (new_url p entropy idEntropy now w)) /\
     routes = <[path := WebSocketEndpointController p
                          (snd (new_url p entropy idEntropy now w))]> allowed_routes /\
     config (snd (new_url p entropy idEntropy now w)) = config w) /\
  (forall p, allowed_routes !! path = Some (WebSocketRawEndpointController p) ->
     created = false /\ url = None /\ routes = allowed_routes) /\
  (forall q, q <> path -> routes !! q = allowed_routes !! q).
Proof.
  intros path routes url created k. subst routes url created. unfold use. fold path.
  destruct (allowed_routes !! path) as [c|] eqn:Hlook.
  - rewrite bool_decide_eq_true_2 by eauto. cbn [negb]. rewrite Hlook.
    split; [discriminate|]. split; [|split].
    + intros p w [= ->]. unfold controller_new.
      destruct (new_url p entropy idEntropy now w) as [u w'] eqn:Hn. cbn.
      split; [reflexivity|]. split; [reflexivity|]. split; [reflexivity|].
      unfold new_url in Hn. destruct (useConnectionKeys (config w)) as [[|]|];
        injection Hn as _ <-; reflexivity.
    + intros p [= ->]. cbn. split; [reflexivity|]. split; [reflexivity|].
      by apply insert_id.
    + intros q Hq. destruct (controller_new c entropy idEntropy now). cbn.
      by rewrite lookup_insert_ne.
  - rewrite bool_decide_eq_false_2 by (intros [? ?]; discriminate). cbn [negb].
    rewrite lookup_insert_eq. split; [|split; [discriminate|split; [discriminate|]]].
    + intros _. unfold controller_new, new_url.
      cbn [config new_controller construct_config useConnectionKeys single_use].
      destruct (useConnectionKeys (default empty_config cfg)) as [[|]|] eqn:Huse;
        cbn; (split; [reflexivity|]); eexists; rewrite lookup_insert_eq;
        (split; [reflexivity|]); cbn; repeat (split; [reflexivity|]);
        (split; [intros H; try congruence; by split | intros H; try congruence; by split]).
    + intros q Hq. destruct (controller_new _ entropy idEntropy now). cbn.
      by rewrite !lookup_insert_ne.
Qed.

Lemma use_issues_urls_witness :
  let first := use (RouteString "/once") None (List.repeat Byte.x2a 32)
                 (List.repeat Byte.x01 8) 1000 ∅ in
  let second := use (RouteURL "/once") (Some timed_config) (List.repeat Byte.x07 32)
                  (List.repeat Byte.x02 8) 1001 (fst (fst first)) in
  snd (fst first) = Some ("/once?key=" +:+ base64url (List.repeat Byte.x2a 32)) /\
  snd first = true /\ snd second = false /\
  snd (fst second) = Some ("/once?key=" +:+ base64url (List.repeat Byte.x07 32)).
Proof.
  intros first second.
  destruct (use_issues_urls (RouteString "/once") None (List.repeat Byte.x2a 32)
              (List.repeat Byte.x01 8) 1000 ∅) as (Hfree & _).
  destruct (Hfree eq_refl) as (Hc & w & Hw & _ & _ & _ & Hkeys & _).
  destruct Hkeys as [Hurl _]; [discriminate|].
  fold first in Hc, Hw, Hurl.
  split; [exact Hurl|]. split; [exact Hc|].
  destruct (use_issues_urls (RouteURL "/once") (Some timed_config)
              (List.repeat Byte.x07 32) (List.repeat Byte.x02 8) 1001 (fst (fst first)))
    as (_ & Hheld & _).
  destruct (Hheld "/once" w Hw) as (Hc2 & Hurl2 & _).
  fold second in Hc2, Hurl2.
  split; [exact Hc2|]. rewrite Hurl2. unfold new_url.
  assert (Huse : useConnectionKeys (config w) = Some true).
  { vm_compute in Hw. injection Hw as <-. reflexivity. }
  rewrite Huse. reflexivity.
Defined.

(** X18: [clear], [destroy] and the route table. [clear] empties the table
    at once and hands every controller it held to the shutdown. [destroy]
    of a controller made by [continuous] (or [use]) empties the controller
    and frees its path, leaving the other routes alone; a raw controller has
    no disposer, so its [destroy] leaves the table as it is and its route
    goes only with [clear]. The disposer frees the path whatever the table
    holds there: when a path is registered again after [clear] and the old
    controller is destroyed afterwards, as [clear] does once its shutdown
    has finished, the new controller loses its route, and the next
    [continuous] on the path creates yet another controller. *)
Theorem clear_and_dispose
    (route : Route) (cfg cfg' : option WebSocketEndpointConfig)
    (allowed_routes : gmap string GenericWebSocketEndpointController) :
  let path := route_path route in
  (snd (clear allowed_routes) = ∅ /\
   forall p c, allowed_routes !! p = Some c -> c ∈ fst (clear allowed_routes)) /\
  (forall p, destroy_controller (WebSocketRawEndpointController p) allowed_routes
             = (WebSocketRawEndpointController p, allowed_routes)) /\
  (allowed_routes !! path = None ->
   exists w,
     snd (continuous route cfg allowed_routes)
     = Some (WebSocketEndpointController path w) /\
     let held := fst (continuous route cfg allowed_routes) in
     let old := WebSocketEndpointController path w in
     (* destroyed while it holds the route *)
     snd (destroy_controller old held) = allowed_routes /\
     fst (destroy_controller old held) = WebSocketEndpointController path (destroy w) /\
     (forall q, q <> path ->
        snd (destroy_controller old held) !! q = allowed_routes !! q) /\
     (* destroyed after the path was cleared and registered again *)
     old ∈ fst (clear held) /\
     let again := fst (continuous route cfg' (snd (clear held))) in
     is_Some (again !! path) /\
     snd (destroy_controller old again) !! path = None /\
     snd (destroy_controller old again) = ∅).
Proof.
  intros path. split; [|split].
  - split; [reflexivity|]. intros p c Hc. unfold clear. cbn [fst].
    apply list_elem_of_In, in_map_iff. exists (p, c). split; [reflexivity|].
    apply list_elem_of_In. by apply elem_of_map_to_list.
  - reflexivity.
  - intros Hfree. unfold continuous. fold path.
    rewrite bool_decide_eq_false_2 by (rewrite Hfree; intros [? ?]; discriminate).
    cbn [fst snd]. rewrite lookup_insert_eq. eexists. split; [reflexivity|].
    cbn [destroy_controller fst snd config new_controller construct_config disposer
         with_disposer].
    split; [by rewrite delete_insert_eq, delete_id|]. split; [reflexivity|].
    split; [intros q Hq; by rewrite delete_insert_eq, delete_id|].
    split.
    { unfold clear. cbn [fst]. apply list_elem_of_In, in_map_iff.
      eexists (path, _). split; [reflexivity|].
      apply list_elem_of_In, elem_of_map_to_list. apply lookup_insert_eq. }
    unfold clear. cbn [snd].
    rewrite bool_decide_eq_false_2 by (rewrite lookup_empty; intros [? ?]; discriminate).
    split; [rewrite lookup_insert_eq; eauto|].
    split; [apply lookup_delete_eq|]. by rewrite delete_insert_eq, delete_id.
Qed.

Lemma clear_and_dispose_witness :
  let first := continuous (RouteString "/chat") None ∅ in
  let again := fst (continuous (RouteString "/chat") (Some timed_config)
                      (snd (clear (fst first)))) in
  exists w,
    snd first = Some (WebSocketEndpointController "/chat" w) /\
    is_Some (again !! "/chat") /\
    snd (destroy_controller (WebSocketEndpointController "/chat" w) again) !! "/chat"
    = None.
Proof.
  intros first again.
  destruct (clear_and_dispose (RouteString "/chat") None (Some timed_config) ∅)
    as (_ & _ & Hfree).
  destruct (Hfree eq_refl) as (w & Hw & _ & _ & _ & _ & Hagain & Hgone & _).
  exists w. split; [exact Hw|]. split; [exact Hagain | exact Hgone].
Defined.

(** ** The parameters stored on a connection *)

Section StoredParams.

Lemma fold_insert_lookup (ps : list (string * string)) (name : string) :
  forall m : gmap string string,
    fold_left (fun m e => <[fst e := snd e]> m) ps m !! name
    = match JsMap.get name (rev ps) with
      | Some v => Some v
      | None => m !! name
      end.
Proof.
  induction ps as [|[k v] ps IH]; intros m; [reflexivity|].
  cbn [fold_left rev fst snd]. rewrite IH.
  assert (Happ : forall l : list (string * string),
            JsMap.get name (l ++ [(k, v)])
            = match JsMap.get name l with
              | Some x => Some x
              | None => if String.eqb k name then Some v else None
              end).
  { induction l as [|[k' v'] l IHl]; cbn; [by destruct (String.eqb k name)|].
    by destruct (String.eqb k' name). }
  rewrite Happ. destruct (JsMap.get name (rev ps)); [reflexivity|].
  destruct (String.eqb k name) eqn:Hk.
  - apply String.eqb_eq in Hk. subst. apply lookup_insert_eq.
  - apply String.eqb_neq in Hk. by apply lookup_insert_ne.
Qed.

Lemma get_rev_is_Some (ps : list (string * string)) (name : string) :
  is_Some (JsMap.get name (rev ps)) <-> is_Some (JsMap.get name ps).
Proof.
  assert (Hin : forall l : list (string * string),
            is_Some (JsMap.get name l) <-> exists v, In (name, v) l).
  { induction l as [|[k v] l IHl]; cbn.
    - split; [intros [? ?]; discriminate | intros [? []]].
    - destruct (String.eqb k name) eqn:Hk.
      + apply String.eqb_eq in Hk. subst. split; [eauto|eauto].
      + apply String.eqb_neq in Hk. rewrite IHl. split.
        * intros [x Hx]. eauto.
        * intros [x [Hx|Hx]]; [congruence | eauto]. }
  rewrite !Hin. split; intros [v Hv]; exists v; [by apply in_rev | by apply in_rev in Hv].
Qed.

End StoredParams.

(** X19: the parameters that [add] stores on a connection,
    [Object.fromEntries(params.entries())]. A name is a key of [ws.params]
    exactly when the query has it, so every required parameter of an
    admitted connection is defined there; the value stored is the one of
    the last occurrence of the name in the query, whereas the key check of
    [add] ([params.get]) reads the first: for a query that gives each name
    once the two agree. *)
Theorem stored_params_follow_the_query (ps : list (string * string)) (name : string) :
  fromEntries ps !! name = params_get name (rev ps) /\
  (is_Some (fromEntries ps !! name) <-> params_has name ps = true) /\
  (NoDup (List.map fst ps) -> fromEntries ps !! name = params_get name ps).
Proof.
  assert (Hlast : fromEntries ps !! name = params_get name (rev ps)).
  { unfold fromEntries, params_get. rewrite fold_insert_lookup.
    destruct (JsMap.get name (rev ps)); [reflexivity | apply lookup_empty]. }
  split; [exact Hlast|]. split.
  - rewrite Hlast. unfold params_get, params_has, JsMap.has.
    rewrite get_rev_is_Some. destruct (JsMap.get name ps); split; eauto;
      try discriminate. intros [? ?]; discriminate.
  - intros Hnd. rewrite Hlast. unfold params_get.
    assert (Hget : forall (l : list (string * string)) v,
              NoDup (List.map fst l) -> In (name, v) l -> JsMap.get name l = Some v).
    { induction l as [|[k x] l IHl]; intros v Hn Hv; [destruct Hv|].
      cbn [List.map fst] in Hn. apply NoDup_cons in Hn as [Hout Hn]. cbn.
      destruct Hv as [[= -> ->]|Hv]; [by rewrite String.eqb_refl|].
      destruct (String.eqb k name) eqn:Hk; [|by apply IHl].
      apply String.eqb_eq in Hk. subst k. exfalso. apply Hout.
      apply list_elem_of_In, in_map_iff. by exists (name, v). }
    assert (Hin : forall (l : list (string * string)) v,
              JsMap.get name l = Some v -> In (name, v) l).
    { induction l as [|[k x] l IHl]; intros v; cbn; [discriminate|].
      destruct (String.eqb k name) eqn:Hk.
      - apply String.eqb_eq in Hk. intros [= ->]. left. by subst.
      - intros H. right. by apply IHl. }
    destruct (JsMap.get name (rev ps)) as [v|] eqn:Hr.
    + symmetry. apply Hget; [exact Hnd|]. apply in_rev. by apply Hin.
    + destruct (JsMap.get name ps) as [v|] eqn:Hp; [|reflexivity].
      assert (His : is_Some (JsMap.get name (rev ps)))
        by (apply get_rev_is_Some; rewrite Hp; eauto).
      rewrite Hr in His. destruct His as [? His]. discriminate His.
Qed.

Lemma stored_params_follow_the_query_witness :
  let ps := [("key", "first"); ("room", "7"); ("key", "last")] in
  fromEntries ps !! "key" = Some "last" /\ params_get "key" ps = Some "first" /\
  fromEntries [("room", "7")] !! "room" = params_get "room" [("room", "7")].
Proof.
  intros ps.
  destruct (stored_params_follow_the_query ps "key") as (Hlast & _ & _).
  destruct (stored_params_follow_the_query [("room", "7")] "room") as (_ & _ & Hone).
  split; [rewrite Hlast; reflexivity|]. split; [reflexivity|].
  apply Hone. cbn. apply NoDup_singleton.
Defined.

(** ** Connect and disconnect *)

Section LifecycleEvents.

Lemma quiet_refl (w : World) : lifecycle_quiet w w.
Proof. by repeat split. Qed.

Lemma quiet_trans_lifecycle (w1 w2 w3 : World) :
  lifecycle_quiet w1 w2 -> lifecycle_quiet w2 w3 -> lifecycle_quiet w1 w3.
Proof.
  intros (Hc & Hd & Hl & Hs) (Hc' & Hd' & Hl' & Hs'). repeat split.
  - intros ws. by rewrite Hc', Hc.
  - intros ws. by rewrite Hd', Hd.
  - intros ws. by rewrite Hl', Hl.
  - intros r Hr. by apply Hs, Hs'.
Qed.

Lemma quiet_act (a : Action) (w : World) :
  not_lifecycle a = true -> lifecycle_quiet w (act a w).
Proof.
  intros Ha. unfold lifecycle_quiet, connects, disconnects, close_listeners_of.
  unfold act. cbn [log heap sockets].
  repeat split; try done; intros ws; rewrite List.filter_app, length_app;
    destruct a as [| | |[]| | | | | | |]; try discriminate Ha; cbn; lia.
Qed.

(** A step that leaves the log, the close listeners and the connection map
    as they are. *)
Lemma quiet_fields (w w' : World) :
  log w' = log w -> sockets w' = sockets w ->
  (forall ws, (closeListeners <$> heap w' !! ws) = (closeListeners <$> heap w !! ws)) ->
  lifecycle_quiet w w'.
Proof.
  intros Hl Hs Hh. unfold lifecycle_quiet, close_listeners_of. rewrite Hl, Hs.
  repeat split; try done. intros ws. specialize (Hh ws).
  destruct (heap w' !! ws), (heap w !! ws); cbn in Hh; congruence.
Qed.

Lemma quiet_update (r : string) (f : ReferencedWebSocket -> ReferencedWebSocket)
    (w : World) :
  (forall s, closeListeners (f s) = closeListeners s) ->
  lifecycle_quiet w (update_socket r f w).
Proof.
  intros Hf. apply quiet_fields; try reflexivity. intros ws.
  unfold update_socket. cbn. destruct (decide (ws = r)) as [->|Hne].
  - rewrite lookup_alter_eq. destruct (heap w !! r); cbn; [by rewrite Hf | reflexivity].
  - by rewrite lookup_alter_ne.
Qed.

Lemma quiet_core (w w' : World) :
  same_core w w' -> log w' = log w -> lifecycle_quiet w w'.
Proof.
  intros (_ & Hh & Hs & _) Hl. apply quiet_fields; try assumption.
  intros ws. by rewrite Hh.
Qed.

Lemma quiet_then_act (a : Action) (w w' : World) :
  not_lifecycle a = true -> lifecycle_quiet w w' -> lifecycle_quiet w (act a w').
Proof.
  intros Ha H. eapply quiet_trans_lifecycle; [exact H | by apply quiet_act].
Qed.

Lemma quiet_clearTimeout (h : nat) (w : World) : lifecycle_quiet w (clearTimeout h w).
Proof.
  unfold clearTimeout. apply quiet_then_act; [reflexivity|].
  by apply quiet_fields.
Qed.

Lemma quiet_setup (r : string) (now : Z) (w : World) :
  lifecycle_quiet w (setupSocketTimeout r now w).
Proof.
  unfold setupSocketTimeout. destruct (truthy_number (timeout (config w)));
    [|apply quiet_refl].
  apply (quiet_trans_lifecycle _ (clear_timer_of r w)).
  { unfold clear_timer_of.
    destruct (heap w !! r) as [s|]; [destruct (timeoutTimer s)|];
      first [apply quiet_clearTimeout | apply quiet_refl]. }
  unfold setTimeout. cbn.
  match goal with |- lifecycle_quiet ?w0 (update_socket r ?f (act ?a ?w1)) =>
    apply (quiet_trans_lifecycle _ (act a w1));
      [apply quiet_then_act; [reflexivity | by apply quiet_fields]
      | by apply quiet_update] end.
Qed.

Lemma quiet_reset (r : string) (now : Z) (w : World) :
  lifecycle_quiet w (resetSocketTimeout r now w).
Proof.
  unfold resetSocketTimeout.
  apply (quiet_trans_lifecycle _ (update_socket r (with_lastActivity now) w));
    [by apply quiet_update | apply quiet_setup].
Qed.

Lemma quiet_iter (f : World -> World) (n : nat) (w : World) :
  (forall w0, lifecycle_quiet w0 (f w0)) -> lifecycle_quiet w (Nat.iter n f w).
Proof.
  intros Hf. induction n as [|n IH]; [apply quiet_refl|].
  change (Nat.iter (S n) f w) with (f (Nat.iter n f w)).
  eapply quiet_trans_lifecycle; [exact IH | apply Hf].
Qed.

Lemma quiet_checkRateLimit (req : IncomingMessage) (t : Z) (w : World) :
  lifecycle_quiet w (snd (checkRateLimit req t w)).
Proof.
  unfold checkRateLimit. destruct (rateLimit (config w)) as [rl|]; [|apply quiet_refl].
  destruct (rateLimitMap w !! getClientId req) as [lim|]; [|by apply quiet_fields].
  destruct (t >? resetTime lim); [by apply quiet_fields|].
  destruct (count lim >=? RateLimit.max rl); [by apply quiet_act | by apply quiet_fields].
Qed.

Lemma quiet_validate (k : string) (t : Z) (w : World) :
  lifecycle_quiet w (snd (validateConnectionKey k t w)).
Proof.
  unfold validateConnectionKey. destruct (String.eqb k ""); [apply quiet_refl|].
  destruct (find_pending k t (pendingKeys w)); [by apply quiet_fields | apply quiet_refl].
Qed.

Lemma quiet_add_begin ws req now (w : World) :
  lifecycle_quiet w (fst (add_begin ws req now w)).
Proof.
  assert (Hact : forall a w0, not_lifecycle a = true -> lifecycle_quiet w w0 ->
            lifecycle_quiet w (act a w0)) by (intros; by apply quiet_then_act).
  unfold add_begin.
  pose proof (quiet_checkRateLimit req now (act (Evaluated CheckRateLimit) w)) as H1.
  destruct (checkRateLimit req now _) as [allowed w1]. cbn [snd] in H1.
  assert (Hw1 : lifecycle_quiet w w1).
  { eapply quiet_trans_lifecycle; [|exact H1]. by apply quiet_act. }
  destruct allowed; cbn [negb fst]; [|by apply Hact].
  destruct (at_capacity _); cbn [fst]; [by apply Hact, Hact|].
  destruct (searchParams req) as [ps|]; cbn [fst];
    [|unfold add_catch; destruct (Nat.eqb _ 0); by apply Hact, Hact, Hact].
  assert (Hauth : forall w0, lifecycle_quiet w w0 ->
            lifecycle_quiet w (fst (auth_begin ws req ps w0))).
  { intros w0 H0. unfold auth_begin. cbn [fst]. by apply Hact. }
  assert (Hparams : forall w0, lifecycle_quiet w w0 ->
            lifecycle_quiet w (fst (params_begin ws req ps w0))).
  { intros w0 H0. unfold params_begin.
    destruct (requiredParams (config w0)) as [required|]; [|by apply Hauth].
    destruct (first_missing required ps); cbn [fst];
      [by apply Hact, Hact | by apply Hauth, Hact]. }
  unfold key_begin. set (w2 := act (Evaluated CheckCapacity) w1).
  assert (Hw2 : lifecycle_quiet w w2) by (by apply Hact).
  destruct (useConnectionKeys (config w2)) as [[|]|]; try by apply Hparams.
  pose proof (quiet_validate (or_string (params_get "key" ps) "") now
                (act (Evaluated CheckKey) w2)) as H3.
  destruct (validateConnectionKey _ now _) as [ok w3]. cbn [snd] in H3.
  assert (Hw3 : lifecycle_quiet w w3).
  { eapply quiet_trans_lifecycle; [|exact H3]. by apply Hact. }
  destruct ok; cbn [fst]; [by apply Hparams | by apply Hact].
Qed.

Lemma quiet_terminate_open (socks : list ReferencedWebSocket) :
  forall w, lifecycle_quiet w (terminate_open socks w).
Proof.
  induction socks as [|s socks IH]; intros w; [apply quiet_refl|]. simpl.
  destruct (is_open (readyState s)); [|apply IH].
  eapply quiet_trans_lifecycle; [|apply IH]. by apply quiet_act.
Qed.

Lemma quiet_broadcast_loop data throws (l : list ReferencedWebSocket) :
  forall b w, lifecycle_quiet w (snd (fst (broadcast_loop data throws l b w))).
Proof.
  induction l as [|s l IH]; intros b w; [apply quiet_refl|]. simpl.
  destruct (is_open (readyState s)).
  - destruct (throws (ref s)); [apply quiet_refl|].
    eapply quiet_trans_lifecycle; [|apply IH]. by apply quiet_act.
  - eapply quiet_trans_lifecycle; [|apply IH].
    destruct (_ && _); [by apply quiet_act | apply quiet_refl].
Qed.

Lemma quiet_shutdown_loop (todo : list ReferencedWebSocket) :
  forall g w, lifecycle_quiet w (snd (shutdown_loop todo g w)).
Proof.
  induction todo as [|s todo IH]; intros g w; [apply quiet_refl|]. simpl.
  destruct (is_open (readyState s)); [|apply IH].
  eapply quiet_trans_lifecycle; [|apply IH]. by apply quiet_act.
Qed.

Lemma quiet_terminate_each (socks : list ReferencedWebSocket) :
  forall w, lifecycle_quiet w (terminate_each socks w).
Proof.
  induction socks as [|s socks IH]; intros w; [apply quiet_refl|]. cbn [terminate_each].
  eapply quiet_trans_lifecycle; [|apply IH]. apply quiet_then_act; [reflexivity|].
  destruct (timeoutTimer s); [apply quiet_clearTimeout | apply quiet_refl].
Qed.

Lemma quiet_destroy_each (socks : list ReferencedWebSocket) :
  forall w, lifecycle_quiet w (destroy_each socks w).
Proof.
  induction socks as [|s socks IH]; intros w; [apply quiet_refl|]. cbn [destroy_each].
  eapply quiet_trans_lifecycle; [|apply IH].
  assert (H1 : lifecycle_quiet w
                 (match timeoutTimer s with Some h => clearTimeout h w | None => w end))
    by (destruct (timeoutTimer s); [apply quiet_clearTimeout | apply quiet_refl]).
  destruct (is_open (readyState s)); [by apply quiet_then_act | exact H1].
Qed.

(** Emptying the maps takes connections out and touches nothing else that
    the lifecycle looks at. *)
Lemma quiet_clear_maps (w : World) : lifecycle_quiet w (clear_maps w).
Proof.
  unfold lifecycle_quiet, close_listeners_of. cbn. repeat split; try done.
  intros r Hr. by apply not_elem_of_nil in Hr.
Qed.

(** Every operation other than [add] and the close event is quiet. *)
Lemma exec_quiet (op : Operation) (w : World) :
  (forall ws req now resumed, op <> CallAdd ws req now resumed) ->
  (forall ws code reason, op <> OnClose ws code reason) ->
  (forall ws now, op <> TransportConnection ws now) ->
  lifecycle_quiet w (exec op w).
Proof.
  intros Hadd Hclose Hconn. destruct op; cbn [exec].
  - exfalso. by eapply Hconn.
  - by apply quiet_update.
  - exfalso. by eapply Hclose.
  - unfold on_error. destruct (heap w !! ws) as [s0|]; [|apply quiet_refl].
    destruct (Nat.eqb (errorHandlers w) 0).
    + destruct (errorListeners s0); [apply quiet_refl|].
      apply quiet_then_act; [reflexivity | by apply quiet_act].
    + apply quiet_iter. intros w0. by apply quiet_act.
  - unfold on_activity. destruct (heap w !! ws); [|apply quiet_refl].
    apply quiet_iter. intros w0. apply quiet_reset.
  - unfold timer_fired. destruct (timers w !! h); [|apply quiet_refl].
    destruct (open_in _ _); [apply quiet_then_act; [reflexivity|]|]; by apply quiet_fields.
  - by apply quiet_fields.
  - apply quiet_terminate_open.
  - exfalso. by eapply Hadd.
  - by apply quiet_fields.
  - unfold broadcast.
    match goal with |- context [if ?c then _ else _] => destruct c end;
      [|apply quiet_broadcast_loop].
    cbn. match goal with |- context [if ?c then _ else _] => destruct c end;
      [by apply quiet_act | apply quiet_refl].
  - unfold send.
    match goal with |- context [sockets_get ?r w] =>
      destruct (sockets_get r w) as [s|] end.
    + destruct (is_open (readyState s)); cbn;
        repeat match goal with |- context [match ?c with _ => _ end] => destruct c end;
        first [by apply quiet_act | apply quiet_refl].
    + cbn. match goal with |- context [if ?c then _ else _] => destruct c end;
        [by apply quiet_act | apply quiet_refl].
  - apply quiet_refl.
  - unfold gracefulShutdown.
    match goal with |- context [if ?c then _ else _] => destruct c end;
      [apply quiet_refl|].
    match goal with |- context [shutdown_loop ?l ?g w] =>
      pose proof (quiet_shutdown_loop l g w) as H;
      destruct (shutdown_loop l g w) end.
    exact H.
  - unfold resetTimeout.
    match goal with |- context [sockets_get ?r0 w] => destruct (sockets_get r0 w) end;
      [apply quiet_reset | apply quiet_refl].
  - unfold terminate. destruct (String.eqb (or_string r "") "").
    + cbn [fst]. eapply quiet_trans_lifecycle;
        [apply quiet_terminate_each | apply quiet_clear_maps].
    + destruct (sockets_get _ w) as [s|]; [|apply quiet_refl]. cbn [fst].
      apply quiet_then_act; [reflexivity|].
      destruct (timeoutTimer s); [apply quiet_clearTimeout | apply quiet_refl].
  - unfold destroy.
    assert (H1 : lifecycle_quiet w (clear_maps (destroy_each (socket_values w) w))).
    { eapply quiet_trans_lifecycle; [apply quiet_destroy_each | apply quiet_clear_maps]. }
    apply quiet_then_act; [reflexivity|].
    destruct (disposer (config w)); [by apply quiet_then_act | exact H1].
  - unfold new_url. destruct (useConnectionKeys (config w)) as [[|]|];
      first [by apply quiet_fields | apply quiet_refl].
  - apply quiet_refl.
  - by apply quiet_fields.
Qed.

Lemma balanced_quiet (w w' : World) :
  lifecycle_quiet w w' -> lifecycle_balanced w -> lifecycle_balanced w'.
Proof.
  intros (Hc & Hd & Hl & Hs) [Hbal Hreg]. split.
  - intros ws. by rewrite Hc, Hd, Hl.
  - intros ws Hin. rewrite Hl. by apply Hreg, Hs.
Qed.


Lemma balanced_add_register ws ps resumed (w : World) (s : ReferencedWebSocket) :
  heap w !! ws = Some s -> lifecycle_balanced w ->
  lifecycle_balanced (add_register ws ps resumed w).
Proof.
  intros Hs [Hbal Hreg].
  destruct (add_register_spec ws ps resumed w s Hs) as (Hsock & Hws & Hother & _ & Hlog).
  cbv zeta in Hsock, Hws, Hother, Hlog.
  set (w' := add_register ws ps resumed w) in *.
  assert (Hc : forall r, connects r (log w')
                         = (connects r (log w) + (if String.eqb ws r then 1 else 0))%nat).
  { intros r. rewrite Hlog. unfold connects. rewrite !List.filter_app, !length_app.
    destruct (timeout_enabled (config w)); [destruct s as [? ? ? [h|] ? ? ? ? ?]|];
      cbn; destruct (String.eqb ws r); cbn; lia. }
  assert (Hd : forall r, disconnects r (log w') = disconnects r (log w)).
  { intros r. rewrite Hlog. unfold disconnects. rewrite !List.filter_app, !length_app.
    destruct (timeout_enabled (config w)); [destruct s as [? ? ? [h|] ? ? ? ? ?]|];
      cbn; lia. }
  assert (Hl : forall r, close_listeners_of r w'
                         = (close_listeners_of r w + (if String.eqb ws r then 1 else 0))%nat).
  { intros r. unfold close_listeners_of. destruct (String.eqb_spec ws r) as [<-|Hne].
    - rewrite Hws, Hs. cbn. lia.
    - rewrite Hother by congruence. lia. }
  split.
  - intros r. rewrite Hc, Hd, Hl, Hbal. lia.
  - intros r Hin. rewrite Hl. rewrite Hsock in Hin. unfold sockets_set in Hin.
    destruct (String.eqb_spec ws r) as [<-|Hne]; [lia|].
    assert (r ∈ sockets w).
    { destruct (bool_decide (ws ∈ sockets w)); [exact Hin|].
      apply elem_of_app in Hin as [Hin|Hin]; [exact Hin|].
      apply list_elem_of_singleton in Hin. congruence. }
    specialize (Hreg r H). lia.
Qed.

Lemma balanced_add ws req now resumed (w : World) :
  is_Some (heap w !! ws) -> lifecycle_balanced w ->
  lifecycle_balanced (add ws req now resumed w).
Proof.
  intros [s Hs] Hw. rewrite add_is_at_once. unfold add_at_once.
  pose proof (quiet_add_begin ws req now w) as Hq.
  pose proof (add_begin_core ws req now w) as (_ & Hheap & _).
  destruct (add_begin ws req now w) as [w1 [k|]] eqn:Hb; cbn [fst] in Hq, Hheap;
    [|by apply (balanced_quiet w)].
  destruct (add_begin_suspended _ _ _ _ _ _ Hb) as [Hk _].
  assert (H1 : lifecycle_balanced w1) by (by apply (balanced_quiet w)).
  unfold add_resume. destruct (suspended_result k) as [[|]|e].
  - rewrite Hk. apply (balanced_add_register _ _ _ _ s); [by rewrite Hheap | exact H1].
  - apply (balanced_quiet w1); [by apply quiet_act | exact H1].
  - apply (balanced_quiet w1); [|exact H1]. unfold add_catch.
    destruct (Nat.eqb (errorHandlers w1) 0);
      (apply quiet_then_act; [reflexivity | by apply quiet_act]).
Qed.

(** One run of the close listener: the connection leaves the map, its timer
    is cleared and forgotten, and one [disconnect] joins the log. *)
Lemma close_handler_lifecycle ws code reason (w : World) :
  (forall r, connects r (log (close_handler ws code reason w)) = connects r (log w)) /\
  (forall r, disconnects r (log (close_handler ws code reason w))
             = (disconnects r (log w) + (if String.eqb ws r then 1 else 0))%nat) /\
  (forall r, close_listeners_of r (close_handler ws code reason w)
             = close_listeners_of r w) /\
  sockets (close_handler ws code reason w) = sockets_delete ws (sockets w) /\
  (forall s, heap w !! ws = Some s ->
     exists s', heap (close_handler ws code reason w) !! ws = Some s' /\
                timeoutTimer s' = None).
Proof.
  unfold close_handler. cbv zeta. set (w1 := set_sockets _ w).
  set (w2 := match heap w1 !! ws with
             | Some s => match timeoutTimer s with
                         | Some h => update_socket ws (with_timeoutTimer None)
                                       (clearTimeout h w1)
                         | None => w1
                         end
             | None => w1
             end).
  assert (Hq : (forall r, connects r (log w2) = connects r (log w)) /\
               (forall r, disconnects r (log w2) = disconnects r (log w)) /\
               (forall r, close_listeners_of r w2 = close_listeners_of r w) /\
               sockets w2 = sockets_delete ws (sockets w) /\
               (forall s, heap w !! ws = Some s ->
                  exists s', heap w2 !! ws = Some s' /\ timeoutTimer s' = None)).
  { subst w2. change (heap w1) with (heap w).
    destruct (heap w !! ws) as [s|] eqn:Hs; [|repeat split; try done].
    destruct (timeoutTimer s) as [h|] eqn:Ht.
    - pose proof (quiet_trans_lifecycle _ _ _ (quiet_clearTimeout h w1)
                    (quiet_update ws (with_timeoutTimer None) (clearTimeout h w1)
                       (fun _ => eq_refl))) as (Hc & Hd & Hl & _).
      repeat split; try done.
      intros s0 [= <-]. exists (with_timeoutTimer None s). split; [|reflexivity].
      unfold update_socket, clearTimeout. cbn. by rewrite lookup_alter_eq, Hs.
    - repeat split; try done. intros s0 [= <-]. by exists s. }
  destruct Hq as (Hc & Hd & Hl & Hs & Hh). unfold act. cbn [log heap sockets].
  unfold close_listeners_of in *. cbn [heap]. repeat split; try assumption.
  - intros r. unfold connects. rewrite List.filter_app, length_app. cbn.
    specialize (Hc r). unfold connects in Hc. lia.
  - intros r. unfold disconnects. rewrite List.filter_app, length_app. cbn.
    specialize (Hd r). unfold disconnects in Hd.
    destruct (String.eqb ws r); cbn; lia.
Qed.

Lemma close_handler_iter_lifecycle ws code reason (n : nat) (w : World) :
  let w' := Nat.iter n (close_handler ws code reason) w in
  (forall r, connects r (log w') = connects r (log w)) /\
  (forall r, disconnects r (log w')
             = (disconnects r (log w) + (if String.eqb ws r then n else 0))%nat) /\
  (forall r, close_listeners_of r w' = close_listeners_of r w) /\
  (forall r, r ∈ sockets w' -> r ∈ sockets w) /\
  ((1 <= n)%nat -> ws ∉ sockets w') /\
  ((1 <= n)%nat -> forall s, heap w !! ws = Some s ->
     exists s', heap w' !! ws = Some s' /\ timeoutTimer s' = None).
Proof.
  induction n as [|n IH]; cbv zeta.
  - cbn. repeat split; try done; try lia. intros r. destruct (String.eqb ws r); lia.
  - cbv zeta in IH. destruct IH as (Hc & Hd & Hl & Hs & _ & Hh).
    change (Nat.iter (S n) (close_handler ws code reason) w)
      with (close_handler ws code reason (Nat.iter n (close_handler ws code reason) w)).
    set (wn := Nat.iter n (close_handler ws code reason) w) in *.
    destruct (close_handler_lifecycle ws code reason wn) as (Hc' & Hd' & Hl' & Hs' & Hh').
    assert (Hsub : forall r, r ∈ sockets_delete ws (sockets wn) -> r ∈ sockets wn /\ r <> ws).
    { intros r Hr. unfold sockets_delete in Hr.
      apply list_elem_of_In, List.filter_In in Hr as [Hr Hne]. split.
      - by apply list_elem_of_In.
      - intros ->. by rewrite String.eqb_refl in Hne. }
    repeat split.
    + intros r. by rewrite Hc', Hc.
    + intros r. rewrite Hd', Hd. destruct (String.eqb ws r); lia.
    + intros r. by rewrite Hl', Hl.
    + intros r Hr. rewrite Hs' in Hr. by apply Hs, Hsub.
    + intros _ Hin. rewrite Hs' in Hin. by destruct (Hsub _ Hin).
    + intros _ s Hws.
      assert (Hsome : is_Some (heap wn !! ws)).
      { destruct n as [|n]; [by exists s|].
        destruct (Hh ltac:(lia) s Hws) as (s' & Hs'' & _). by exists s'. }
      destruct Hsome as [sn Hsn]. by apply (Hh' sn).
Qed.

Lemma balanced_on_close ws code reason (w : World) :
  lifecycle_balanced w -> lifecycle_balanced (on_close ws code reason w).
Proof.
  intros [Hbal Hreg]. unfold on_close. destruct (heap w !! ws) as [s|] eqn:Hs; [|by split].
  set (w0 := update_socket ws _ w).
  assert (Hl0 : forall r, close_listeners_of r w0
                          = if String.eqb ws r then O else close_listeners_of r w).
  { intros r. unfold close_listeners_of, w0, update_socket. cbn.
    destruct (String.eqb_spec ws r) as [<-|Hne].
    - by rewrite lookup_alter_eq, Hs.
    - rewrite lookup_alter_ne by congruence. reflexivity. }
  destruct (close_handler_iter_lifecycle ws code reason (closeListeners s) w0)
    as (Hc & Hd & Hl & Hsub & Hout & _).
  cbv zeta in Hc, Hd, Hl, Hsub, Hout. split.
  - intros r. rewrite Hc, Hd, Hl, Hl0. change (log w0) with (log w).
    rewrite Hbal. destruct (String.eqb_spec ws r) as [<-|Hne]; [|lia].
    unfold close_listeners_of. rewrite Hs. lia.
  - intros r Hin. rewrite Hl, Hl0. destruct (String.eqb_spec ws r) as [<-|Hne].
    + exfalso. specialize (Hreg ws (Hsub _ Hin)).
      unfold close_listeners_of in Hreg. rewrite Hs in Hreg. by apply Hout.
    + apply Hreg. by apply (Hsub r).
Qed.

Lemma exec_balanced (op : Operation) (w : World) :
  lifecycle_balanced w -> lifecycle_balanced (exec op w).
Proof.
  intros Hw.
  destruct op;
    try (apply (balanced_quiet w); [apply exec_quiet; discriminate | exact Hw]).
  - cbn [exec]. destruct (heap w !! ws) as [s|] eqn:Hs; [exact Hw|].
    destruct Hw as [Hbal Hreg].
    assert (Hl : forall r, close_listeners_of r
                   (set_heap (<[ws := fresh_socket ws now]> (heap w)) w)
                 = close_listeners_of r w).
    { intros r. unfold close_listeners_of. cbn. destruct (decide (r = ws)) as [->|Hne].
      - by rewrite lookup_insert_eq, Hs.
      - by rewrite lookup_insert_ne. }
    split.
    + intros r. rewrite Hl. apply Hbal.
    + intros r Hin. rewrite Hl. by apply Hreg.
  - cbn [exec]. by apply balanced_on_close.
  - cbn [exec]. destruct (heap w !! ws) as [s|] eqn:Hs; [|exact Hw].
    apply balanced_add; [by exists s | exact Hw].
Qed.

Lemma run_balanced (ops : list Operation) :
  forall w, lifecycle_balanced w -> lifecycle_balanced (run ops w).
Proof.
  induction ops as [|op ops IH]; intros w Hw; [exact Hw|].
  change (run (op :: ops) w) with (run ops (exec op w)). by apply IH, exec_balanced.
Qed.

Lemma new_controller_balanced (cfg : WebSocketEndpointConfig) :
  lifecycle_balanced (new_controller cfg).
Proof.
  split.
  - intros ws. reflexivity.
  - intros ws Hin. by apply not_elem_of_nil in Hin.
Qed.

End LifecycleEvents.

(** X20: connect and disconnect. Whatever the controller has been through,
    every [connect] it has emitted for a socket is matched by one
    [disconnect] or by one close listener still waiting on that socket, and
    every connection in the map carries such a listener. So when the
    transport emits [close] on a registered connection, the connection
    leaves the map, no idle timer stays pending for it, and the socket has
    had as many [disconnect] events as [connect] events. *)
Theorem connections_close_cleanly
    (cfg : WebSocketEndpointConfig) (ops : list Operation) :
  let w := run ops (new_controller cfg) in
  lifecycle_balanced w /\
  forall ws code reason,
    ws ∈ sockets w ->
    let w' := exec (OnClose ws code reason) w in
    (ws ∉ sockets w') /\
    pending_timers ws w' = [] /\
    close_listeners_of ws w' = O /\
    connects ws (log w') = connects ws (log w) /\
    disconnects ws (log w') = connects ws (log w).
Proof.
  intros w.
  assert (Hw : lifecycle_balanced w) by apply run_balanced, new_controller_balanced.
  assert (Hown : timers_owned w) by apply run_owned, new_controller_owned.
  split; [exact Hw|]. intros ws code reason Hin w'.
  pose proof (exec_owned (OnClose ws code reason) w Hown) as [Hown' _].
  pose proof (exec_balanced (OnClose ws code reason) w Hw) as [Hbal' _].
  fold w' in Hown', Hbal'. destruct Hw as [Hbal Hreg].
  specialize (Hreg ws Hin). subst w'. cbn [exec] in *. unfold on_close in *.
  unfold close_listeners_of in Hreg.
  destruct (heap w !! ws) as [s|] eqn:Hs; [|lia].
  set (w0 := update_socket ws _ w) in *.
  assert (Hs0 : exists s0, heap w0 !! ws = Some s0 /\ closeListeners s0 = O).
  { eexists. split; [unfold w0, update_socket; cbn; by rewrite lookup_alter_eq, Hs|].
    reflexivity. }
  destruct Hs0 as (s0 & Hs0 & Hn0).
  destruct (close_handler_iter_lifecycle ws code reason (closeListeners s) w0)
    as (Hc & Hd & Hl & _ & Hout & Hh).
  cbv zeta in Hc, Hd, Hl, Hout, Hh.
  destruct (Hh Hreg s0 Hs0) as (s' & Hs' & Ht').
  assert (Hzero : close_listeners_of ws
                    (Nat.iter (closeListeners s) (close_handler ws code reason) w0) = O).
  { rewrite Hl. unfold close_listeners_of. by rewrite Hs0. }
  split; [by apply Hout|]. split; [|split; [exact Hzero|split]].
  - destruct (pending_timers ws _) as [|h l] eqn:Hp; [reflexivity|]. exfalso.
    assert (Hin' : List.In h (pending_timers ws
                     (Nat.iter (closeListeners s) (close_handler ws code reason) w0)))
      by (rewrite Hp; by left).
    apply pending_timers_In in Hin'. destruct (Hown' _ _ Hin') as (s1 & Hs1 & Ht1).
    congruence.
  - by rewrite Hc.
  - specialize (Hbal' ws). rewrite Hzero, Hc in Hbal'. change (log w0) with (log w) in Hbal'.
    lia.
Qed.

Lemma connections_close_cleanly_witness :
  let w := run [TransportConnection "a" 100; TransportConnection "b" 200;
                CallAdd "a" plain_request 300 300; CallAdd "b" plain_request 400 400;
                OnActivity "b" 450]
             (new_controller timed_config) in
  let w' := exec (OnClose "a" 1000 "bye") w in
  ("a" ∉ sockets w') /\ pending_timers "a" w' = [] /\
  disconnects "a" (log w') = 1%nat /\ sockets w' = ["b"].
Proof.
  intros w w'.
  destruct (connections_close_cleanly timed_config
              [TransportConnection "a" 100; TransportConnection "b" 200;
               CallAdd "a" plain_request 300 300; CallAdd "b" plain_request 400 400;
               OnActivity "b" 450]) as [_ H].
  fold w in H. destruct (H "a" 1000 "bye") as (Hout & Hp & _ & _ & Hd).
  { replace (sockets w) with ["a"; "b"] by (vm_compute; reflexivity).
    apply list_elem_of_here. }
  fold w' in Hout, Hp, Hd.
  split; [exact Hout|]. split; [exact Hp|].
  split; [rewrite Hd; vm_compute; reflexivity | vm_compute; reflexivity].
Defined.
